(** * jwplayer: player facade, instance registry and configuration normalizer

    A shallow embedding of [src/js/api/api.js] (the [Api] facade and, in the
    same file, the configuration module with [createConfig]) and of
    [src/js/api/global-api.js] (the instance registry with [selectPlayer]).

    JavaScript values are modelled directly: numbers are IEEE-754 binary64
    floating-point numbers (the software floats of [SpecFloat], with
    [prec = 53] and [emax = 1024]), strings are [string], arrays are lists
    and objects are finite maps from property names to values.  Code that can
    raise a [TypeError] returns an [outcome]. *)

From Stdlib Require Import ZArith QArith List String Ascii Bool Lia.
From Stdlib Require Import Floats.SpecFloat.
From stdpp Require Import gmap strings list fin_maps.
Import ListNotations.
Local Open Scope string_scope.
Local Open Scope Z_scope.

(** ** Strings as the source uses them *)

Module Str.

Fixpoint to_list (s : string) : list ascii :=
  match s with
  | EmptyString => []
  | String c r => c :: to_list r
  end.

Fixpoint of_list (l : list ascii) : string :=
  match l with
  | [] => EmptyString
  | c :: r => String c (of_list r)
  end.

(** [s.indexOf(sub)], as an integer: [-1] when [sub] does not occur. *)
Definition indexOf (s sub : string) : Z :=
  match String.index 0 sub s with
  | Some i => Z.of_nat i
  | None => if (String.length sub =? 0)%nat then 0 else -1
  end.

(** [s.substr(start)] and [s.substr(0, len)] for in-range arguments. *)
Definition from (start : nat) (s : string) : string :=
  String.substring start (String.length s - start) s.

Definition upto (len : nat) (s : string) : string :=
  String.substring 0 len s.

Definition endsWith (s suffix : string) : bool :=
  let n := String.length s in
  let k := String.length suffix in
  (k <=? n)%nat && String.eqb (from (n - k) s) suffix.

(** [s.replace(pat, by)] with a string pattern: only the first occurrence. *)
Definition replaceFirst (s pat by_ : string) : string :=
  match String.index 0 pat s with
  | Some i => upto i s ++ by_ ++ from (i + String.length pat) s
  | None => s
  end.

(** [s.replace(/\/?$/, '/')]: the only match is an optional slash at the very
    end of the input, so the result always ends in exactly the slashes it had,
    or in one new slash. *)
Definition forceTrailingSlash (s : string) : string :=
  if endsWith s "/" then s else s ++ "/".

Definition is_digit (c : ascii) : bool :=
  let n := nat_of_ascii c in (48 <=? n)%nat && (n <=? 57)%nat.

Definition digit_val (c : ascii) : Z := Z.of_nat (nat_of_ascii c) - 48.

Fixpoint span_digits (l : list ascii) : list ascii * list ascii :=
  match l with
  | c :: r => if is_digit c
              then let (d, t) := span_digits r in (c :: d, t)
              else ([], l)
  | [] => ([], [])
  end.

Definition digits_to_Z (l : list ascii) : Z :=
  fold_left (fun acc c => 10 * acc + digit_val c) l 0.

(** Decimal digits of a non-negative integer. *)
Fixpoint digits_fuel (fuel : nat) (z : Z) (acc : list ascii) : list ascii :=
  match fuel with
  | O => acc
  | S f =>
      let c := ascii_of_nat (Z.to_nat (z mod 10) + 48) in
      if z <? 10 then c :: acc else digits_fuel f (z / 10) (c :: acc)
  end.

Definition digits_of_Z (z : Z) : list ascii :=
  digits_fuel (S (Z.to_nat (Z.log2 z))) z [].

Definition of_Z (z : Z) : string :=
  if z <? 0 then "-" ++ of_list (digits_of_Z (- z)) else of_list (digits_of_Z z).

End Str.

(** ** JavaScript numbers *)

Module Num.

Definition prec : Z := 53.
Definition emax : Z := 1024.

Definition num : Type := spec_float.

Definition NaN : num := S754_nan.
Definition of_Z (z : Z) : num := binary_normalize prec emax z 0 false.
Definition mul : num -> num -> num := SFmul prec emax.
Definition div : num -> num -> num := SFdiv prec emax.
Definition leb : num -> num -> bool := SFleb.
Definition eqb : num -> num -> bool := SFeqb.

Definition is_nan (x : num) : bool :=
  match x with S754_nan => true | _ => false end.

Definition is_zero (x : num) : bool :=
  match x with S754_zero _ => true | _ => false end.

(** The number denoted by the decimal numeral [(-1)^neg * m * 10^e],
    correctly rounded (to nearest, ties to even). *)
Definition of_decimal (neg : bool) (m : Z) (e : Z) : num :=
  match m with
  | Zpos p =>
      if 0 <=? e
      then binary_normalize prec emax
             (if neg then - (m * 10 ^ e) else m * 10 ^ e) 0 neg
      else SFdiv prec emax (S754_finite neg p 0)
             (S754_finite false (Z.to_pos (10 ^ (- e))) 0)
  | _ => S754_zero neg
  end.

(** *** [parseFloat] *)

Definition is_space (c : ascii) : bool :=
  let n := nat_of_ascii c in
  ((9 <=? n)%nat && (n <=? 13)%nat) || (n =? 32)%nat.

Fixpoint skip_spaces (l : list ascii) : list ascii :=
  match l with
  | c :: r => if is_space c then skip_spaces r else l
  | [] => []
  end.

Definition split_sign (l : list ascii) : bool * list ascii :=
  match l with
  | "-"%char :: r => (true, r)
  | "+"%char :: r => (false, r)
  | _ => (false, l)
  end.

(** The exponent part [e[+-]ddd] when it is well formed, else no exponent. *)
Definition exponent_part (l : list ascii) : Z :=
  match l with
  | c :: r =>
      if (Ascii.eqb c "e" || Ascii.eqb c "E")%bool then
        let (neg, r') := split_sign r in
        let (ds, _) := Str.span_digits r' in
        match ds with
        | [] => 0
        | _ => if neg then - Str.digits_to_Z ds else Str.digits_to_Z ds
        end
      else 0
  | [] => 0
  end.

Definition starts_with (p l : list ascii) : bool :=
  String.prefix (Str.of_list p) (Str.of_list l).

(** The longest prefix that is a [StrDecimalLiteral] gives the number;
    [NaN] when there is none. *)
Definition parseFloat (s : string) : num :=
  let (neg, l) := split_sign (skip_spaces (Str.to_list s)) in
  if starts_with (Str.to_list "Infinity") l then S754_infinity neg else
  let (ip, r1) := Str.span_digits l in
  let '(fp, r2) :=
    match r1 with
    | "."%char :: r => Str.span_digits r
    | _ => ([], r1)
    end in
  match ip, fp with
  | [], [] => NaN
  | _, _ =>
      of_decimal neg (Str.digits_to_Z (ip ++ fp))
        (exponent_part r2 - Z.of_nat (List.length fp))
  end.

(** *** [Number::toString] (radix 10)

    The digits are the shortest decimal numeral that rounds back to the
    number; of two candidates of that length the one closest to the number
    is taken. *)

Definition q2 (e : Z) : Q :=
  if 0 <=? e then inject_Z (2 ^ e) else Qmake 1 (Z.to_pos (2 ^ (- e))).

Definition q10 (e : Z) : Q :=
  if 0 <=? e then inject_Z (10 ^ e) else Qmake 1 (Z.to_pos (10 ^ (- e))).

Definition qlt (a b : Q) : bool := negb (Qle_bool b a).

Definition qfloor (a : Q) : Z := Qnum a / Zpos (Qden a).

Fixpoint lower_n (fuel : nat) (v : Q) (n : Z) : Z :=
  match fuel with
  | O => n
  | S f => if qlt v (q10 (n - 1)) then lower_n f v (n - 1) else n
  end.

Fixpoint raise_n (fuel : nat) (v : Q) (n : Z) : Z :=
  match fuel with
  | O => n
  | S f => if qlt v (q10 n) then n else raise_n f v (n + 1)
  end.

(** The [n] with [10^(n-1) <= v < 10^n]. *)
Definition magnitude (m : positive) (e : Z) : Z :=
  let v := (inject_Z (Zpos m) * q2 e)%Q in
  let est := (Z.log2 (Zpos m) + 1 + e) * 30103 / 100000 in
  raise_n 8 v (lower_n 8 v (est + 2)).

Fixpoint shortest_from (fuel : nat) (k : Z) (v lo hi : Q) (incl : bool) (n : Z)
  : Z * Z * Z :=
  let scale := q10 (n - k) in
  let inside x := if incl then Qle_bool lo x && Qle_bool x hi
                  else qlt lo x && qlt x hi in
  let sd := qfloor (v / scale)%Q in
  let su := sd + 1 in
  let xd := (inject_Z sd * scale)%Q in
  let xu := (inject_Z su * scale)%Q in
  let okd := inside xd && (10 ^ (k - 1) <=? sd) in
  let oku := inside xu in
  let up := if su =? 10 ^ k then (1, 1, n + 1) else (su, k, n) in
  let dn := (sd, k, n) in
  match fuel with
  | O => dn
  | S f =>
      if okd && oku then
        match Qcompare (v - xd) (xu - v) with
        | Lt => dn
        | Gt => up
        | Eq => if Z.even sd then dn else up
        end
      else if okd then dn
      else if oku then up
      else shortest_from f (k + 1) v lo hi incl n
  end.

(** [(s, k, n)]: [k] digits [s], decimal point after the [n]-th digit. *)
Definition shortest (m : positive) (e : Z) : Z * Z * Z :=
  let v := (inject_Z (Zpos m) * q2 e)%Q in
  let narrow := (Zpos m =? 2 ^ (prec - 1)) && (3 - emax - prec <? e) in
  let lo := if narrow then (inject_Z (4 * Zpos m - 1) * q2 (e - 2))%Q
            else (inject_Z (2 * Zpos m - 1) * q2 (e - 1))%Q in
  let hi := (inject_Z (2 * Zpos m + 1) * q2 (e - 1))%Q in
  shortest_from 17 1 v lo hi (Z.even (Zpos m)) (magnitude m e).

Definition zeros (n : Z) : string :=
  Str.of_list (List.repeat "0"%char (Z.to_nat n)).

Definition format_digits (s k n : Z) : string :=
  let ds := Str.of_Z s in
  if (k <=? n) && (n <=? 21) then ds ++ zeros (n - k)
  else if (0 <? n) && (n <=? 21) then
    Str.upto (Z.to_nat n) ds ++ "." ++ Str.from (Z.to_nat n) ds
  else if (-6 <? n) && (n <=? 0) then "0." ++ zeros (- n) ++ ds
  else
    let ex := (if 0 <=? n - 1 then "+" else "-") ++ Str.of_Z (Z.abs (n - 1)) in
    if k =? 1 then ds ++ "e" ++ ex
    else Str.upto 1 ds ++ "." ++ Str.from 1 ds ++ "e" ++ ex.

Definition to_string (x : num) : string :=
  match x with
  | S754_nan => "NaN"
  | S754_zero _ => "0"
  | S754_infinity neg => if neg then "-Infinity" else "Infinity"
  | S754_finite neg m e =>
      let '(s, k, n) := shortest m e in
      (if neg then "-" else "") ++ format_digits s k n
  end.

End Num.


(** ** JavaScript values *)

#[warnings="-register-all"]
Inductive value : Type :=
| VUndef
| VNull
| VBool (b : bool)
| VNum (n : Num.num)
| VStr (s : string)
| VArr (l : list value)
| VObj (o : gmap string value).

(** Exceptions, and the result of code that can throw. *)
Inductive exn : Type :=
| TypeError
| ListenerError.   (* whatever a listener supplied from outside throws *)

Inductive outcome (A : Type) : Type :=
| Ok (a : A)
| Throw (e : exn).
Arguments Ok {A} a.
Arguments Throw {A} e.

Definition obind {A B} (x : outcome A) (f : A -> outcome B) : outcome B :=
  match x with
  | Ok a => f a
  | Throw e => Throw e
  end.

Notation "'let!' x := c 'in' k" := (obind c (fun x => k))
  (at level 10, x pattern, c at level 100, k at level 200).

Module JS.

Definition num_lit (s : string) : value := VNum (Num.parseFloat s).

(** [!!v] *)
Definition truthy (v : value) : bool :=
  match v with
  | VUndef | VNull => false
  | VBool b => b
  | VNum n => negb (Num.is_zero n || Num.is_nan n)
  | VStr s => negb (String.eqb s "")
  | VArr _ | VObj _ => true
  end.

(** [a || b] *)
Definition or_else (a b : value) : value := if truthy a then a else b.

Definition isString (v : value) : bool :=
  match v with VStr _ => true | _ => false end.
Definition isBoolean (v : value) : bool :=
  match v with VBool _ => true | _ => false end.
Definition isNumber (v : value) : bool :=
  match v with VNum _ => true | _ => false end.
Definition isArray (v : value) : bool :=
  match v with VArr _ => true | _ => false end.
(** [_.isObject]: arrays are objects too. *)
Definition isObject (v : value) : bool :=
  match v with VArr _ | VObj _ => true | _ => false end.

(** [o[k]] on an object: [undefined] when the key is absent. *)
Definition get (o : gmap string value) (k : string) : value :=
  default VUndef (o !! k).

(** The array index a property name denotes, if it is one. *)
Definition index_of_key (k : string) : option nat :=
  let l := Str.to_list k in
  if forallb Str.is_digit l && negb (String.eqb k "")
     && String.eqb (Str.of_Z (Str.digits_to_Z l)) k
  then Some (Z.to_nat (Str.digits_to_Z l)) else None.

(** [v.k] for a [v] that is neither [undefined] nor [null]. *)
Definition get_prop (v : value) (k : string) : value :=
  match v with
  | VObj o => get o k
  | VArr l =>
      if String.eqb k "length" then VNum (Num.of_Z (Z.of_nat (List.length l)))
      else match index_of_key k with
           | Some i => nth i l VUndef
           | None => VUndef
           end
  | VStr s =>
      if String.eqb k "length" then VNum (Num.of_Z (Z.of_nat (String.length s)))
      else match index_of_key k with
           | Some i => match String.get i s with
                       | Some c => VStr (String c EmptyString)
                       | None => VUndef
                       end
           | None => VUndef
           end
  | _ => VUndef
  end.

(** [v.k] in general: reading a property of [undefined] or [null] throws. *)
Definition member (v : value) (k : string) : outcome value :=
  match v with
  | VUndef | VNull => Throw TypeError
  | _ => Ok (get_prop v k)
  end.

(** [a === b] for primitives.  Two objects are identical only when they are
    the same reference, which the places that compare never have. *)
Definition strict_eq (a b : value) : bool :=
  match a, b with
  | VUndef, VUndef | VNull, VNull => true
  | VBool x, VBool y => Bool.eqb x y
  | VNum x, VNum y => Num.eqb x y
  | VStr x, VStr y => String.eqb x y
  | _, _ => false
  end.

(** [l.indexOf(x) < 0] *)
Definition not_in_array (l : list value) (x : value) : bool :=
  negb (existsb (fun y => strict_eq y x) l).

Definition join (l : list string) : string :=
  match l with
  | [] => ""
  | s :: r => fold_left (fun acc t => acc ++ "," ++ t) r s
  end.

(** The string a value converts to, as in [v + 'px'].  An object carrying
    its own (non-callable) [toString] property cannot be converted. *)
Fixpoint toString (v : value) : outcome string :=
  match v with
  | VUndef => Ok "undefined"
  | VNull => Ok "null"
  | VBool b => Ok (if b then "true" else "false")
  | VNum n => Ok (Num.to_string n)
  | VStr s => Ok s
  | VArr l =>
      let! parts :=
        (fix each (l : list value) : outcome (list string) :=
           match l with
           | [] => Ok []
           | x :: r =>
               let! s := match x with
                         | VUndef | VNull => Ok ""
                         | _ => toString x
                         end in
               let! t := each r in
               Ok (s :: t)
           end) l in
      Ok (join parts)
  | VObj o =>
      match o !! "toString" with
      | None => Ok "[object Object]"
      | Some _ => Throw TypeError
      end
  end.

(** [v.toString()]: reading the method of [undefined] or [null] throws. *)
Definition toString_method (v : value) : outcome string :=
  match v with
  | VUndef | VNull => Throw TypeError
  | _ => toString v
  end.

(** [a + b] where [b] is a string: [a] is converted and the two are joined. *)
Definition str_plus (a : value) (b : string) : outcome value :=
  let! s := toString a in
  Ok (VStr (s ++ b)).

(** [a || e], where [e] is evaluated only when [a] is falsy. *)
Definition or_else_lazy (a : value) (e : outcome value) : outcome value :=
  if truthy a then Ok a else e.

Definition indexed (l : list value) : gmap string value :=
  list_to_map (imap (fun i x => (Str.of_Z (Z.of_nat i), x)) l).

(** The own enumerable properties a [for (prop in v)] loop visits. *)
Definition props_of (v : value) : gmap string value :=
  match v with
  | VObj o => o
  | VArr l => indexed l
  | VStr s => indexed (map (fun c => VStr (String c EmptyString)) (Str.to_list s))
  | _ => ∅
  end.

End JS.

(** ** The vendored underscore helpers *)

Module Underscore.

(** Modelled from the spec: [_.extend] of [utils/underscore], which is not
    among the sources.  A shallow merge into [target]: each source in turn
    overwrites same-named keys; a missing (falsy) source is skipped. *)
Definition extend (target : gmap string value) (sources : list value)
  : gmap string value :=
  fold_left (fun acc src => if JS.truthy src then JS.props_of src ∪ acc else acc)
            sources target.

(** Modelled from the spec: [_.pick] of [utils/underscore]: the object made of
    those allow-listed keys that the object has. *)
Definition pick (o : gmap string value) (keys : list string) : gmap string value :=
  filter (fun kv => kv.1 ∈ keys) o.

End Underscore.

(** ** The configuration module (second part of [src/js/api/api.js]) *)

Module Config.

Definition str_entries (l : list (string * string)) : gmap string value :=
  list_to_map (map (fun kv => (kv.1, VStr kv.2)) l).

Definition Defaults_localization : gmap string value :=
  str_entries
    [ ("player", "Video Player"); ("play", "Play");
      ("playback", "Start playback"); ("pause", "Pause");
      ("volume", "Volume"); ("prev", "Previous"); ("next", "Next");
      ("cast", "Chromecast"); ("airplay", "Airplay");
      ("fullscreen", "Fullscreen"); ("playlist", "Playlist");
      ("hd", "Quality"); ("cc", "Closed captions");
      ("audioTracks", "Audio tracks"); ("playbackRates", "Playback rates");
      ("normal", "Normal"); ("replay", "Replay"); ("buffer", "Loading");
      ("more", "More"); ("liveBroadcast", "Live broadcast");
      ("loadingAd", "Loading ad"); ("rewind", "Rewind 10s");
      ("nextUp", "Next Up"); ("nextUpClose", "Next Up Close");
      ("related", "Discover"); ("close", "Close") ].

Definition Defaults : gmap string value :=
  list_to_map
    [ ("autostart", VBool false);
      ("controls", VBool true);
      ("displaytitle", VBool true);
      ("displaydescription", VBool true);
      ("mobilecontrols", VBool false);
      ("defaultPlaybackRate", JS.num_lit "1");
      ("playbackRateControls", VBool false);
      ("repeat", VBool false);
      ("castAvailable", VBool false);
      ("skin", VStr "seven");
      ("stretching", VStr "uniform");
      ("mute", VBool false);
      ("volume", JS.num_lit "90");
      ("width", JS.num_lit "480");
      ("height", JS.num_lit "270");
      ("audioMode", VBool false);
      ("localization", VObj Defaults_localization);
      ("renderCaptionsNatively", VBool true);
      ("nextUpDisplay", VBool true) ].

(** [/^\d*\.?\d+%$/.test(s)]: digits, an optional dot, at least one digit and
    a final percent sign, and nothing else. *)
Definition is_percentage (s : string) : bool :=
  match rev (Str.to_list s) with
  | "%"%char :: body_rev =>
      let (d1, r) := Str.span_digits (rev body_rev) in
      match r with
      | [] => negb (Nat.eqb (List.length d1) 0)
      | "."%char :: d2 =>
          forallb Str.is_digit d2 && negb (Nat.eqb (List.length d2) 0)
      | _ => false
      end
  | _ => false
  end.

(** [val.slice(-2)] and [val.slice(0, -2)] on a string. *)
Definition last2 (s : string) : string :=
  Str.from (String.length s - 2) s.
Definition drop_last2 (s : string) : string :=
  Str.upto (String.length s - 2) s.

Definition _normalizeSize (val : value) : outcome value :=
  match val with
  | VUndef | VNull => Throw TypeError
  | VStr s => Ok (if String.eqb (last2 s) "px" then VStr (drop_last2 s) else val)
  | VObj o => if JS.truthy (JS.get o "slice") then Throw TypeError else Ok val
  | _ => Ok val
  end.

(** [s.replace(pat, by)] called on a value: only strings have the method. *)
Definition replace_method (v : value) (f : string -> string) : outcome value :=
  match v with
  | VStr s => Ok (VStr (f s))
  | _ => Throw TypeError
  end.

Section WithEnvironment.

(** What the module takes from its surroundings:
    [utils.serialize], [utils.exists], the results of
    [utils.getScriptPath('jwplayer.js')] and [utils.loadFrom()],
    [window.location.protocol] and [window.jwplayer]. *)
Variable serialize : value -> value.
Variable exists_ : value -> bool.
Variable scriptPath : string.
Variable loadFrom : string.
Variable protocol : string.
Variable window_jwplayer : value.

Definition _deserialize (options : gmap string value) : gmap string value :=
  serialize <$> options.

Definition _evaluateAspectRatio (ar width : value) : outcome value :=
  let! ws := JS.toString_method width in
  if Str.indexOf ws "%" =? -1 then Ok (JS.num_lit "0") else
  match ar with
  | VStr a =>
      if negb (exists_ ar) then Ok (JS.num_lit "0") else
      if is_percentage a then Ok ar else
      let index := Str.indexOf a ":" in
      if index =? -1 then Ok (JS.num_lit "0") else
      let w := Num.parseFloat (Str.upto (Z.to_nat index) a) in
      let h := Num.parseFloat (Str.from (Z.to_nat index + 1) a) in
      if Num.leb w (Num.of_Z 0) || Num.leb h (Num.of_Z 0)
      then Ok (JS.num_lit "0")
      else JS.str_plus (VNum (Num.mul (Num.div h w) (Num.of_Z 100))) "%"
  | _ => Ok (JS.num_lit "0")
  end.

(** Lines 942-949: the layers merged, lowest first. *)
Definition allOptions (options : value) (persisted : value) : gmap string value :=
  _deserialize
    (Underscore.extend ∅
       [JS.get_prop (JS.or_else window_jwplayer (VObj ∅)) "defaults";
        persisted; options]).

Definition mergeConfig (options persisted : value) : gmap string value :=
  let all := allOptions options persisted in
  let all :=
    <["localization" :=
        VObj (Underscore.extend ∅
                [VObj Defaults_localization; JS.get all "localization"])]> all in
  Underscore.extend ∅ [VObj Defaults; VObj all].

Definition validRatesFilter (v : value) : bool :=
  match v with
  | VNum n => Num.leb (Num.parseFloat "0.25") n && Num.leb n (Num.parseFloat "4")
  | _ => false
  end.

Definition defaultRates : list value :=
  [JS.num_lit "0.5"; JS.num_lit "1"; JS.num_lit "1.25"; JS.num_lit "1.5";
   JS.num_lit "2"].

Definition legacyItemFields : list string :=
  ["title"; "description"; "type"; "mediaid"; "image"; "file"; "sources";
   "tracks"; "preload"].

(** Lines 950-953. *)
Definition resolveBase (config : gmap string value) : outcome (gmap string value) :=
  let config :=
    if JS.strict_eq (JS.get config "base") (VStr ".")
    then <["base" := VStr scriptPath]> config else config in
  let! base := replace_method (JS.or_else (JS.get config "base") (VStr loadFrom))
                 Str.forceTrailingSlash in
  Ok (<["base" := base]> config).

(** Lines 955-956. *)
Definition resolveSize (config : gmap string value) : outcome (gmap string value) :=
  let! w := _normalizeSize (JS.get config "width") in
  let config := <["width" := w]> config in
  let! h := _normalizeSize (JS.get config "height") in
  Ok (<["height" := h]> config).

(** Lines 957-966. *)
Definition resolveFlash (config : gmap string value) : outcome (gmap string value) :=
  let pathToFlash := JS.or_else (VStr scriptPath) (JS.get config "base") in
  let! player := JS.or_else_lazy (JS.get config "flashplayer")
                   (JS.str_plus pathToFlash "jwplayer.flash.swf") in
  let config := <["flashplayer" := player]> config in
  let! loader := JS.or_else_lazy (JS.get config "flashloader")
                   (JS.str_plus pathToFlash "jwplayer.loader.swf") in
  let config := <["flashloader" := loader]> config in
  if String.eqb protocol "http:" then
    let! p := replace_method (JS.get config "flashplayer")
                (fun s => Str.replaceFirst s "https" "http") in
    let config := <["flashplayer" := p]> config in
    let! l := replace_method (JS.get config "flashloader")
                (fun s => Str.replaceFirst s "https" "http") in
    Ok (<["flashloader" := l]> config)
  else Ok config.

(** Line 968. *)
Definition resolveAspect (config : gmap string value) : outcome (gmap string value) :=
  let! ar := _evaluateAspectRatio (JS.get config "aspectratio") (JS.get config "width") in
  Ok (<["aspectratio" := ar]> config).

(** Lines 970-981.  The console warning is not part of the result. *)
Definition resolveSkin (config : gmap string value) : gmap string value :=
  let config :=
    let skin := JS.get config "skin" in
    if JS.isObject skin then
      let config := <["skinUrl" := JS.get_prop skin "url"]> config in
      let config := <["skinColorInactive" := JS.get_prop skin "inactive"]> config in
      let config := <["skinColorActive" := JS.get_prop skin "active"]> config in
      let config := <["skinColorBackground" := JS.get_prop skin "background"]> config in
      <["skin" := if JS.isString (JS.get_prop skin "name")
                  then JS.get_prop skin "name"
                  else JS.get Defaults "skin"]> config
    else config in
  match JS.get config "skin" with
  | VStr s =>
      if 0 <? Str.indexOf s ".xml"
      then <["skin" := VStr (Str.replaceFirst s ".xml" "")]> config
      else config
  | _ => config
  end.

(** Lines 983-1001. *)
Definition resolveRates (config : gmap string value) : gmap string value :=
  let controls := JS.get config "playbackRateControls" in
  if JS.truthy controls then
    let playbackRates :=
      match controls with
      | VBool _ => VArr defaultRates
      | VArr l =>
          let filteredResults := List.filter validRatesFilter l in
          if negb (Nat.eqb (List.length filteredResults) 0)
          then VArr filteredResults else VBool false
      | _ => VUndef
      end in
    if JS.truthy playbackRates then
      <["playbackRates" := playbackRates]>
        (<["playbackRateControls" := playbackRates]> config)
    else <["playbackRateControls" := VBool false]> config
  else config.

(** Lines 1003-1008.  At this point [playbackRateControls] is falsy or a list. *)
Definition resolveDefaultRate (config : gmap string value)
  : outcome (gmap string value) :=
  let controls := JS.get config "playbackRateControls" in
  let! reset :=
    if negb (JS.truthy controls) then Ok true else
    match controls with
    | VArr l => Ok (JS.not_in_array l (JS.get config "defaultPlaybackRate"))
    | _ => Throw TypeError
    end in
  let config :=
    if reset : bool then <["defaultPlaybackRate" := JS.num_lit "1"]> config
    else config in
  let config := <["playbackRate" := JS.get config "defaultPlaybackRate"]> config in
  Ok (<["playbackRates" := if JS.truthy (JS.get config "playbackRates")
                           then JS.get config "playbackRates"
                           else VBool false]> config).

(** Lines 1010-1012. *)
Definition dropUnsetAspect (config : gmap string value) : gmap string value :=
  if negb (JS.truthy (JS.get config "aspectratio"))
  then delete "aspectratio" config else config.

(** Lines 1014-1034. *)
Definition resolvePlaylist (config : gmap string value) : gmap string value :=
  let configPlaylist := JS.get config "playlist" in
  if negb (JS.truthy configPlaylist) then
    let obj := Underscore.pick config legacyItemFields in
    <["playlist" := VArr [VObj obj]]> config
  else if JS.isArray (JS.get_prop configPlaylist "playlist") then
    <["playlist" := JS.get_prop configPlaylist "playlist"]>
      (<["feedData" := configPlaylist]> config)
  else config.

(** Line 1036. *)
Definition resolveQualityLabels (config : gmap string value) : gmap string value :=
  <["qualityLabels" := JS.or_else (JS.get config "qualityLabels")
                         (JS.get config "hlslabels")]> config.

(** [storage && storage.getAllItems()] *)
Definition persisted_of (storage : option value) : value :=
  match storage with
  | Some items => items
  | None => VUndef
  end.

Definition createConfig (options : value) (storage : option value)
  : outcome (gmap string value) :=
  let persisted := persisted_of storage in
  let config := mergeConfig options persisted in
  let! config := resolveBase config in
  let! config := resolveSize config in
  let! config := resolveFlash config in
  let! config := resolveAspect config in
  let config := resolveSkin config in
  let config := resolveRates config in
  let! config := resolveDefaultRate config in
  let config := dropUnsetAspect config in
  let config := resolvePlaylist config in
  let config := resolveQualityLabels config in
  Ok config.

End WithEnvironment.

End Config.


(** ** A concrete environment for the worked examples *)

Module Example.

Definition is_numeral (s : string) : bool :=
  let (_, l) := Num.split_sign (Str.to_list s) in
  let (ip, r1) := Str.span_digits l in
  match r1 with
  | [] => negb (Nat.eqb (List.length ip) 0)
  | "."%char :: r =>
      forallb Str.is_digit r && negb (Nat.eqb (List.length (ip ++ r)) 0)
  | _ => false
  end.

(** Modelled from the spec: [utils.serialize], which is not among the
    sources.  A string-encoded value is turned into its natural type, a
    boolean or a number; every other value is left as it is. *)
Definition serialize (v : value) : value :=
  match v with
  | VStr s =>
      if String.eqb s "true" then VBool true
      else if String.eqb s "false" then VBool false
      else if is_numeral s then VNum (Num.parseFloat s)
      else v
  | _ => v
  end.

(** Modelled from the spec: [utils.exists], which is not among the sources:
    whether a value is present, which [undefined], [null] and the empty
    string are not. *)
Definition exists_ (v : value) : bool :=
  match v with
  | VUndef | VNull => false
  | VStr s => negb (String.eqb s "")
  | _ => true
  end.

Definition scriptPath : string := "".
Definition loadFrom : string := "https://ssl.p.jwpcdn.com/player/v/7.10.0".
Definition protocol : string := "https:".

Definition createConfig (window_jwplayer options : value) (storage : option value)
  : outcome (gmap string value) :=
  Config.createConfig serialize exists_ scriptPath loadFrom protocol
    window_jwplayer options storage.

Definition obj (l : list (string * value)) : value := VObj (list_to_map l).

End Example.

(** ** The event bus mixed into facades and controllers *)

Module Events.

Record listener (C : Type) : Type := Listener {
  l_name : string;
  l_callback : C;
  l_once : bool
}.
Arguments Listener {C} _ _ _.
Arguments l_name {C} _.
Arguments l_callback {C} _.
Arguments l_once {C} _.

Section Bus.
Context {C : Type} (eqb : C -> C -> bool).

(** Modelled from the spec: [Events.on] and [Events.once] of
    [utils/backbone.events], which is not among the sources: a subscription
    per event type is added after those already there; the name ["all"]
    subscribes to every event. *)
Definition on (n : string) (cb : C) (ls : list (listener C)) : list (listener C) :=
  ls ++ [Listener n cb false].

Definition once (n : string) (cb : C) (ls : list (listener C)) : list (listener C) :=
  ls ++ [Listener n cb true].

(** Modelled from the spec: [Events.off]; as the facade documents it, an
    absent name removes the callbacks of all events and an absent callback
    removes all callbacks of the event, so [off()] removes everything. *)
Definition off (n : option string) (cb : option C) (ls : list (listener C))
  : list (listener C) :=
  List.filter
    (fun l => negb ((match n with Some s => String.eqb (l_name l) s | None => true end)
                    && (match cb with Some c => eqb (l_callback l) c
                        | None => true end)))
    ls.

(** Modelled from the spec: the listeners an emission of [n] reaches, in call
    order: the subscriptions to [n], then the wildcard subscriptions. *)
Definition reached (n : string) (ls : list (listener C)) : list (listener C) :=
  List.filter (fun l => String.eqb (l_name l) n) ls
  ++ List.filter (fun l => String.eqb (l_name l) "all") ls.

Definition same (a b : listener C) : bool :=
  String.eqb (l_name a) (l_name b) && eqb (l_callback a) (l_callback b)
  && Bool.eqb (l_once a) (l_once b).

(** Modelled from the spec: a [once] subscription unbinds itself when it is
    called. *)
Fixpoint unbind (l : listener C) (ls : list (listener C)) : list (listener C) :=
  match ls with
  | [] => []
  | x :: r => if same x l then r else x :: unbind l r
  end.

End Bus.

End Events.

(** ** The facade and the registry: the shared state *)

Record element : Type := Element {
  el_id : string;      (* [element.id], empty when the element has none *)
  el_node : nat        (* which node of the page it is *)
}.

(** A function supplied by the page or by a plugin, opaque but for its
    identity and for whether calling it throws. *)
Record callback : Type := Callback {
  fn : nat;
  throws : bool
}.

Definition callback_eqb (a b : callback) : bool :=
  Nat.eqb (fn a) (fn b) && Bool.eqb (throws a) (throws b).

(** The two closures [setupController] binds on a controller for the facade
    [api]: the one on the ready event and the one on every event. *)
Inductive bridge : Type :=
| ReadyTick (api : nat)
| Forward (api : nat).

Definition bridge_eqb (a b : bridge) : bool :=
  match a, b with
  | ReadyTick x, ReadyTick y | Forward x, Forward y => Nat.eqb x y
  | _, _ => false
  end.

Record pluginInstance : Type := PluginInstance {
  addToPlayer : callback;
  resize : option callback;
  resizeHandler : option callback
}.

(** The event-handler methods of the facade that [options.events] may name. *)
Inductive handler : Type :=
| onBuffer | onPause | onPlay | onIdle | onBufferChange | onBufferFull
| onError | onSetupError | onFullscreen | onMeta | onMute | onPlaylist
| onPlaylistItem | onPlaylistComplete | onReady | onResize | onComplete
| onSeek | onTime | onVolume | onBeforePlay | onBeforeComplete
| onDisplayClick | onControls | onQualityLevels | onQualityChange
| onCaptionsList | onCaptionsChange | onAdError | onAdClick | onAdImpression
| onAdTime | onAdComplete | onAdCompanions | onAdSkipped | onAdPlay
| onAdPause | onAdMeta | onCast | onAudioTrackChange | onAudioTracks.

(** The argument of [setup]: the option mapping, and its [events] member as
    the handler methods it names with the functions to bind.  Keys of
    [events] that name no method of the facade bind nothing; keys that name
    a method other than the handlers are not considered here. *)
Record options : Type := Options {
  opt_config : gmap string value;
  opt_events : list (handler * callback)
}.

(** The engine behind a facade, as far as the facade can tell. *)
Record Controller : Type := MkController {
  c_element : element;
  c_events : list (Events.listener bridge);
  c_destroyed : bool;                   (* [playerDestroy()] was called *)
  c_setup : option (gmap string value)  (* what [setup(options, api)] received *)
}.

Record Api : Type := MkApi {
  uniqueId : nat;
  id : string;
  api_element : element;
  _qoe : gmap string Z;
  _events : list (Events.listener callback);
  _controller : nat;
  plugins : option (gmap string pluginInstance)
}.

(** What happens, in order. *)
Inductive target : Type := OnApi (a : nat) | OnController (c : nat).

Inductive action : Type :=
| Attached (t : target) (n : string)
| DetachedAll (t : target)
| Constructed (c : nat)
| Destroyed (c : nat)
| EngineSetup (c : nat)
| Registered (a : nat)
| Unregistered (a : nat)
| Delivered (a : nat) (f : nat) (n : string) (args : gmap string value).

Record world : Type := World {
  instances : list nat;            (* [api/players] *)
  instancesCreated : nat;          (* of [api/api] *)
  _uniqueIndex : nat;              (* of [api/global-api] *)
  apis : gmap nat Api;
  controllers : gmap nat Controller;
  document : list element;
  debug : bool;                    (* [window.jwplayer.debug] *)
  clock : Z;
  trace : list action
}.

Definition initial (doc : list element) (dbg : bool) : world :=
  World [] 0 0 ∅ ∅ doc dbg 0 [].

(** Code that changes the shared state and may throw; what was done before
    the throw stays done. *)
Inductive result (A : Type) : Type :=
| Done (a : A) (w : world)
| Raised (e : exn) (w : world).
Arguments Done {A} a w.
Arguments Raised {A} e w.

Definition M (A : Type) : Type := world -> result A.

#[global] Instance M_ret : MRet M := fun A a w => Done a w.
#[global] Instance M_bind : MBind M := fun A B f m w =>
  match m w with
  | Done a w' => f a w'
  | Raised e w' => Raised e w'
  end.

Definition state_of {A} (r : result A) : world :=
  match r with Done _ w | Raised _ w => w end.

Definition gets {A} (f : world -> A) : M A := fun w => Done (f w) w.
Definition modify (f : world -> world) : M unit := fun w => Done tt (f w).
Definition throw {A} (e : exn) : M A := fun w => Raised e w.
Definition lift {A} (o : outcome A) : M A :=
  match o with Ok a => mret a | Throw e => throw e end.
(** [try { c } catch (e) {}] *)
Definition swallow (c : M unit) : M unit := fun w =>
  match c w with
  | Done _ w' | Raised _ w' => Done tt w'
  end.

Fixpoint foreach {A} (l : list A) (f : A -> M unit) : M unit :=
  match l with
  | [] => mret tt
  | x :: r => f x ;; foreach r f
  end.

(** The shared state with one component replaced. *)
Definition w_instances (l : list nat) (w : world) : world :=
  World l (instancesCreated w) (_uniqueIndex w) (apis w) (controllers w)
        (document w) (debug w) (clock w) (trace w).
Definition w_instancesCreated (n : nat) (w : world) : world :=
  World (instances w) n (_uniqueIndex w) (apis w) (controllers w)
        (document w) (debug w) (clock w) (trace w).
Definition w_uniqueIndex (n : nat) (w : world) : world :=
  World (instances w) (instancesCreated w) n (apis w) (controllers w)
        (document w) (debug w) (clock w) (trace w).
Definition w_apis (h : gmap nat Api) (w : world) : world :=
  World (instances w) (instancesCreated w) (_uniqueIndex w) h (controllers w)
        (document w) (debug w) (clock w) (trace w).
Definition w_controllers (h : gmap nat Controller) (w : world) : world :=
  World (instances w) (instancesCreated w) (_uniqueIndex w) (apis w) h
        (document w) (debug w) (clock w) (trace w).
Definition w_clock (t : Z) (w : world) : world :=
  World (instances w) (instancesCreated w) (_uniqueIndex w) (apis w)
        (controllers w) (document w) (debug w) t (trace w).
Definition w_trace (t : list action) (w : world) : world :=
  World (instances w) (instancesCreated w) (_uniqueIndex w) (apis w)
        (controllers w) (document w) (debug w) (clock w) t.

Definition record (a : action) : M unit :=
  modify (fun w => w_trace (trace w ++ [a]) w).
Definition set_instances (l : list nat) : M unit := modify (w_instances l).
Definition set_apis (h : gmap nat Api) : M unit := modify (w_apis h).
Definition set_controllers (h : gmap nat Controller) : M unit :=
  modify (w_controllers h).
Definition set_instancesCreated (n : nat) : M unit :=
  modify (w_instancesCreated n).
Definition set_uniqueIndex (n : nat) : M unit := modify (w_uniqueIndex n).

(** A facade or controller is reached through its reference; a reference
    that denotes nothing cannot arise in the program, and using one throws. *)
Definition the_api (a : nat) : M Api := fun w =>
  match apis w !! a with
  | Some x => Done x w
  | None => Raised TypeError w
  end.

Definition the_controller (c : nat) : M Controller := fun w =>
  match controllers w !! c with
  | Some x => Done x w
  | None => Raised TypeError w
  end.

Definition update_api (a : nat) (f : Api -> Api) : M unit :=
  x ← the_api a;
  h ← gets apis;
  set_apis (<[a := f x]> h).

Definition update_controller (c : nat) (f : Controller -> Controller) : M unit :=
  x ← the_controller c;
  h ← gets controllers;
  set_controllers (<[c := f x]> h).

Definition with_events (ls : list (Events.listener callback)) (x : Api) : Api :=
  MkApi (uniqueId x) (id x) (api_element x) (_qoe x) ls (_controller x) (plugins x).
Definition with_qoe (q : gmap string Z) (x : Api) : Api :=
  MkApi (uniqueId x) (id x) (api_element x) q (_events x) (_controller x) (plugins x).
Definition with_controller (c : nat) (x : Api) : Api :=
  MkApi (uniqueId x) (id x) (api_element x) (_qoe x) (_events x) c (plugins x).
Definition with_plugins (p : gmap string pluginInstance) (x : Api) : Api :=
  MkApi (uniqueId x) (id x) (api_element x) (_qoe x) (_events x) (_controller x) (Some p).

Definition with_c_events (ls : list (Events.listener bridge)) (x : Controller) : Controller :=
  MkController (c_element x) ls (c_destroyed x) (c_setup x).
Definition with_c_destroyed (x : Controller) : Controller :=
  MkController (c_element x) (c_events x) true (c_setup x).
Definition with_c_setup (o : gmap string value) (x : Controller) : Controller :=
  MkController (c_element x) (c_events x) (c_destroyed x) (Some o).

(** ** The facade (first part of [src/js/api/api.js]) *)

Module Facade.

(** Modelled from the spec: the [Timer] of [utils/timer], which is not among
    the sources: it records named timestamp ticks and computes the interval
    between two of them. *)
Definition tick (self : nat) (n : string) : M unit :=
  now ← gets clock;
  update_api self (fun x => with_qoe (<[n := now]> (_qoe x)) x).

Definition between (self : nat) (a b : string) : M value :=
  x ← the_api self;
  mret (match _qoe x !! a, _qoe x !! b with
        | Some ta, Some tb => VNum (Num.of_Z (tb - ta))
        | _, _ => VNull
        end).

Section WithEngine.

(** The table of event names of [events/events], and whether the controller
    class exposes [playerDestroy]. *)
Variable events : string -> string.
Variable playerDestroy : bool.

Definition handler_event (h : handler) : string :=
  match h with
  | onBuffer => "buffer"
  | onPause => "pause"
  | onPlay => "play"
  | onIdle => "idle"
  | onBufferChange => events "JWPLAYER_MEDIA_BUFFER"
  | onBufferFull => events "JWPLAYER_MEDIA_BUFFER_FULL"
  | onError => events "JWPLAYER_ERROR"
  | onSetupError => events "JWPLAYER_SETUP_ERROR"
  | onFullscreen => events "JWPLAYER_FULLSCREEN"
  | onMeta => events "JWPLAYER_MEDIA_META"
  | onMute => events "JWPLAYER_MEDIA_MUTE"
  | onPlaylist => events "JWPLAYER_PLAYLIST_LOADED"
  | onPlaylistItem => events "JWPLAYER_PLAYLIST_ITEM"
  | onPlaylistComplete => events "JWPLAYER_PLAYLIST_COMPLETE"
  | onReady => events "JWPLAYER_READY"
  | onResize => events "JWPLAYER_RESIZE"
  | onComplete => events "JWPLAYER_MEDIA_COMPLETE"
  | onSeek => events "JWPLAYER_MEDIA_SEEK"
  | onTime => events "JWPLAYER_MEDIA_TIME"
  | onVolume => events "JWPLAYER_MEDIA_VOLUME"
  | onBeforePlay => events "JWPLAYER_MEDIA_BEFOREPLAY"
  | onBeforeComplete => events "JWPLAYER_MEDIA_BEFORECOMPLETE"
  | onDisplayClick => events "JWPLAYER_DISPLAY_CLICK"
  | onControls => events "JWPLAYER_CONTROLS"
  | onQualityLevels => events "JWPLAYER_MEDIA_LEVELS"
  | onQualityChange => events "JWPLAYER_MEDIA_LEVEL_CHANGED"
  | onCaptionsList => events "JWPLAYER_CAPTIONS_LIST"
  | onCaptionsChange => events "JWPLAYER_CAPTIONS_CHANGED"
  | onAdError => events "JWPLAYER_AD_ERROR"
  | onAdClick => events "JWPLAYER_AD_CLICK"
  | onAdImpression => events "JWPLAYER_AD_IMPRESSION"
  | onAdTime => events "JWPLAYER_AD_TIME"
  | onAdComplete => events "JWPLAYER_AD_COMPLETE"
  | onAdCompanions => events "JWPLAYER_AD_COMPANIONS"
  | onAdSkipped => events "JWPLAYER_AD_SKIPPED"
  | onAdPlay => events "JWPLAYER_AD_PLAY"
  | onAdPause => events "JWPLAYER_AD_PAUSE"
  | onAdMeta => events "JWPLAYER_AD_META"
  | onCast => events "JWPLAYER_CAST_SESSION"
  | onAudioTrackChange => events "JWPLAYER_AUDIO_TRACK_CHANGED"
  | onAudioTracks => events "JWPLAYER_AUDIO_TRACKS"
  end.

(** *** Subscriptions on the facade: [on], [once], [off] *)

Definition on (self : nat) (n : string) (cb : callback) : M nat :=
  update_api self (fun x => with_events (Events.on n cb (_events x)) x) ;;
  record (Attached (OnApi self) n) ;;
  mret self.

Definition once (self : nat) (n : string) (cb : callback) : M nat :=
  update_api self (fun x => with_events (Events.once n cb (_events x)) x) ;;
  record (Attached (OnApi self) n) ;;
  mret self.

Definition off (self : nat) (n : option string) (cb : option callback) : M nat :=
  update_api self
    (fun x => with_events (Events.off callback_eqb n cb (_events x)) x) ;;
  match n, cb with
  | None, None => record (DetachedAll (OnApi self))
  | _, _ => mret tt
  end ;;
  mret self.

(** [this.on(name, callback)] with a [name] that is any value and a callback
    that may be missing: without both nothing is bound. *)
Definition on_any (self : nat) (n : value) (cb : option callback) : M nat :=
  match n, cb with
  | VStr s, Some f => on self s f
  | _, _ => mret self
  end.

(** *** Emission on the facade *)

(** Modelled from the spec: one listener is called; a [once] subscription is
    taken off first. *)
Definition call (self : nat) (n : string) (args : gmap string value)
    (l : Events.listener callback) : M unit :=
  (if Events.l_once l
   then update_api self
          (fun x => with_events (Events.unbind callback_eqb l (_events x)) x)
   else mret tt) ;;
  record (Delivered self (fn (Events.l_callback l)) n args) ;;
  if throws (Events.l_callback l) then throw ListenerError else mret tt.

(** Modelled from the spec: [Events.trigger] of [utils/backbone.events]: the
    listeners reached are called in order; a throwing listener ends the
    emission and the exception propagates. *)
Definition Events_trigger (self : nat) (n : string) (args : gmap string value)
  : M unit :=
  x ← the_api self;
  foreach (Events.reached n (_events x)) (call self n args).

(** Modelled from the spec: [Events.triggerSafe]: as [Events.trigger], but a
    listener's exception is swallowed and the next listener is called. *)
Definition Events_triggerSafe (self : nat) (n : string) (args : gmap string value)
  : M unit :=
  x ← the_api self;
  foreach (Events.reached n (_events x)) (fun l => swallow (call self n args l)).

Definition trigger (self : nat) (n : string) (args : value) : M nat :=
  let args := if JS.isObject args then Underscore.extend ∅ [args] else ∅ in
  let args := <["type" := VStr n]> args in
  dbg ← gets debug;
  (if dbg : bool then Events_trigger self n args
   else Events_triggerSafe self n args) ;;
  mret self.

(** *** The engine side *)

(** Modelled from the spec: [new Controller(element)] of
    [controller/controller], which is not among the sources: a fresh engine,
    nothing bound on it yet. *)
Definition newController (element : element) : M nat :=
  h ← gets controllers;
  let c := fresh (dom h) in
  set_controllers (<[c := MkController element [] false None]> h) ;;
  record (Constructed c) ;;
  mret c.

(** Modelled from the spec: the methods of the controller the facade calls:
    [on] and [off] of the event bus, [playerDestroy] and [setup]. *)
Definition controller_on (c : nat) (n : string) (b : bridge) : M unit :=
  update_controller c (fun x => with_c_events (Events.on n b (c_events x)) x) ;;
  record (Attached (OnController c) n).

Definition controller_off (c : nat) : M unit :=
  update_controller c
    (fun x => with_c_events (Events.off bridge_eqb None None (c_events x)) x) ;;
  record (DetachedAll (OnController c)).

Definition controller_playerDestroy (c : nat) : M unit :=
  update_controller c with_c_destroyed ;;
  record (Destroyed c).

Definition controller_setup (c : nat) (o : gmap string value) : M unit :=
  update_controller c (with_c_setup o) ;;
  record (EngineSetup c).

(** The engine emits the event [n] with the event object [event]: the closures
    bound on the controller run in order, sharing the one event object. *)
Fixpoint run_bridges (ls : list (Events.listener bridge)) (n : string)
    (event : gmap string value) : M unit :=
  match ls with
  | [] => mret tt
  | l :: r =>
      match Events.l_callback l with
      | ReadyTick api =>
          tick api "ready" ;;
          t ← between api "setup" "ready";
          run_bridges r n (<["setupTime" := t]> event)
      | Forward api =>
          trigger api n (VObj event) ;;
          run_bridges r n event
      end
  end.

Definition emit (c : nat) (n : string) (event : gmap string value) : M unit :=
  x ← the_controller c;
  run_bridges (Events.reached n (c_events x)) n event.

(** *** [setupController], [resetPlayer], [removePlayer] *)

Definition setupController (api : nat) (element : element) : M nat :=
  controller ← newController element;
  controller_on controller (events "JWPLAYER_READY") (ReadyTick api) ;;
  controller_on controller "all" (Forward api) ;;
  mret controller.

(** The controller passed is always an object, so [if (controller)] holds. *)
Definition resetPlayer (api : nat) (controller : nat) : M unit :=
  off api None None ;;
  controller_off controller ;;
  if playerDestroy then controller_playerDestroy controller else mret tt.

Definition uniqueId_of (w : world) (a : nat) : option nat :=
  uniqueId <$> (apis w !! a).

(** [for (let i = instances.length; i--;)]: from the last index down, the
    index of the first entry with the [uniqueId] looked for. *)
Fixpoint last_match (w : world) (uid : option nat) (i : nat) (l : list nat)
  : option nat :=
  match i with
  | O => None
  | S j =>
      match l !! j with
      | Some a =>
          if decide (uniqueId_of w a = uid) then Some j
          else last_match w uid j l
      | None => last_match w uid j l
      end
  end.

(** That entry is spliced out and the loop ends. *)
Definition removePlayer (api : nat) : M unit :=
  x ← the_api api;
  w ← gets (fun w => w);
  let l := instances w in
  match last_match w (Some (uniqueId x)) (List.length l) l with
  | Some i =>
      set_instances (delete i l) ;;
      record (Unregistered (default api (l !! i)))
  | None => mret tt
  end.

(** *** The constructor and the methods it defines *)

Definition newApi (element : element) : M nat :=
  uniqueId ← gets instancesCreated;
  set_instancesCreated (S uniqueId) ;;
  let id := el_id element in
  h ← gets apis;
  let self := fresh (dom h) in
  now ← gets clock;
  _controller ← setupController self element;
  h ← gets apis;
  set_apis (<[self := MkApi uniqueId id element {["init" := now]} []
                        _controller None]> h) ;;
  mret self.

Definition setup (self : nat) (options : options) : M nat :=
  tick self "setup" ;;
  x ← the_api self;
  resetPlayer self (_controller x) ;;
  _controller ← setupController self (api_element x);
  update_api self (with_controller _controller) ;;
  foreach (opt_events options)
    (fun '(evt, val) => on self (handler_event evt) val ;; mret tt) ;;
  controller_setup _controller (<["id" := VStr (id x)]> (opt_config options)) ;;
  mret self.

Definition remove (self : nat) : M nat :=
  removePlayer self ;;
  trigger self "remove" VUndef ;;
  x ← the_api self;
  resetPlayer self (_controller x) ;;
  mret self.

Definition getPlugin (self : nat) (n : string) : M (option pluginInstance) :=
  x ← the_api self;
  mret (match plugins x with
        | Some p => p !! n
        | None => None
        end).

Definition addPlugin (self : nat) (n : string) (pluginInstance : pluginInstance)
  : M unit :=
  update_api self
    (fun x => with_plugins (<[n := pluginInstance]> (default ∅ (plugins x))) x) ;;
  on self "ready" (addToPlayer pluginInstance) ;;
  match resize pluginInstance with
  | Some _ =>
      (* this.on('resize'. pluginInstance.resizeHandler) *)
      p ← lift (JS.member (VStr "resize") "pluginInstance");
      h ← lift (JS.member p "resizeHandler");
      on_any self h None ;;
      mret tt
  | None => mret tt
  end.

End WithEngine.

End Facade.

(** ** The registry ([src/js/api/global-api.js]) *)

Module Registry.

(** What [selectPlayer] may be called with. *)
Inductive query : Type :=
| QAbsent                    (* no argument, [undefined] or [null] *)
| QBool (b : bool)
| QNumber (n : Num.num)
| QString (s : string)
| QElement (e : element)     (* an object with a [nodeType] *)
| QObject.                   (* any other object *)

(** [!query] *)
Definition falsy (q : query) : bool :=
  match q with
  | QAbsent => true
  | QBool b => negb b
  | QNumber n => Num.is_zero n || Num.is_nan n
  | QString s => String.eqb s ""
  | QElement _ | QObject => false
  end.

(** What [selectPlayer] returns: a facade, or the object that can only
    register plugins. *)
Inductive selection : Type :=
| Player (api : nat)
| PluginsOnly.

(** [instances[n]] for a number [n]: an element only at a whole index. *)
Definition index_of_num (n : Num.num) : option nat :=
  match n with
  | S754_zero _ => Some 0%nat
  | S754_finite false m e =>
      if 0 <=? e then Some (Z.to_nat (Zpos m * 2 ^ e))
      else if (Zpos m) mod 2 ^ (- e) =? 0
           then Some (Z.to_nat (Zpos m / 2 ^ (- e))) else None
  | _ => None
  end.

Definition getElementById (s : string) : M (option element) :=
  doc ← gets document;
  mret (List.find (fun e => String.eqb (el_id e) s) doc).

Section WithEngine.

Variable events : string -> string.
(** Whether the module runs as strict code, where assigning to a property
    that has only a getter throws instead of doing nothing. *)
Variable strict : bool.

Definition id_of (w : world) (a : nat) : option string :=
  id <$> (apis w !! a).

Definition _playerById (s : string) : M (option nat) :=
  w ← gets (fun w => w);
  mret (List.find (fun a => bool_decide (id_of w a = Some s)) (instances w)).

(** [api.uniqueId = _uniqueIndex] assigns to the accessor the constructor
    defined with a getter only: the facade keeps its [uniqueId]. *)
Definition _addPlayer (api : nat) : M nat :=
  n ← gets _uniqueIndex;
  set_uniqueIndex (S n) ;;
  (if strict then throw TypeError else mret tt) ;;
  l ← gets instances;
  set_instances (l ++ [api]) ;;
  record (Registered api) ;;
  mret api.

Definition _removePlayer (api : nat) : M unit :=
  Facade.removePlayer api.

Definition selectPlayer (q : query) : M selection :=
  '(player, domElement) ←
    (if falsy q then
       l ← gets instances;
       mret (l !! 0%nat, None)
     else match q with
          | QString s =>
              player ← _playerById s;
              match player with
              | Some _ => mret (player, None)
              | None => e ← getElementById s; mret (None, e)
              end
          | QNumber n =>
              l ← gets instances;
              mret (index_of_num n ≫= (fun i => l !! i), None)
          | QElement e =>
              player ← _playerById (el_id e);
              mret (player, Some e)
          | _ => mret (None, None)
          end);
  match player, domElement with
  | Some p, _ => mret (Player p)
  | None, Some e =>
      api ← Facade.newApi events e;
      api ← _addPlayer api;
      mret (Player api)
  | None, None => mret PluginsOnly
  end.

End WithEngine.

End Registry.

(** ** Runs of the whole: what the page may do, one call after the other *)

Module Run.

Inductive op : Type :=
| Select (q : Registry.query)
| Setup (a : nat) (o : options)
| Remove (a : nat)
| On (a : nat) (n : string) (cb : callback)
| Once (a : nat) (n : string) (cb : callback)
| Off (a : nat) (n : option string) (cb : option callback)
| Trigger (a : nat) (n : string) (args : value)
| AddPlugin (a : nat) (n : string) (p : pluginInstance)
| Emit (c : nat) (n : string) (event : gmap string value)
| Wait (dt : Z).

Section WithEngine.

Variable events : string -> string.
Variable playerDestroy : bool.
Variable strict : bool.

Definition wait (dt : Z) : M unit :=
  modify (fun w => w_clock (clock w + Z.max 0 dt) w).

Definition step (o : op) (w : world) : world :=
  match o with
  | Select q => state_of (Registry.selectPlayer events strict q w)
  | Setup a opts => state_of (Facade.setup events playerDestroy a opts w)
  | Remove a => state_of (Facade.remove playerDestroy a w)
  | On a n cb => state_of (Facade.on a n cb w)
  | Once a n cb => state_of (Facade.once a n cb w)
  | Off a n cb => state_of (Facade.off a n cb w)
  | Trigger a n args => state_of (Facade.trigger a n args w)
  | AddPlugin a n p => state_of (Facade.addPlugin a n p w)
  | Emit c n event => state_of (Facade.emit c n event w)
  | Wait dt => state_of (wait dt w)
  end.

Definition run (ops : list op) (w : world) : world :=
  fold_left (fun w o => step o w) ops w.

End WithEngine.

End Run.

(** ** What the theorems speak of *)

Module ConfigSpec.

(** The part a source contributes to a shallow merge. *)
Definition layer (v : value) : gmap string value :=
  if JS.truthy v then JS.props_of v else ∅.

(** The keys the derived-field steps of [createConfig] assign: those up to
    the skin, those of the playback rates, and the last ones. *)
Definition keys_front : list string :=
  ["base"; "width"; "height"; "flashplayer"; "flashloader"; "aspectratio";
   "skin"; "skinUrl"; "skinColorInactive"; "skinColorActive";
   "skinColorBackground"].

Definition keys_rates : list string :=
  ["playbackRates"; "playbackRateControls"; "defaultPlaybackRate"; "playbackRate"].

Definition keys_tail : list string :=
  ["aspectratio"; "playlist"; "feedData"; "qualityLabels"].

Definition derived_keys : list string := keys_front ++ keys_rates ++ keys_tail.

(** [c'] differs from [c] at most at the keys [ks]. *)
Definition touches (ks : list string) (c' c : gmap string value) : Prop :=
  ∀ k, k ∉ ks → c' !! k = c !! k.

Definition string_or_falsy (v : value) : bool :=
  JS.isString v || negb (JS.truthy v).

Definition number_or_string (v : value) : bool :=
  JS.isNumber v || JS.isString v.

Definition falsy_or_array (v : value) : bool :=
  negb (JS.truthy v) || JS.isArray v.

(** The option schema as far as [createConfig] depends on it to return. *)
Definition conforms (m : gmap string value) : bool :=
  string_or_falsy (JS.get m "base")
  && number_or_string (JS.get m "width")
  && number_or_string (JS.get m "height")
  && string_or_falsy (JS.get m "flashplayer")
  && string_or_falsy (JS.get m "flashloader").

Section Steps.
Variable exists_ : value -> bool.
Variable scriptPath loadFrom protocol : string.

(** [createConfig] after the merge, in three parts. *)
Definition front (c : gmap string value) : outcome (gmap string value) :=
  let! c := Config.resolveBase scriptPath loadFrom c in
  let! c := Config.resolveSize c in
  let! c := Config.resolveFlash scriptPath protocol c in
  let! c := Config.resolveAspect exists_ c in
  Ok (Config.resolveSkin c).

Definition rates (c : gmap string value) : outcome (gmap string value) :=
  Config.resolveDefaultRate (Config.resolveRates c).

Definition tail (c : gmap string value) : gmap string value :=
  Config.resolveQualityLabels (Config.resolvePlaylist (Config.dropUnsetAspect c)).

End Steps.

(** What [playbackRateControls] and [playbackRates] become, from the merged
    values [c] and [r] of the two. *)
Definition resolved_controls (c : value) : value :=
  if JS.truthy c then
    match c with
    | VBool _ => VArr Config.defaultRates
    | VArr l =>
        match List.filter Config.validRatesFilter l with
        | [] => VBool false
        | kept => VArr kept
        end
    | _ => VBool false
    end
  else c.

Definition resolved_rates (c r : value) : value :=
  if JS.truthy (resolved_controls c) then resolved_controls c
  else if JS.truthy r then r else VBool false.

(** What [playlist] becomes, from the merged configuration. *)
Definition resolved_playlist (m : gmap string value) : value :=
  let p := JS.get m "playlist" in
  if negb (JS.truthy p)
  then VArr [VObj (Underscore.pick m Config.legacyItemFields)]
  else if JS.isArray (JS.get_prop p "playlist") then JS.get_prop p "playlist"
  else p.

(** The first of two optional values that is there. *)
Definition or_opt (a b : option value) : option value :=
  match a with Some v => Some v | None => b end.

(** A list with at least one item. *)
Definition nonempty_list (v : value) : Prop :=
  match v with VArr (_ :: _) => True | _ => False end.

End ConfigSpec.

Module FacadeSpec.

(** The listeners that [setup] binds from [options.events]. *)
Definition bound (events : string -> string) (o : options)
  : list (Events.listener callback) :=
  map (fun p => Events.Listener (Facade.handler_event events p.1) p.2 false)
      (opt_events o).

Definition bound_actions (events : string -> string) (self : nat) (o : options)
  : list action :=
  map (fun p => Attached (OnApi self) (Facade.handler_event events p.1))
      (opt_events o).

(** The two subscriptions of the event bridge. *)
Definition bridge_listeners (events : string -> string) (api : nat)
  : list (Events.listener bridge) :=
  [Events.Listener (events "JWPLAYER_READY") (ReadyTick api) false;
   Events.Listener "all" (Forward api) false].

Definition bridge_actions (events : string -> string) (c : nat) : list action :=
  [Constructed c; Attached (OnController c) (events "JWPLAYER_READY");
   Attached (OnController c) "all"].

(** What [resetPlayer] does, in order. *)
Definition teardown_actions (playerDestroy : bool) (api c : nat) : list action :=
  [DetachedAll (OnApi api); DetachedAll (OnController c)]
  ++ (if playerDestroy then [Destroyed c] else []).

Definition torn_down (playerDestroy : bool) (x : Controller) : Controller :=
  MkController (c_element x) [] (playerDestroy || c_destroyed x) (c_setup x).

(** A facade whose engine is there. *)
Definition wired (w : world) (self : nat) (x : Api) (oc : Controller) : Prop :=
  apis w !! self = Some x ∧ controllers w !! _controller x = Some oc.

End FacadeSpec.

Module Evolution.

(** How the shared state may change while the program runs: facades keep
    their identity, the counter of created facades only grows, new facades
    take their [uniqueId] from it, and a controller nothing is bound on stays
    so. *)
Definition evolves (w w' : world) : Prop :=
  (∀ a x, apis w !! a = Some x →
     ∃ x', apis w' !! a = Some x' ∧ uniqueId x' = uniqueId x ∧ id x' = id x
           ∧ api_element x' = api_element x)
  ∧ (instancesCreated w ≤ instancesCreated w')%nat
  ∧ (∀ a x', apis w' !! a = Some x' → apis w !! a = None →
       (instancesCreated w ≤ uniqueId x' < instancesCreated w')%nat)
  ∧ (∀ a b x y, apis w' !! a = Some x → apis w' !! b = Some y →
       apis w !! a = None → apis w !! b = None →
       uniqueId x = uniqueId y → a = b)
  ∧ (∀ c k, controllers w !! c = Some k →
       ∃ k', controllers w' !! c = Some k' ∧ (c_events k = [] → c_events k' = [])).

(** A change that touches neither the registry nor the engines, and of the
    facades only what is bound on them, their timers and their plugins. *)
Definition same_identity (x x' : Api) : Prop :=
  uniqueId x' = uniqueId x ∧ id x' = id x ∧ api_element x' = api_element x
  ∧ _controller x' = _controller x.

Definition cosmetic (w w' : world) : Prop :=
  instances w' = instances w
  ∧ instancesCreated w' = instancesCreated w
  ∧ _uniqueIndex w' = _uniqueIndex w
  ∧ controllers w' = controllers w
  ∧ document w' = document w
  ∧ debug w' = debug w
  ∧ (∀ a, match apis w !! a, apis w' !! a with
          | Some x, Some x' => same_identity x x'
          | None, None => True
          | _, _ => False
          end).

Definition respects (R : world → world → Prop) {A} (m : M A) : Prop :=
  ∀ w, R w (state_of (m w)).

Definition keeps (f : Api → Api) : Prop := ∀ x, same_identity x (f x).

Definition calm (f : Controller → Controller) : Prop :=
  ∀ k, c_events k = [] → c_events (f k) = [].

(** The identifiers are in use below the counter, each by one facade. *)
Definition ids_sound (w : world) : Prop :=
  (∀ a x, apis w !! a = Some x → (uniqueId x < instancesCreated w)%nat)
  ∧ (∀ a b x y, apis w !! a = Some x → apis w !! b = Some y →
       uniqueId x = uniqueId y → a = b).

(** The registry lists facades that exist, each once and under its own
    element id; and every facade has its engine. *)
Definition registry_sound (w : world) : Prop :=
  NoDup (instances w)
  ∧ (∀ a, a ∈ instances w → is_Some (apis w !! a))
  ∧ (∀ a b x y, a ∈ instances w → b ∈ instances w →
       apis w !! a = Some x → apis w !! b = Some y → id x = id y → a = b).

Definition wiring (w : world) : Prop :=
  ∀ a x, apis w !! a = Some x → is_Some (controllers w !! _controller x).

Definition sound (w : world) : Prop :=
  ids_sound w ∧ registry_sound w ∧ wiring w.


(** A change that leaves a sound state sound. *)
Definition keeps_sound (w w' : world) : Prop := sound w → sound w'.

End Evolution.

Module RegistrySpec.

(** What the first half of [selectPlayer] finds: a registered facade, or an
    element to create one against. *)
Definition resolve (q : Registry.query) (w : world) : option nat * option element :=
  let byId s := List.find (fun a => bool_decide (Registry.id_of w a = Some s))
                          (instances w) in
  if Registry.falsy q then (instances w !! 0%nat, None)
  else match q with
       | Registry.QString s =>
           match byId s with
           | Some p => (Some p, None)
           | None => (None, List.find (fun e => String.eqb (el_id e) s) (document w))
           end
       | Registry.QNumber n =>
           (Registry.index_of_num n ≫= (fun i => instances w !! i), None)
       | Registry.QElement e => (byId (el_id e), Some e)
       | _ => (None, None)
       end.

End RegistrySpec.

Module RemoveSpec.

(** The calls an emission of [n] on the facade makes, in order. *)
Definition notified (self : nat) (n : string) (x : Api) : list action :=
  map (fun l => Delivered self (fn (Events.l_callback l)) n (<["type" := VStr n]> ∅))
      (Events.reached n (_events x)).

(** No exception leaves the emission of [n]: listener exceptions are swallowed
    (the debug flag is off), or no listener reached throws. *)
Definition quiet (w : world) (n : string) (x : Api) : bool :=
  negb (debug w)
  || forallb (fun l => negb (throws (Events.l_callback l)))
             (Events.reached n (_events x)).

End RemoveSpec.

(** ** A concrete page for the worked examples *)

Module Scenario.

(** Modelled from the spec: the table of event names of [events/events],
    which is not among the sources: the ready and the resize event carry the
    names under which [addPlugin] subscribes to them. *)
Definition events (name : string) : string :=
  if String.eqb name "JWPLAYER_READY" then "ready"
  else if String.eqb name "JWPLAYER_RESIZE" then "resize"
  else name.

(** Two elements, the second without an id. *)
Definition video : element := Element "video" 1.
Definition anonymous : element := Element "" 2.
Definition page : list element := [video; anonymous].

(** The engine exposes [playerDestroy]; the code runs as sloppy code. *)
Definition run (ops : list Run.op) (w : world) : world :=
  Run.run events true false ops w.

(** One player, set up against the first element. *)
Definition live : world :=
  run [Run.Select (Registry.QElement video)] (initial page false).

Definition live_api : Api :=
  MkApi 0 "video" video {["init" := 0%Z]} [] 0 None.

Definition live_controller : Controller :=
  MkController video
    [Events.Listener "ready" (ReadyTick 0) false;
     Events.Listener "all" (Forward 0) false]
    false None.


(** A listener bound by the page. *)
Definition listener_fn : callback := Callback 7 false.
Definition subscribed : world := run [Run.On 0 "play" listener_fn] live.

(** A listener that throws, on a page in debug mode. *)
Definition faulty_fn : callback := Callback 8 true.
Definition debugging : world :=
  Run.run events true false
    [Run.Select (Registry.QElement video); Run.On 0 "remove" faulty_fn]
    (initial page true).

Definition resizing_plugin : pluginInstance :=
  PluginInstance (Callback 1 false) (Some (Callback 2 false)) (Some (Callback 3 false)).

End Scenario.

(** ** What the further results speak of *)

Module ConfigShape.

(** The fields the skin step assigns. *)
Definition skin_keys : list string :=
  ["skin"; "skinUrl"; "skinColorInactive"; "skinColorActive"; "skinColorBackground"].

(** The base chosen: the script path for ["."], the path the player was
    loaded from when there is none. *)
Definition chosen_base (scriptPath loadFrom : string) (m : gmap string value) : value :=
  JS.or_else (if JS.strict_eq (JS.get m "base") (VStr ".")
              then VStr scriptPath else JS.get m "base")
             (VStr loadFrom).

(** A flash URL: the one supplied, or the default under the path, with the
    scheme lowered on a page that is not served over ssl. *)
Definition flash_url (protocol : string) (supplied path : value) (file : string)
  : outcome value :=
  let! u := JS.or_else_lazy supplied (JS.str_plus path file) in
  if String.eqb protocol "http:"
  then Config.replace_method u (fun s => Str.replaceFirst s "https" "http")
  else Ok u.

(** [config.skin] with the first [.xml] taken out, when there is one after
    the first character. *)
Definition strip_xml (v : value) : value :=
  match v with
  | VStr s => if 0 <? Str.indexOf s ".xml"
              then VStr (Str.replaceFirst s ".xml" "") else v
  | _ => v
  end.

(** A size that is [null] or [undefined]: it has no [slice] to look up. *)
Definition no_size (v : value) : bool :=
  match v with VUndef | VNull => true | _ => false end.

(** No key but [aspectratio] is lost from [c] to [c']. *)
Definition grows (c' c : gmap string value) : Prop :=
  ∀ k, k ≠ "aspectratio" → is_Some (c !! k) → is_Some (c' !! k).

End ConfigShape.

Module EmissionSpec.

(** The event object [trigger] hands to the listeners. *)
Definition payload (n : string) (args : value) : gmap string value :=
  <["type" := VStr n]> (if JS.isObject args then Underscore.extend ∅ [args] else ∅).

(** The calls an emission makes to the listeners [ls]. *)
Definition deliveries (self : nat) (n : string) (args : gmap string value)
    (ls : list (Events.listener callback)) : list action :=
  map (fun l => Delivered self (fn (Events.l_callback l)) n args) ls.

(** A listener that does not throw. *)
Definition harmless (l : Events.listener callback) : bool :=
  negb (throws (Events.l_callback l)).

(** The listeners left when those of [ls] have been called in turn: each
    [once] subscription among them has unbound itself. *)
Definition remaining (ls es : list (Events.listener callback))
  : list (Events.listener callback) :=
  fold_left (fun es l => if Events.l_once l then Events.unbind callback_eqb l es else es)
            ls es.

End EmissionSpec.

Module RegistrySteps.

(** A change that leaves the registry as it is. *)
Definition same_registry (w w' : world) : Prop := instances w' = instances w.

(** What one call may do to the registry: nothing, take one entry out, or
    (where registering does not throw) add a facade made by the call at the
    end. *)
Definition registry_step (strict : bool) (w w' : world) : Prop :=
  instances w' = instances w
  ∨ (∃ i, instances w' = delete i (instances w))
  ∨ (strict = false
     ∧ ∃ a, apis w !! a = None ∧ instances w' = (instances w ++ [a])%list).



End RegistrySteps.

(** ** The methods of the facade that call the engine *)

Module Commands.

(** What [_controller[name]] may be. *)
Inductive member : Type :=
| Missing        (* no such property, or a falsy one *)
| NotCallable    (* a truthy property that is no function *)
| Method.

Section WithController.

(** The controller class is not among the sources.  Of the engine behind a
    facade these methods use: its state, which members it has, and what a
    call of one of its methods returns and does; further [utils.exists], the
    table of state names of [events/states], what calling a method of an
    object handed out by the engine returns, and the two readings of the
    timer of the facade that [qoe] takes. *)
Variable E : Type.
Variable member_of : E -> string -> member.
Variable invoke : string -> list value -> E -> outcome value * E.
Variable exists_ : value -> bool.
Variable states : string -> value.
Variable method_result : value -> string -> outcome value.
Variable timer_between : string -> string -> value.
Variable timer_dump : value.

(** Code that calls the engine and may throw. *)
Definition C (A : Type) : Type := E -> outcome A * E.

Definition ret {A} (a : A) : C A := fun e => (Ok a, e).

Definition andThen {A B} (m : C A) (f : A -> C B) : C B := fun e =>
  match m e with
  | (Ok a, e') => f a e'
  | (Throw x, e') => (Throw x, e')
  end.

Definition raise {A} (o : outcome A) : C A := fun e => (o, e).

(** [callInternal(name, ...args)], lines 84-89. *)
Definition callInternal (name : string) (args : list value) : C value := fun e =>
  match member_of e name with
  | Method => invoke name args e
  | NotCallable => (Throw TypeError, e)
  | Missing => (Ok VNull, e)
  end.

Definition getState : C value := callInternal "getState" [].

Definition getPlaylist : C value := callInternal "get" [VStr "playlist"].

Definition getItemMeta : C value :=
  andThen (callInternal "get" [VStr "itemMeta"]) (fun v =>
  ret (JS.or_else v (VObj ∅))).

Definition getPlaylistItem (index : value) : C value :=
  if negb (exists_ index) then callInternal "get" [VStr "playlistItem"]
  else
    andThen getPlaylist (fun playlist =>
    if JS.truthy playlist then
      andThen (raise (JS.toString index)) (fun key =>
      ret (JS.get_prop playlist key))
    else ret VNull).

(** [play(state, meta)]; the facade itself is the result. *)
Definition play (state meta : value) : C unit :=
  let meta := if JS.isObject state && JS.truthy (JS.get_prop state "reason")
              then state else meta in
  let meta := if negb (JS.truthy meta)
              then VObj {["reason" := VStr "external"]} else meta in
  if JS.strict_eq state (VBool true) then
    andThen (callInternal "play" [meta]) (fun _ => ret tt)
  else if JS.strict_eq state (VBool false) then
    andThen (callInternal "pause" [meta]) (fun _ => ret tt)
  else
    andThen getState (fun state =>
    if JS.strict_eq state (states "PLAYING") || JS.strict_eq state (states "BUFFERING")
    then andThen (callInternal "pause" [meta]) (fun _ => ret tt)
    else andThen (callInternal "play" [meta]) (fun _ => ret tt)).

Definition pause (state meta : value) : C unit :=
  match state with
  | VBool b => play (VBool (negb b)) meta
  | _ => play meta VUndef
  end.

(** [v.name()] for a value the engine handed out. *)
Definition call_method (v : value) (name : string) : C value :=
  andThen (raise (JS.member v name)) (fun _ => raise (method_result v name)).

Definition qoe : C value :=
  andThen (callInternal "getItemQoe" []) (fun qoeItem =>
  let setupTime := timer_between "setup" "ready" in
  andThen (call_method qoeItem "getFirstFrame") (fun firstFrame =>
  andThen (call_method qoeItem "dump") (fun item =>
  ret (VObj (<["setupTime" := setupTime]>
             (<["firstFrame" := firstFrame]>
              (<["player" := timer_dump]>
               (<["item" := item]> ∅)))))))).

End WithController.

End Commands.

Import ConfigSpec FacadeSpec Evolution RegistrySpec RemoveSpec.

(** ** Lemmas on the configuration steps *)

Lemma obind_Ok {A B} (x : outcome A) (f : A → outcome B) b :
  obind x f = Ok b → ∃ a, x = Ok a ∧ f a = Ok b.
Proof. destruct x as [a|e]; simpl; [eauto|discriminate]. Qed.

(** A computation that evaluates to a result has that result. *)
Lemma outcome_Ok {A} (c : outcome A) (P : A → Prop) :
  match c with Ok a => P a | Throw _ => False end → ∃ a, c = Ok a ∧ P a.
Proof. destruct c as [a|e]; [eauto | done]. Qed.


Lemma get_insert_eq (c : gmap string value) k v : JS.get (<[k := v]> c) k = v.
Proof. unfold JS.get. by rewrite lookup_insert_eq. Qed.

Lemma get_insert_ne (c : gmap string value) k k' v :
  k ≠ k' → JS.get (<[k := v]> c) k' = JS.get c k'.
Proof. intros. unfold JS.get. by rewrite lookup_insert_ne. Qed.

Lemma touches_refl ks c : touches ks c c.
Proof. by intros k _. Qed.

Lemma touches_trans ks c1 c2 c3 :
  touches ks c1 c2 → touches ks c2 c3 → touches ks c1 c3.
Proof. intros H1 H2 k Hk. by rewrite H1, H2. Qed.

Lemma touches_insert ks k v c' c :
  k ∈ ks → touches ks c' c → touches ks (<[k := v]> c') c.
Proof.
  intros Hin H k' Hk'. rewrite lookup_insert_ne; [by apply H|].
  intros ->. contradiction.
Qed.

Lemma touches_delete ks k c' c :
  k ∈ ks → touches ks c' c → touches ks (delete k c') c.
Proof.
  intros Hin H k' Hk'. rewrite lookup_delete_ne; [by apply H|].
  intros ->. contradiction.
Qed.

Lemma touches_get ks c' c k : touches ks c' c → k ∉ ks → JS.get c' k = JS.get c k.
Proof. intros H Hk. unfold JS.get. by rewrite H. Qed.


Ltac in_list :=
  repeat first [apply list_elem_of_here | apply list_elem_of_further].

Ltac not_in_list :=
  rewrite ?not_elem_of_cons; repeat split; first [done | apply not_elem_of_nil].

Ltac cases_in H :=
  repeat (let E := fresh "E" in
          apply elem_of_cons in H as [E|H]; [try discriminate E; try subst|]);
  try (by apply elem_of_nil in H).

Ltac touch :=
  repeat first
    [ apply touches_refl
    | apply touches_insert; [in_list|]
    | apply touches_delete; [in_list|] ].

Section Stages.
Variable serialize : value -> value.
Variable exists_ : value -> bool.
Variable scriptPath loadFrom protocol : string.
Variable window_jwplayer : value.

Lemma extend_layers (t : gmap string value) a b c :
  Underscore.extend t [a; b; c] = layer c ∪ (layer b ∪ (layer a ∪ t)).
Proof.
  unfold Underscore.extend, layer. simpl.
  destruct (JS.truthy a), (JS.truthy b), (JS.truthy c);
    rewrite ?(left_id_L ∅ (∪)); reflexivity.
Qed.

Lemma extend_layers2 (t : gmap string value) a b :
  Underscore.extend t [a; b] = layer b ∪ (layer a ∪ t).
Proof.
  unfold Underscore.extend, layer. simpl.
  destruct (JS.truthy a), (JS.truthy b);
    rewrite ?(left_id_L ∅ (∪)); reflexivity.
Qed.

Lemma resolveBase_total c :
  string_or_falsy (JS.get c "base") = true →
  ∃ b, Config.resolveBase scriptPath loadFrom c = Ok (<["base" := VStr b]> c).
Proof.
  intros Hb. unfold Config.resolveBase.
  destruct (JS.strict_eq (JS.get c "base") (VStr ".")) eqn:E.
  - rewrite get_insert_eq. unfold JS.or_else. simpl.
    destruct (negb (String.eqb scriptPath "")); simpl;
      rewrite insert_insert_eq; eauto.
  - unfold string_or_falsy in Hb. unfold JS.or_else.
    destruct (JS.get c "base") eqn:G; simpl in *; try discriminate; eauto;
    try (destruct b; try discriminate; simpl; eauto).
    + apply negb_true_iff in Hb. rewrite Hb. simpl. eauto.
    + destruct (negb (String.eqb s "")); simpl; eauto.
Qed.

Lemma normalizeSize_total v :
  number_or_string v = true →
  ∃ v', Config._normalizeSize v = Ok v' ∧ number_or_string v' = true.
Proof.
  destruct v; simpl; try discriminate; intros _; eauto.
  destruct (String.eqb (Config.last2 s) "px"); eauto.
Qed.

Lemma resolveSize_total c :
  number_or_string (JS.get c "width") = true →
  number_or_string (JS.get c "height") = true →
  ∃ w h, Config.resolveSize c = Ok (<["height" := h]> (<["width" := w]> c))
         ∧ number_or_string w = true.
Proof.
  intros Hw Hh. unfold Config.resolveSize.
  destruct (normalizeSize_total _ Hw) as (w & -> & Hw'). simpl.
  rewrite get_insert_ne by done.
  destruct (normalizeSize_total _ Hh) as (h & -> & Hh'). simpl. eauto.
Qed.

Lemma replace_method_string_or_falsy v f :
  JS.truthy v = true → string_or_falsy v = true →
  ∃ s, Config.replace_method v f = Ok (VStr s).
Proof.
  unfold string_or_falsy. intros Ht H. rewrite Ht in H.
  destruct v; simpl in *; try discriminate. eauto.
Qed.

Lemma resolveFlash_total c b :
  JS.get c "base" = VStr b →
  string_or_falsy (JS.get c "flashplayer") = true →
  string_or_falsy (JS.get c "flashloader") = true →
  ∃ p l, Config.resolveFlash scriptPath protocol c
         = Ok (<["flashloader" := l]> (<["flashplayer" := p]> c)).
Proof.
  intros Hb Hp Hl. unfold Config.resolveFlash. rewrite Hb.
  set (path := JS.or_else (VStr scriptPath) (VStr b)).
  assert (∃ s, path = VStr s) as [ps Hps].
  { unfold path, JS.or_else. destruct (JS.truthy (VStr scriptPath)); eauto. }
  rewrite Hps.
  assert (∀ v ch sfx, string_or_falsy v = true →
            ∃ r, JS.or_else_lazy v (JS.str_plus (VStr ps) (String ch sfx)) = Ok r
                 ∧ JS.truthy r = true ∧ string_or_falsy r = true) as Hor.
  { intros v ch sfx Hv. unfold JS.or_else_lazy. destruct (JS.truthy v) eqn:T; [eauto|].
    unfold JS.str_plus. simpl. eexists; split; [reflexivity|]. split; [|done].
    simpl. by destruct ps. }
  destruct (Hor _ "j"%char "wplayer.flash.swf" Hp) as (p & -> & Tp & Sp). simpl.
  rewrite get_insert_ne by done.
  destruct (Hor _ "j"%char "wplayer.loader.swf" Hl) as (l & -> & Tl & Sl). simpl.
  destruct (String.eqb protocol "http:"); [|eauto].
  rewrite get_insert_ne by done. rewrite get_insert_eq.
  destruct (replace_method_string_or_falsy p
              (fun s => Str.replaceFirst s "https" "http") Tp Sp) as [p' ->]. simpl.
  rewrite get_insert_ne by done. rewrite get_insert_eq.
  destruct (replace_method_string_or_falsy l
              (fun s => Str.replaceFirst s "https" "http") Tl Sl) as [l' ->]. simpl.
  exists (VStr p'), (VStr l').
  f_equal. apply map_eq. intros k. rewrite !lookup_insert.
  repeat case_decide; done.
Qed.

Lemma toString_number_or_string v :
  number_or_string v = true → ∃ s, JS.toString_method v = Ok s.
Proof. destruct v; simpl; try discriminate; eauto. Qed.

Lemma evaluateAspectRatio_total ar w :
  number_or_string w = true →
  ∃ r, Config._evaluateAspectRatio exists_ ar w = Ok r.
Proof.
  intros Hw. unfold Config._evaluateAspectRatio.
  destruct (toString_number_or_string _ Hw) as [s ->]. simpl.
  destruct (Str.indexOf s "%" =? -1); [eauto|].
  destruct ar; eauto.
  destruct (negb (exists_ (VStr s0))); [eauto|].
  destruct (Config.is_percentage s0); [eauto|].
  destruct (Str.indexOf s0 ":" =? -1); [eauto|].
  destruct (_ || _); eauto.
Qed.

Lemma touches_mono ks ks' c' c : ks ⊆ ks' → touches ks c' c → touches ks' c' c.
Proof. intros Hs H k Hk. apply H. intros Hin. apply Hk, Hs, Hin. Qed.

Lemma resolveSkin_touches c : touches keys_front (Config.resolveSkin c) c.
Proof.
  unfold Config.resolveSkin, keys_front.
  destruct (JS.isObject (JS.get c "skin")).
  - match goal with |- context [match ?x with _ => _ end] => destruct x end; touch.
    destruct (0 <? _); touch.
  - match goal with |- context [match ?x with _ => _ end] => destruct x end; touch.
    destruct (0 <? _); touch.
Qed.

Lemma front_total c :
  conforms c = true →
  ∃ c', front exists_ scriptPath loadFrom protocol c = Ok c'
        ∧ touches keys_front c' c.
Proof.
  unfold conforms. rewrite !andb_true_iff. intros ((((Hb & Hw) & Hh) & Hp) & Hl).
  unfold front.
  destruct (resolveBase_total c Hb) as [b ->]. simpl.
  destruct (resolveSize_total (<["base" := VStr b]> c)) as (w & h & -> & Hw');
    [by rewrite get_insert_ne by done..|]. simpl.
  edestruct (resolveFlash_total (<["height" := h]> (<["width" := w]> (<["base" := VStr b]> c))))
    as (p & l & ->).
  { rewrite !get_insert_ne by done. apply get_insert_eq. }
  { by rewrite !get_insert_ne by done. }
  { by rewrite !get_insert_ne by done. }
  simpl. unfold Config.resolveAspect.
  rewrite !(get_insert_ne _ _ "width") by done. rewrite get_insert_eq.
  destruct (evaluateAspectRatio_total
              (JS.get (<["flashloader":=l]> (<["flashplayer":=p]>
                 (<["height":=h]> (<["width":=w]> (<["base":=VStr b]> c))))) "aspectratio")
              w Hw') as [r ->].
  simpl. eexists; split; [reflexivity|].
  eapply touches_trans; [apply resolveSkin_touches|]. unfold keys_front. touch.
Qed.

Lemma resolveRates_controls c :
  JS.get (Config.resolveRates c) "playbackRateControls"
  = resolved_controls (JS.get c "playbackRateControls").
Proof.
  unfold Config.resolveRates, resolved_controls.
  destruct (JS.truthy (JS.get c "playbackRateControls")) eqn:T; [|done].
  destruct (JS.get c "playbackRateControls"); simpl;
    rewrite ?get_insert_eq; try done.
  - rewrite get_insert_ne by done. by rewrite get_insert_eq.
  - destruct (List.filter Config.validRatesFilter l) eqn:F; simpl.
    + by rewrite get_insert_eq.
    + rewrite get_insert_ne by done. by rewrite get_insert_eq.
Qed.

Lemma resolveRates_rates c :
  JS.get (Config.resolveRates c) "playbackRates"
  = if JS.truthy (resolved_controls (JS.get c "playbackRateControls"))
    then resolved_controls (JS.get c "playbackRateControls")
    else JS.get c "playbackRates".
Proof.
  unfold Config.resolveRates, resolved_controls.
  destruct (JS.truthy (JS.get c "playbackRateControls")) eqn:T; [|by rewrite T].
  destruct (JS.get c "playbackRateControls"); simpl;
    rewrite ?get_insert_eq; rewrite ?get_insert_ne by done; try done.
  destruct (List.filter Config.validRatesFilter l) eqn:F; simpl.
  - by rewrite get_insert_ne by done.
  - by rewrite get_insert_eq.
Qed.

Lemma resolveRates_touches c : touches keys_rates (Config.resolveRates c) c.
Proof.
  unfold Config.resolveRates, keys_rates.
  destruct (JS.truthy (JS.get c "playbackRateControls")); [|touch].
  match goal with |- context [if ?x then _ else _] => destruct x end; touch.
Qed.

Lemma resolved_controls_shape c : falsy_or_array (resolved_controls c) = true.
Proof.
  unfold resolved_controls, falsy_or_array.
  destruct (JS.truthy c) eqn:T; [|by rewrite T].
  destruct c; try done. simpl. by destruct (List.filter _ _).
Qed.

Lemma resolveDefaultRate_total c :
  falsy_or_array (JS.get c "playbackRateControls") = true →
  ∃ c', Config.resolveDefaultRate c = Ok c'
        ∧ touches keys_rates c' c
        ∧ c' !! "playbackRateControls" = c !! "playbackRateControls"
        ∧ c' !! "playbackRates"
          = Some (if JS.truthy (JS.get c "playbackRates")
                  then JS.get c "playbackRates" else VBool false).
Proof.
  intros H. unfold Config.resolveDefaultRate, falsy_or_array in *.
  assert (∃ reset : bool,
    (if negb (JS.truthy (JS.get c "playbackRateControls")) then Ok true
     else match JS.get c "playbackRateControls" with
          | VArr l => Ok (JS.not_in_array l (JS.get c "defaultPlaybackRate"))
          | _ => Throw TypeError
          end) = Ok reset) as [reset ->].
  { destruct (JS.truthy (JS.get c "playbackRateControls")); simpl in *; [|eauto].
    destruct (JS.get c "playbackRateControls"); try discriminate. eauto. }
  simpl. eexists; split; [reflexivity|].
  split; [|split].
  - unfold keys_rates. destruct reset; touch.
  - rewrite !lookup_insert_ne by done. by destruct reset; rewrite ?lookup_insert_ne by done.
  - rewrite lookup_insert_eq. rewrite !get_insert_ne by done.
    by destruct reset; rewrite ?get_insert_ne by done.
Qed.

Lemma rates_total c :
  ∃ c', rates c = Ok c'
        ∧ touches keys_rates c' c
        ∧ JS.get c' "playbackRateControls"
          = resolved_controls (JS.get c "playbackRateControls")
        ∧ c' !! "playbackRates"
          = Some (resolved_rates (JS.get c "playbackRateControls")
                                 (JS.get c "playbackRates")).
Proof.
  unfold rates.
  destruct (resolveDefaultRate_total (Config.resolveRates c)) as (c' & E & T & C & R).
  { rewrite resolveRates_controls. apply resolved_controls_shape. }
  exists c'. split; [done|]. split; [|split].
  - eapply touches_trans; [done|]. apply resolveRates_touches.
  - unfold JS.get at 1. rewrite C. apply resolveRates_controls.
  - rewrite R. rewrite resolveRates_rates. unfold resolved_rates.
    destruct (JS.truthy (resolved_controls _)) eqn:T1; [by rewrite T1|done].
Qed.

Lemma pick_ext (c1 c2 : gmap string value) keys :
  (∀ k, k ∈ keys → c1 !! k = c2 !! k) →
  Underscore.pick c1 keys = Underscore.pick c2 keys.
Proof.
  intros H. apply map_eq. intros k. unfold Underscore.pick.
  rewrite !map_lookup_filter. destruct (decide (k ∈ keys)) as [Hk|Hk].
  - by rewrite H.
  - destruct (c1 !! k), (c2 !! k); simpl; rewrite ?option_guard_False; done.
Qed.

Lemma tail_touches c : touches keys_tail (tail c) c.
Proof.
  unfold tail, Config.resolveQualityLabels, Config.resolvePlaylist,
    Config.dropUnsetAspect, keys_tail.
  repeat match goal with |- context [if ?x then _ else _] => destruct x end; touch.
Qed.

Lemma tail_playlist c :
  JS.get (tail c) "playlist" = resolved_playlist c.
Proof.
  unfold tail, Config.resolveQualityLabels. rewrite get_insert_ne by done.
  assert (JS.get (Config.dropUnsetAspect c) "playlist" = JS.get c "playlist") as Hp.
  { unfold Config.dropUnsetAspect. destruct (negb _); [|done].
    unfold JS.get. by rewrite lookup_delete_ne. }
  unfold Config.resolvePlaylist, resolved_playlist. rewrite Hp.
  destruct (negb (JS.truthy (JS.get c "playlist"))).
  - rewrite get_insert_eq. do 3 f_equal. apply pick_ext.
    intros k Hk. unfold Config.dropUnsetAspect. destruct (negb _); [|done].
    apply lookup_delete_ne. intros <-. unfold Config.legacyItemFields in Hk.
    cases_in Hk.
  - destruct (JS.isArray _); [by rewrite get_insert_eq|done].
Qed.

Lemma createConfig_steps options storage :
  Config.createConfig serialize exists_ scriptPath loadFrom protocol
    window_jwplayer options storage
  = let! c := front exists_ scriptPath loadFrom protocol
                (Config.mergeConfig serialize window_jwplayer options
                   (Config.persisted_of storage)) in
    let! c := rates c in
    Ok (tail c).
Proof.
  unfold Config.createConfig, front, rates, tail.
  repeat match goal with
         | |- context [obind ?x _] =>
             lazymatch x with
             | obind _ _ => fail
             | _ => destruct x; simpl; try reflexivity
             end
         end.
Qed.

Lemma front_touches c c' :
  front exists_ scriptPath loadFrom protocol c = Ok c' → touches keys_front c' c.
Proof.
  unfold front. intros H.
  apply obind_Ok in H as (c1 & H1 & H).
  apply obind_Ok in H as (c2 & H2 & H).
  apply obind_Ok in H as (c3 & H3 & H).
  apply obind_Ok in H as (c4 & H4 & H).
  injection H as <-.
  eapply touches_trans; [apply resolveSkin_touches|].
  assert (touches keys_front c1 c) as T1.
  { unfold Config.resolveBase in H1. apply obind_Ok in H1 as (b & _ & H1).
    injection H1 as <-. unfold keys_front.
    destruct (JS.strict_eq _ _); touch. }
  assert (touches keys_front c2 c1) as T2.
  { unfold Config.resolveSize in H2. apply obind_Ok in H2 as (w & _ & H2).
    apply obind_Ok in H2 as (h & _ & H2). injection H2 as <-.
    unfold keys_front. touch. }
  assert (touches keys_front c3 c2) as T3.
  { unfold Config.resolveFlash in H3. apply obind_Ok in H3 as (p & _ & H3).
    apply obind_Ok in H3 as (l & _ & H3). unfold keys_front.
    destruct (String.eqb protocol "http:").
    - apply obind_Ok in H3 as (p' & _ & H3). apply obind_Ok in H3 as (l' & _ & H3).
      injection H3 as <-. touch.
    - injection H3 as <-. touch. }
  assert (touches keys_front c4 c3) as T4.
  { unfold Config.resolveAspect in H4. apply obind_Ok in H4 as (a & _ & H4).
    injection H4 as <-. unfold keys_front. touch. }
  eauto using touches_trans.
Qed.

(** Under the schema, [createConfig] returns. *)
Lemma createConfig_returns options storage :
  conforms (Config.mergeConfig serialize window_jwplayer options
              (Config.persisted_of storage)) = true →
  ∃ cfg,
    Config.createConfig serialize exists_ scriptPath loadFrom protocol
      window_jwplayer options storage = Ok cfg.
Proof.
  intros Hm. rewrite createConfig_steps.
  destruct (front_total _ Hm) as (c4 & -> & _).
  destruct (rates_total c4) as (c7 & E7 & _).
  cbn [obind]. rewrite E7. cbn [obind]. eauto.
Qed.

(** What it returns, whenever it does. *)
Lemma createConfig_result options storage cfg :
  let m := Config.mergeConfig serialize window_jwplayer options
             (Config.persisted_of storage) in
  Config.createConfig serialize exists_ scriptPath loadFrom protocol
    window_jwplayer options storage = Ok cfg →
  touches derived_keys cfg m
  ∧ JS.get cfg "playlist" = resolved_playlist m
  ∧ JS.get cfg "playbackRateControls"
    = resolved_controls (JS.get m "playbackRateControls")
  ∧ cfg !! "playbackRates"
    = Some (resolved_rates (JS.get m "playbackRateControls")
                           (JS.get m "playbackRates")).
Proof.
  intros m H. rewrite createConfig_steps in H. fold m in H.
  apply obind_Ok in H as (c4 & E4 & H).
  apply obind_Ok in H as (c7 & E7 & H). injection H as <-.
  pose proof (front_touches _ _ E4) as T4.
  destruct (rates_total c4) as (c7' & E7' & T7 & C & R).
  rewrite E7 in E7'. injection E7' as <-.
  assert (∀ k, k ∉ keys_front → k ∉ keys_rates → c7 !! k = m !! k) as Hk.
  { intros k H1 H2. rewrite T7 by done. by apply T4. }
  assert (JS.get c4 "playbackRateControls" = JS.get m "playbackRateControls") as E1.
  { apply (touches_get keys_front); [done|unfold keys_front; not_in_list]. }
  assert (JS.get c4 "playbackRates" = JS.get m "playbackRates") as E2.
  { apply (touches_get keys_front); [done|unfold keys_front; not_in_list]. }
  split; [|split; [|split]].
  - intros k Hn. unfold derived_keys in Hn.
    rewrite !not_elem_of_app in Hn. destruct Hn as (H1 & H2 & H3).
    rewrite tail_touches by done. by apply Hk.
  - rewrite tail_playlist. unfold resolved_playlist, JS.get.
    rewrite Hk by (unfold keys_front, keys_rates; not_in_list).
    rewrite (pick_ext c7 m); [done|].
    intros k Hin. unfold Config.legacyItemFields in Hin.
    apply Hk; unfold keys_front, keys_rates; cases_in Hin; not_in_list.
  - rewrite <- E1, <- C. apply (touches_get keys_tail); [apply tail_touches|].
    unfold keys_tail; not_in_list.
  - rewrite <- E1, <- E2, <- R. apply tail_touches. unfold keys_tail; not_in_list.
Qed.

End Stages.

Lemma lookup_union_or (m1 m2 : gmap string value) k :
  (m1 ∪ m2) !! k = or_opt (m1 !! k) (m2 !! k).
Proof. rewrite lookup_union. by destruct (m1 !! k), (m2 !! k). Qed.

Section Merge.
Variable serialize : value -> value.
Variable window_jwplayer : value.

Lemma allOptions_lookup options persisted k :
  Config.allOptions serialize window_jwplayer options persisted !! k
  = serialize <$>
      or_opt (layer options !! k)
        (or_opt (layer persisted !! k)
           (layer (JS.get_prop (JS.or_else window_jwplayer (VObj ∅)) "defaults") !! k)).
Proof.
  unfold Config.allOptions, Config._deserialize.
  rewrite lookup_fmap, extend_layers, !lookup_union_or, lookup_empty.
  by destruct (layer options !! k), (layer persisted !! k), (layer _ !! k).
Qed.

Lemma mergeConfig_lookup options persisted k :
  Config.mergeConfig serialize window_jwplayer options persisted !! k
  = if bool_decide (k = "localization")
    then Some (VObj (layer (JS.get (Config.allOptions serialize window_jwplayer
                                      options persisted) "localization")
                     ∪ Config.Defaults_localization))
    else or_opt (Config.allOptions serialize window_jwplayer options persisted !! k)
                (Config.Defaults !! k).
Proof.
  unfold Config.mergeConfig. rewrite !extend_layers2.
  rewrite !(right_id_L ∅ (∪)). rewrite !lookup_union_or.
  change (layer (VObj ?o)) with o.
  case_bool_decide as Hk.
  - subst k. rewrite lookup_insert_eq. simpl. done.
  - rewrite lookup_insert_ne by done. done.
Qed.

End Merge.

Section Aspect.
Variable exists_ : value -> bool.

Lemma evaluateAspectRatio_fixed_width ar width ws :
  JS.toString_method width = Ok ws → Str.indexOf ws "%" = -1 →
  Config._evaluateAspectRatio exists_ ar width = Ok (JS.num_lit "0").
Proof.
  intros Hs Hi. unfold Config._evaluateAspectRatio. rewrite Hs. cbn [obind].
  by rewrite Hi.
Qed.

Lemma evaluateAspectRatio_percentage a width ws :
  JS.toString_method width = Ok ws → Str.indexOf ws "%" ≠ -1 →
  exists_ (VStr a) = true → Config.is_percentage a = true →
  Config._evaluateAspectRatio exists_ (VStr a) width = Ok (VStr a).
Proof.
  intros Hs Hi He Hp. unfold Config._evaluateAspectRatio. rewrite Hs. cbn [obind].
  apply Z.eqb_neq in Hi. by rewrite Hi, He, Hp.
Qed.

Lemma evaluateAspectRatio_ratio a width ws :
  let i := Str.indexOf a ":" in
  let w := Num.parseFloat (Str.upto (Z.to_nat i) a) in
  let h := Num.parseFloat (Str.from (Z.to_nat i + 1) a) in
  JS.toString_method width = Ok ws → Str.indexOf ws "%" ≠ -1 →
  exists_ (VStr a) = true → Config.is_percentage a = false →
  i ≠ -1 → Num.leb w (Num.of_Z 0) = false → Num.leb h (Num.of_Z 0) = false →
  Config._evaluateAspectRatio exists_ (VStr a) width
  = Ok (VStr (Num.to_string (Num.mul (Num.div h w) (Num.of_Z 100)) ++ "%")).
Proof.
  intros i w h Hs Hi He Hp Hc Hw Hh. unfold Config._evaluateAspectRatio.
  rewrite Hs. cbn [obind]. apply Z.eqb_neq in Hi, Hc. fold i. fold w h.
  rewrite Hi, He, Hp, Hc, Hw, Hh. reflexivity.
Qed.

End Aspect.

Lemma dropUnsetAspect_absent c :
  JS.truthy (JS.get c "aspectratio") = false →
  Config.dropUnsetAspect c !! "aspectratio" = None.
Proof.
  intros H. unfold Config.dropUnsetAspect. rewrite H. simpl.
  apply lookup_delete_eq.
Qed.


(** ** Lemmas on the facade and the registry *)


Ltac world_simpl :=
  cbn [w_instances w_instancesCreated w_uniqueIndex w_apis w_controllers
       w_clock w_trace instances instancesCreated _uniqueIndex apis
       controllers document debug clock trace state_of] in *.

Lemma bind_eq {A B} (m : M A) (f : A → M B) w :
  (m ≫= f) w = match m w with Done a w' => f a w' | Raised e w' => Raised e w' end.
Proof. reflexivity. Qed.

Lemma the_api_ok w a x : apis w !! a = Some x → the_api a w = Done x w.
Proof. intros H. unfold the_api. by rewrite H. Qed.

Lemma the_controller_ok w c x :
  controllers w !! c = Some x → the_controller c w = Done x w.
Proof. intros H. unfold the_controller. by rewrite H. Qed.

Lemma update_api_ok w a x f :
  apis w !! a = Some x →
  update_api a f w = Done tt (w_apis (<[a := f x]> (apis w)) w).
Proof. intros H. unfold update_api. rewrite bind_eq, (the_api_ok _ _ _ H). reflexivity. Qed.

Lemma update_controller_ok w c x f :
  controllers w !! c = Some x →
  update_controller c f w = Done tt (w_controllers (<[c := f x]> (controllers w)) w).
Proof.
  intros H. unfold update_controller.
  rewrite bind_eq, (the_controller_ok _ _ _ H). reflexivity.
Qed.

Lemma off_all {C} (eqb : C → C → bool) ls : Events.off eqb None None ls = [].
Proof. unfold Events.off. induction ls; simpl; auto. Qed.

Section FacadeSteps.
Variable events : string → string.
Variable playerDestroy : bool.

Lemma on_ok w a x n cb :
  apis w !! a = Some x →
  Facade.on a n cb w
  = Done a (w_trace (trace w ++ [Attached (OnApi a) n])
              (w_apis (<[a := with_events (_events x ++ [Events.Listener n cb false]) x]>
                         (apis w)) w)).
Proof.
  intros H. unfold Facade.on. rewrite bind_eq, (update_api_ok _ _ _ _ H). reflexivity.
Qed.

Lemma off_all_ok w a x :
  apis w !! a = Some x →
  Facade.off a None None w
  = Done a (w_trace (trace w ++ [DetachedAll (OnApi a)])
              (w_apis (<[a := with_events [] x]> (apis w)) w)).
Proof.
  intros H. unfold Facade.off. rewrite bind_eq, (update_api_ok _ _ _ _ H).
  rewrite off_all. reflexivity.
Qed.

Lemma resetPlayer_ok w a x c oc :
  apis w !! a = Some x → controllers w !! c = Some oc →
  Facade.resetPlayer playerDestroy a c w
  = Done tt (w_trace (trace w ++ teardown_actions playerDestroy a c)
               (w_controllers (<[c := torn_down playerDestroy oc]> (controllers w))
                  (w_apis (<[a := with_events [] x]> (apis w)) w))).
Proof.
  intros Ha Hc. unfold Facade.resetPlayer.
  rewrite bind_eq, (off_all_ok _ _ _ Ha).
  unfold Facade.controller_off. rewrite !bind_eq.
  erewrite update_controller_ok by (world_simpl; exact Hc).
  rewrite off_all. unfold teardown_actions, torn_down.
  destruct playerDestroy.
  - unfold Facade.controller_playerDestroy. cbn [record modify]. rewrite bind_eq.
    erewrite update_controller_ok by (world_simpl; apply lookup_insert_eq).
    unfold record, modify. world_simpl. rewrite insert_insert_eq.
    rewrite <- !app_assoc. reflexivity.
  - unfold record, modify. world_simpl. rewrite <- !app_assoc. reflexivity.
Qed.

Lemma fresh_controller w : controllers w !! fresh (dom (controllers w)) = None.
Proof. apply not_elem_of_dom, is_fresh. Qed.

Lemma newController_ok w el :
  Facade.newController el w
  = Done (fresh (dom (controllers w)))
      (w_trace (trace w ++ [Constructed (fresh (dom (controllers w)))])
         (w_controllers (<[fresh (dom (controllers w)) := MkController el [] false None]>
                           (controllers w)) w)).
Proof. reflexivity. Qed.

Lemma setupController_ok w api el :
  let c := fresh (dom (controllers w)) in
  Facade.setupController events api el w
  = Done c
      (w_trace (trace w ++ bridge_actions events c)
         (w_controllers (<[c := MkController el (bridge_listeners events api) false None]>
                           (controllers w)) w)).
Proof.
  intros c. unfold Facade.setupController, Facade.newController, Facade.controller_on,
    update_controller, the_controller, record, modify, set_controllers, gets,
    mbind, M_bind, mret, M_ret.
  cbn -[insert lookup fresh dom app]. fold c. rewrite lookup_insert_eq.
  cbn -[insert lookup fresh dom app]. rewrite lookup_insert_eq.
  cbn -[insert lookup fresh dom app].
  rewrite !insert_insert_eq, <- !app_assoc. reflexivity.
Qed.

Lemma with_events_same x : with_events (_events x) x = x.
Proof. by destruct x. Qed.

Lemma w_apis_same w : w_apis (apis w) w = w.
Proof. by destruct w. Qed.

Lemma w_trace_same w : w_trace (trace w) w = w.
Proof. by destruct w. Qed.

Lemma foreach_on_ok self evs : ∀ w x,
  apis w !! self = Some x →
  foreach evs (fun '(evt, val) =>
                 Facade.on self (Facade.handler_event events evt) val ;; mret tt) w
  = Done tt
      (w_trace (trace w ++ map (fun p => Attached (OnApi self)
                                           (Facade.handler_event events p.1)) evs)
         (w_apis (<[self := with_events
                      (_events x ++ map (fun p => Events.Listener
                                           (Facade.handler_event events p.1) p.2 false) evs)
                      x]> (apis w)) w)).
Proof.
  induction evs as [|[evt val] evs IH]; intros w x Hx.
  - cbn [foreach map]. rewrite !app_nil_r, with_events_same, insert_id by done.
    by rewrite w_apis_same, w_trace_same.
  - cbn [foreach]. rewrite !bind_eq, (on_ok _ _ _ _ _ Hx).
    cbn [mret M_ret]. erewrite IH by (world_simpl; apply lookup_insert_eq).
    world_simpl. cbn [map fst snd _events with_events].
    rewrite insert_insert_eq, <- !app_assoc. reflexivity.
Qed.

Lemma dom_insert_same {V} (m : gmap nat V) i x y :
  m !! i = Some x → dom (<[i := y]> m) = dom m.
Proof.
  intros H. apply set_eq. intros k. rewrite dom_insert, elem_of_union, elem_of_singleton.
  split; [intros [->|]; [by apply elem_of_dom|done] | auto].
Qed.

Lemma setup_ok w self x oc o :
  wired w self x oc →
  let old := _controller x in
  let new := fresh (dom (controllers w)) in
  Facade.setup events playerDestroy self o w
  = Done self
      (w_trace (trace w ++ teardown_actions playerDestroy self old
                  ++ bridge_actions events new ++ bound_actions events self o
                  ++ [EngineSetup new])
         (w_controllers
            (<[new := MkController (api_element x) (bridge_listeners events self) false
                        (Some (<["id" := VStr (id x)]> (opt_config o)))]>
               (<[old := torn_down playerDestroy oc]> (controllers w)))
            (w_apis
               (<[self := MkApi (uniqueId x) (id x) (api_element x)
                            (<["setup" := clock w]> (_qoe x)) (bound events o) new
                            (plugins x)]> (apis w))
               w))).
Proof.
  intros [Hx Hc] old new. unfold Facade.setup, Facade.tick.
  rewrite bind_eq. rewrite bind_eq. cbn [gets]. cbv beta iota.
  erewrite update_api_ok by done. cbv beta iota.
  rewrite bind_eq. erewrite the_api_ok by (world_simpl; apply lookup_insert_eq).
  cbv beta iota. cbn [_controller with_qoe api_element id].
  rewrite bind_eq.
  erewrite resetPlayer_ok;
    [|world_simpl; apply lookup_insert_eq|world_simpl; exact Hc].
  cbv beta iota.
  rewrite bind_eq, setupController_ok. world_simpl.
  rewrite (dom_insert_same _ _ _ _ Hc). fold new. fold old. cbv beta iota.
  rewrite bind_eq.
  erewrite update_api_ok by (world_simpl; apply lookup_insert_eq).
  cbv beta iota. rewrite bind_eq.
  erewrite foreach_on_ok by (world_simpl; apply lookup_insert_eq).
  cbv beta iota.
  unfold Facade.controller_setup. rewrite bind_eq. rewrite bind_eq.
  erewrite update_controller_ok by (world_simpl; apply lookup_insert_eq).
  unfold record, modify. cbn [mret M_ret]. world_simpl.
  cbn [with_events with_controller with_c_setup _events c_element c_events
       c_destroyed uniqueId id api_element _qoe plugins _controller app].
  rewrite !insert_insert_eq, <- !app_assoc. reflexivity.
Qed.

End FacadeSteps.


Section Respect.
Context (R : world → world → Prop).
Hypothesis R_refl : ∀ w, R w w.
Hypothesis R_trans : ∀ w1 w2 w3, R w1 w2 → R w2 w3 → R w1 w3.

Lemma respects_bind {A B} (m : M A) (f : A → M B) :
  respects R m → (∀ a, respects R (f a)) → respects R (m ≫= f).
Proof using R_trans.
  intros Hm Hf w. rewrite bind_eq. specialize (Hm w).
  destruct (m w) as [a w'|e w']; cbn [state_of] in *; [|done].
  eapply R_trans; [done|apply Hf].
Qed.

Lemma respects_ret {A} (a : A) : respects R (mret a).
Proof using R_refl. intros w. apply R_refl. Qed.

Lemma respects_gets {A} (f : world → A) : respects R (gets f).
Proof using R_refl. intros w. apply R_refl. Qed.

Lemma respects_throw {A} e : respects R (@throw A e).
Proof using R_refl. intros w. apply R_refl. Qed.

Lemma respects_lift {A} (o : outcome A) : respects R (lift o).
Proof using R_refl. destruct o; [apply respects_ret|apply respects_throw]. Qed.

Lemma respects_the_api a : respects R (the_api a).
Proof using R_refl. intros w. unfold the_api. destruct (_ !! _); apply R_refl. Qed.

Lemma respects_the_controller c : respects R (the_controller c).
Proof using R_refl.
  intros w. unfold the_controller. destruct (_ !! _); apply R_refl.
Qed.

Lemma respects_swallow m : respects R m → respects R (swallow m).
Proof. intros H w. specialize (H w). unfold swallow. by destruct (m w). Qed.

Lemma respects_foreach {A} (l : list A) f :
  (∀ x, respects R (f x)) → respects R (foreach l f).
Proof using R_refl R_trans.
  intros H. induction l; cbn [foreach]; [apply respects_ret|].
  apply respects_bind; auto.
Qed.

End Respect.

Lemma same_identity_refl x : same_identity x x.
Proof. done. Qed.

Lemma same_identity_trans x y z :
  same_identity x y → same_identity y z → same_identity x z.
Proof. unfold same_identity. intros (?&?&?&?) (?&?&?&?). repeat split; congruence. Qed.

Lemma cosmetic_refl w : cosmetic w w.
Proof.
  repeat split. intros a. destruct (apis w !! a); [apply same_identity_refl|done].
Qed.

Lemma cosmetic_trans w1 w2 w3 : cosmetic w1 w2 → cosmetic w2 w3 → cosmetic w1 w3.
Proof.
  intros (I1 & C1 & U1 & K1 & D1 & G1 & A1) (I2 & C2 & U2 & K2 & D2 & G2 & A2).
  repeat split; try congruence.
  intros a. specialize (A1 a). specialize (A2 a).
  destruct (apis w1 !! a), (apis w2 !! a), (apis w3 !! a); try done.
  eapply same_identity_trans; eauto.
Qed.

Lemma evolves_refl w : evolves w w.
Proof.
  split; [|split; [|split; [|split]]]; eauto.
  - intros a x' H1 H2. congruence.
  - intros a b x y H1 _ H2. congruence.
Qed.

Lemma evolves_trans w1 w2 w3 : evolves w1 w2 → evolves w2 w3 → evolves w1 w3.
Proof.
  intros (A1 & B1 & C1 & D1 & E1) (A2 & B2 & C2 & D2 & E2).
  split; [|split; [|split; [|split]]].
  - intros a x H. destruct (A1 a x H) as (x' & H' & U & I & El).
    destruct (A2 a x' H') as (x'' & H'' & U' & I' & El').
    exists x''. repeat split; congruence.
  - lia.
  - intros a x'' H'' Hn. destruct (apis w2 !! a) as [x'|] eqn:H'.
    + destruct (A2 a x' H') as (y & Hy & U & _). specialize (C1 a x' H' Hn).
      assert (y = x'') by congruence. subst y. lia.
    + specialize (C2 a x'' H'' H'). lia.
  - intros a b x y Ha Hb Hna Hnb Hu.
    destruct (apis w2 !! a) as [xa|] eqn:Ha2; destruct (apis w2 !! b) as [xb|] eqn:Hb2.
    + destruct (A2 a xa Ha2) as (x' & Hx' & U & _).
      destruct (A2 b xb Hb2) as (y' & Hy' & U' & _).
      apply (D1 a b xa xb); try done. congruence.
    + destruct (A2 a xa Ha2) as (x' & Hx' & U & _).
      specialize (C1 a xa Ha2 Hna). specialize (C2 b y Hb Hb2).
      assert (x' = x) by congruence. subst. lia.
    + destruct (A2 b xb Hb2) as (y' & Hy' & U & _).
      specialize (C1 b xb Hb2 Hnb). specialize (C2 a x Ha Ha2).
      assert (y' = y) by congruence. subst. lia.
    + by apply (D2 a b x y).
  - intros c k H. destruct (E1 c k H) as (k' & H' & P).
    destruct (E2 c k' H') as (k'' & H'' & P'). eauto.
Qed.

Lemma cosmetic_evolves w w' : cosmetic w w' → evolves w w'.
Proof.
  intros (I & C & U & K & D & G & A).
  split; [|split; [|split; [|split]]].
  - intros a x H. specialize (A a). rewrite H in A.
    destruct (apis w' !! a) as [x'|]; [|done].
    destruct A as (?&?&?&?). eauto.
  - lia.
  - intros a x' H' Hn. specialize (A a). by rewrite H', Hn in A.
  - intros a b x y H' _ Hn. specialize (A a). by rewrite H', Hn in A.
  - intros c k H. rewrite K. eauto.
Qed.

Lemma ids_sound_evolves w w' : ids_sound w → evolves w w' → ids_sound w'.
Proof.
  intros [Hlt Hinj] (A & B & C & D & _). split.
  - intros a x' H'. destruct (apis w !! a) as [x|] eqn:H.
    + destruct (A a x H) as (y & Hy & U & _). specialize (Hlt a x H).
      assert (y = x') by congruence. subst. lia.
    + specialize (C a x' H' H). lia.
  - intros a b x y Ha Hb Hu.
    destruct (apis w !! a) as [xa|] eqn:Ha0; destruct (apis w !! b) as [xb|] eqn:Hb0.
    + destruct (A a xa Ha0) as (x' & Hx' & U & _).
      destruct (A b xb Hb0) as (y' & Hy' & U' & _).
      apply (Hinj a b xa xb); try done. congruence.
    + destruct (A a xa Ha0) as (x' & Hx' & U & _).
      specialize (Hlt a xa Ha0). specialize (C b y Hb Hb0).
      assert (x' = x) by congruence. subst. lia.
    + destruct (A b xb Hb0) as (y' & Hy' & U & _).
      specialize (Hlt b xb Hb0). specialize (C a x Ha Ha0).
      assert (y' = y) by congruence. subst. lia.
    + by apply (D a b x y).
Qed.


Lemma sound_cosmetic w w' : sound w → cosmetic w w' → sound w'.
Proof.
  intros (Hi & (Hn & Hr & Hu) & Hw) Hc.
  pose proof (cosmetic_evolves _ _ Hc) as He.
  destruct Hc as (I & C & U & K & D & G & A).
  split; [by eapply ids_sound_evolves|]. split; [split; [|split]|].
  - by rewrite I.
  - rewrite I. intros a Ha. destruct (Hr a Ha) as [x Hx]. specialize (A a).
    rewrite Hx in A. by destruct (apis w' !! a).
  - rewrite I. intros a b x' y' Ha Hb Hx' Hy' Hid.
    pose proof (A a) as Aa. pose proof (A b) as Ab. rewrite Hx' in Aa. rewrite Hy' in Ab.
    destruct (apis w !! a) as [x|] eqn:Hx; [|done].
    destruct (apis w !! b) as [y|] eqn:Hy; [|done].
    destruct Aa as (_ & Ia & _). destruct Ab as (_ & Ib & _).
    apply (Hu a b x y); try done. congruence.
  - intros a x' Hx'. specialize (A a). rewrite Hx' in A.
    destruct (apis w !! a) as [x|] eqn:Hx; [|done].
    destruct A as (_ & _ & _ & Cx). rewrite K, Cx. by eapply Hw.
Qed.

(** The primitive changes. *)

Lemma cosmetic_record a : respects cosmetic (record a).
Proof.
  intros w. repeat split. intros b. cbn. destruct (apis w !! b); done.
Qed.

Lemma cosmetic_update_api a f : keeps f → respects cosmetic (update_api a f).
Proof.
  intros Hf w. destruct (apis w !! a) as [x|] eqn:Hx.
  2:{ unfold update_api. rewrite bind_eq. unfold the_api. rewrite Hx.
      apply cosmetic_refl. }
  rewrite (update_api_ok _ _ _ _ Hx). cbn [state_of].
  repeat split. intros b. world_simpl. destruct (decide (a = b)) as [<-|Hne].
  - rewrite lookup_insert_eq, Hx. apply Hf.
  - rewrite lookup_insert_ne by done. destruct (apis w !! b); done.
Qed.

Lemma evolves_update_controller c f : calm f → respects evolves (update_controller c f).
Proof.
  intros Hf w. destruct (controllers w !! c) as [k|] eqn:Hk.
  2:{ unfold update_controller. rewrite bind_eq. unfold the_controller. rewrite Hk.
      apply evolves_refl. }
  rewrite (update_controller_ok _ _ _ _ Hk). cbn [state_of].
  split; [|split; [|split; [|split]]]; world_simpl; eauto.
  - intros a x' H1 H2. congruence.
  - intros a b x y H1 _ H2. congruence.
  - intros c' k' Hc'. destruct (decide (c = c')) as [->|Hne].
    + rewrite lookup_insert_eq. exists (f k). assert (k' = k) by congruence. subst.
      split; [done|apply Hf].
    + rewrite lookup_insert_ne by done. eauto.
Qed.

Lemma keeps_fun_events g : keeps (fun x => with_events (g x) x).
Proof. by intros []. Qed.
Lemma keeps_fun_qoe g : keeps (fun x => with_qoe (g x) x).
Proof. by intros []. Qed.
Lemma keeps_fun_plugins g : keeps (fun x => with_plugins (g x) x).
Proof. by intros []. Qed.

Lemma calm_off :
  calm (fun x => with_c_events (Events.off bridge_eqb None None (c_events x)) x).
Proof. intros k _. cbn. apply off_all. Qed.
Lemma calm_destroyed : calm with_c_destroyed.
Proof. by intros []. Qed.
Lemma calm_setup o : calm (with_c_setup o).
Proof. by intros []. Qed.

Ltac polite :=
  repeat first
    [ apply (respects_ret _ cosmetic_refl)
    | apply (respects_gets _ cosmetic_refl)
    | apply (respects_throw _ cosmetic_refl)
    | apply (respects_lift _ cosmetic_refl)
    | apply (respects_the_api _ cosmetic_refl)
    | apply (respects_the_controller _ cosmetic_refl)
    | apply cosmetic_record
    | apply cosmetic_update_api;
        first [ apply keeps_fun_events | apply keeps_fun_qoe | apply keeps_fun_plugins ]
    | apply respects_swallow
    | apply (respects_foreach _ cosmetic_refl cosmetic_trans); intros ?
    | apply (respects_bind _ cosmetic_trans); [|intros ?]
    | match goal with
      | |- respects _ (match ?x with _ => _ end) => destruct x
      | |- respects _ (let '(_, _) := ?x in _) => destruct x
      end
    | assumption ].

Lemma respects_weaken {A} (m : M A) : respects cosmetic m → respects evolves m.
Proof. intros H w. apply cosmetic_evolves, H. Qed.

Lemma evolves_update_api a f :
  (∀ x, uniqueId (f x) = uniqueId x ∧ id (f x) = id x
        ∧ api_element (f x) = api_element x) →
  respects evolves (update_api a f).
Proof.
  intros Hf w. destruct (apis w !! a) as [x|] eqn:Hx.
  2:{ unfold update_api. rewrite bind_eq. unfold the_api. rewrite Hx.
      apply evolves_refl. }
  rewrite (update_api_ok _ _ _ _ Hx). cbn [state_of].
  destruct (Hf x) as (U & I & El).
  split; [|split; [|split; [|split]]]; world_simpl; eauto.
  - intros b y Hb. destruct (decide (a = b)) as [->|Hne].
    + rewrite lookup_insert_eq. exists (f x). assert (y = x) by congruence. by subst.
    + rewrite lookup_insert_ne by done. eauto.
  - intros b y Hb Hn. destruct (decide (a = b)) as [->|Hne]; [congruence|].
    rewrite lookup_insert_ne in Hb by done. congruence.
  - intros b b' y y' Hb _ Hn. destruct (decide (a = b)) as [->|Hne]; [congruence|].
    rewrite lookup_insert_ne in Hb by done. congruence.
Qed.

Lemma evolves_set_instances l : respects evolves (set_instances l).
Proof.
  intros w. split; [|split; [|split; [|split]]]; cbn; eauto.
  - intros a x' H1 H2. congruence.
  - intros a b x y H1 _ H2. congruence.
Qed.

Lemma evolves_set_uniqueIndex n : respects evolves (set_uniqueIndex n).
Proof.
  intros w. split; [|split; [|split; [|split]]]; cbn; eauto.
  - intros a x' H1 H2. congruence.
  - intros a b x y H1 _ H2. congruence.
Qed.

Ltac evolve :=
  repeat first
    [ apply (respects_ret _ evolves_refl)
    | apply (respects_gets _ evolves_refl)
    | apply (respects_throw _ evolves_refl)
    | apply (respects_lift _ evolves_refl)
    | apply (respects_the_api _ evolves_refl)
    | apply (respects_the_controller _ evolves_refl)
    | apply evolves_update_controller;
        first [ apply calm_off | apply calm_destroyed | apply calm_setup ]
    | apply evolves_set_instances
    | apply evolves_set_uniqueIndex
    | apply respects_weaken; apply cosmetic_record
    | apply respects_weaken; apply cosmetic_update_api;
        first [ apply keeps_fun_events | apply keeps_fun_qoe | apply keeps_fun_plugins ]
    | apply (respects_foreach _ evolves_refl evolves_trans); intros ?
    | apply (respects_bind _ evolves_trans); [|intros ?]
    | match goal with
      | |- respects _ (match ?x with _ => _ end) => destruct x
      | |- respects _ (let '(_, _) := ?x in _) => destruct x
      end
    | assumption ].

Section Respects.
Variable events : string → string.
Variable playerDestroy : bool.
Variable strict : bool.

Lemma cosmetic_on a n cb : respects cosmetic (Facade.on a n cb).
Proof. unfold Facade.on. polite. Qed.

Lemma cosmetic_once a n cb : respects cosmetic (Facade.once a n cb).
Proof. unfold Facade.once. polite. Qed.

Lemma cosmetic_off a n cb : respects cosmetic (Facade.off a n cb).
Proof. unfold Facade.off. polite. Qed.

Lemma cosmetic_call a n args l : respects cosmetic (Facade.call a n args l).
Proof. unfold Facade.call. polite. Qed.

Lemma cosmetic_trigger a n args : respects cosmetic (Facade.trigger a n args).
Proof.
  unfold Facade.trigger, Facade.Events_trigger, Facade.Events_triggerSafe.
  polite; apply cosmetic_call.
Qed.

Lemma cosmetic_tick a n : respects cosmetic (Facade.tick a n).
Proof. unfold Facade.tick. polite. Qed.

Lemma cosmetic_between a n m : respects cosmetic (Facade.between a n m).
Proof. unfold Facade.between. polite. Qed.

Lemma cosmetic_run_bridges ls n :
  ∀ event, respects cosmetic (Facade.run_bridges ls n event).
Proof.
  induction ls as [|l ls IH]; intros event; cbn [Facade.run_bridges]; [polite|].
  destruct (Events.l_callback l).
  - apply (respects_bind _ cosmetic_trans); [apply cosmetic_tick|intros _].
    apply (respects_bind _ cosmetic_trans); [apply cosmetic_between|intros t].
    apply IH.
  - apply (respects_bind _ cosmetic_trans); [apply cosmetic_trigger|intros _].
    apply IH.
Qed.

Lemma cosmetic_emit c n event : respects cosmetic (Facade.emit c n event).
Proof.
  unfold Facade.emit.
  apply (respects_bind _ cosmetic_trans);
    [apply (respects_the_controller _ cosmetic_refl)|intros x].
  apply cosmetic_run_bridges.
Qed.

Lemma cosmetic_addPlugin a n p : respects cosmetic (Facade.addPlugin a n p).
Proof.
  unfold Facade.addPlugin.
  apply (respects_bind _ cosmetic_trans); [polite|intros _].
  apply (respects_bind _ cosmetic_trans); [apply cosmetic_on|intros _].
  destruct (resize p); [|polite].
  apply (respects_bind _ cosmetic_trans); [polite|intros v].
  apply (respects_bind _ cosmetic_trans); [polite|intros h].
  apply (respects_bind _ cosmetic_trans); [|polite].
  unfold Facade.on_any. destruct h; polite.
Qed.

Lemma cosmetic_wait dt : respects cosmetic (Run.wait dt).
Proof. intros w. repeat split. intros a. cbn. by destruct (apis w !! a). Qed.

Lemma evolves_setupController api el :
  respects evolves (Facade.setupController events api el).
Proof.
  intros w. rewrite setupController_ok. cbn [state_of].
  split; [|split; [|split; [|split]]]; world_simpl; eauto.
  - intros a x' H1 H2. congruence.
  - intros a b x y H1 _ H2. congruence.
  - intros c k Hc. rewrite lookup_insert_ne; [eauto|].
    intros E. rewrite <- E, fresh_controller in Hc. done.
Qed.

Lemma evolves_resetPlayer a c : respects evolves (Facade.resetPlayer playerDestroy a c).
Proof.
  unfold Facade.resetPlayer, Facade.controller_off, Facade.controller_playerDestroy.
  apply (respects_bind _ evolves_trans);
    [apply respects_weaken, cosmetic_off|intros _].
  evolve.
Qed.

Lemma evolves_removePlayer a : respects evolves (Facade.removePlayer a).
Proof.
  unfold Facade.removePlayer. evolve.
Qed.

Lemma evolves_setup a o : respects evolves (Facade.setup events playerDestroy a o).
Proof.
  unfold Facade.setup, Facade.controller_setup.
  apply (respects_bind _ evolves_trans);
    [apply respects_weaken, cosmetic_tick|intros _].
  apply (respects_bind _ evolves_trans);
    [apply (respects_the_api _ evolves_refl)|intros x].
  apply (respects_bind _ evolves_trans); [apply evolves_resetPlayer|intros _].
  apply (respects_bind _ evolves_trans); [apply evolves_setupController|intros c].
  apply (respects_bind _ evolves_trans);
    [apply evolves_update_api; by intros []|intros _].
  apply (respects_bind _ evolves_trans).
  { apply (respects_foreach _ evolves_refl evolves_trans). intros [evt val].
    apply (respects_bind _ evolves_trans);
      [apply respects_weaken, cosmetic_on|intros _]. evolve. }
  intros _. evolve.
Qed.

Lemma evolves_remove a : respects evolves (Facade.remove playerDestroy a).
Proof.
  unfold Facade.remove.
  apply (respects_bind _ evolves_trans); [apply evolves_removePlayer|intros _].
  apply (respects_bind _ evolves_trans);
    [apply respects_weaken, cosmetic_trigger|intros _].
  apply (respects_bind _ evolves_trans);
    [apply (respects_the_api _ evolves_refl)|intros x].
  apply (respects_bind _ evolves_trans); [apply evolves_resetPlayer|intros _].
  evolve.
Qed.

Lemma fresh_api w : apis w !! fresh (dom (apis w)) = None.
Proof. apply not_elem_of_dom, is_fresh. Qed.

Lemma newApi_ok w el :
  let self := fresh (dom (apis w)) in
  let c := fresh (dom (controllers w)) in
  Facade.newApi events el w
  = Done self
      (w_apis (<[self := MkApi (instancesCreated w) (el_id el) el
                           {["init" := clock w]} [] c None]> (apis w))
         (w_trace (trace w ++ bridge_actions events c)
            (w_controllers
               (<[c := MkController el (bridge_listeners events self) false None]>
                  (controllers w))
               (w_instancesCreated (S (instancesCreated w)) w)))).
Proof.
  intros self c. unfold Facade.newApi.
  rewrite bind_eq. cbn [gets]. cbv beta iota.
  rewrite bind_eq. cbn [set_instancesCreated modify]. cbv beta iota.
  rewrite bind_eq. cbn [gets]. cbv beta iota. world_simpl.
  rewrite bind_eq. cbn [gets]. cbv beta iota. world_simpl.
  rewrite bind_eq, setupController_ok. cbv beta iota. world_simpl.
  reflexivity.
Qed.

Lemma evolves_newApi el : respects evolves (Facade.newApi events el).
Proof.
  intros w. rewrite newApi_ok. cbn [state_of].
  split; [|split; [|split; [|split]]]; world_simpl.
  - intros a x Ha. rewrite lookup_insert_ne; [eauto|].
    intros E. rewrite <- E, fresh_api in Ha. done.
  - lia.
  - intros a x' H' Hn. destruct (decide (fresh (dom (apis w)) = a)) as [<-|Hne].
    + rewrite lookup_insert_eq in H'. injection H' as <-. cbn. lia.
    + rewrite lookup_insert_ne in H' by done. congruence.
  - intros a b x y Ha Hb Hna Hnb _.
    destruct (decide (fresh (dom (apis w)) = a)) as [<-|Hne];
      [|rewrite lookup_insert_ne in Ha by done; congruence].
    destruct (decide (fresh (dom (apis w)) = b)) as [<-|Hne];
      [done|rewrite lookup_insert_ne in Hb by done; congruence].
  - intros c k Hc. rewrite lookup_insert_ne; [eauto|].
    intros E. rewrite <- E, fresh_controller in Hc. done.
Qed.

Lemma evolves_selectPlayer q : respects evolves (Registry.selectPlayer events strict q).
Proof.
  unfold Registry.selectPlayer.
  apply (respects_bind _ evolves_trans).
  - unfold Registry._playerById, Registry.getElementById. evolve.
  - intros [player domElement]. destruct player; [evolve|].
    destruct domElement; [|evolve].
    apply (respects_bind _ evolves_trans); [apply evolves_newApi|intros api].
    unfold Registry._addPlayer. evolve.
Qed.

Lemma evolves_step o w : evolves w (Run.step events playerDestroy strict o w).
Proof.
  destruct o; cbn [Run.step];
    first [ apply evolves_selectPlayer | apply evolves_setup | apply evolves_remove
          | apply respects_weaken;
            first [ apply cosmetic_on | apply cosmetic_once | apply cosmetic_off
                  | apply cosmetic_trigger | apply cosmetic_addPlugin
                  | apply cosmetic_emit | apply cosmetic_wait ] ].
Qed.

Lemma evolves_run ops : ∀ w, evolves w (Run.run events playerDestroy strict ops w).
Proof.
  induction ops as [|o ops IH]; intros w; cbn [Run.run fold_left].
  - apply evolves_refl.
  - eapply evolves_trans; [apply evolves_step|apply IH].
Qed.

End Respects.


Section Sound.
Variable events : string → string.
Variable playerDestroy : bool.
Variable strict : bool.

Lemma setup_dangling w a o :
  apis w !! a = None →
  Facade.setup events playerDestroy a o w = Raised TypeError w.
Proof.
  intros H. unfold Facade.setup, Facade.tick, update_api.
  rewrite !bind_eq. cbn [gets]. cbv beta iota. rewrite !bind_eq.
  unfold the_api. by rewrite H.
Qed.

Lemma sound_setup w a o :
  sound w → sound (state_of (Facade.setup events playerDestroy a o w)).
Proof.
  intros Hs. pose proof (evolves_setup events playerDestroy a o w) as He.
  destruct (apis w !! a) as [x|] eqn:Hx; [|by rewrite setup_dangling].
  destruct Hs as (Hi & (Hn & Hr & Hu) & Hw).
  destruct (Hw a x Hx) as [oc Hc].
  rewrite (setup_ok events playerDestroy w a x oc o (conj Hx Hc)) in *.
  cbn [state_of] in *.
  split; [by eapply ids_sound_evolves|]. split; [split; [|split]|]; world_simpl.
  - done.
  - intros b Hb. destruct (decide (a = b)) as [<-|Hne].
    + by rewrite lookup_insert_eq.
    + rewrite lookup_insert_ne by done. by apply Hr.
  - intros b b' y y' Hb Hb' Hy Hy' Hid.
    assert (∀ c z, <[a := MkApi (uniqueId x) (id x) (api_element x)
                        (<["setup" := clock w]> (_qoe x)) (bound events o)
                        (fresh (dom (controllers w))) (plugins x)]> (apis w) !! c = Some z →
              ∃ z0, apis w !! c = Some z0 ∧ id z0 = id z) as Hold.
    { intros c z Hz. destruct (decide (a = c)) as [<-|Hne].
      - rewrite lookup_insert_eq in Hz. injection Hz as <-. eauto.
      - rewrite lookup_insert_ne in Hz by done. eauto. }
    destruct (Hold _ _ Hy) as (y0 & Hy0 & I0).
    destruct (Hold _ _ Hy') as (y0' & Hy0' & I0').
    apply (Hu b b' y0 y0'); try done. congruence.
  - intros b y Hy. world_simpl. destruct (decide (a = b)) as [<-|Hne].
    + rewrite lookup_insert_eq in Hy. injection Hy as <-. cbn.
      by rewrite lookup_insert_eq.
    + rewrite lookup_insert_ne in Hy by done.
      destruct (Hw b y Hy) as [k Hk].
      rewrite !lookup_insert. repeat case_decide; eauto.
Qed.

Lemma last_match_Some w uid l : ∀ i j,
  Facade.last_match w uid i l = Some j →
  (j < i)%nat ∧ ∃ a, l !! j = Some a ∧ Facade.uniqueId_of w a = uid.
Proof.
  induction i as [|i IH]; intros j; cbn [Facade.last_match]; [done|].
  destruct (l !! i) as [a|] eqn:Hl.
  - destruct (decide _) as [Hd|Hd].
    + intros [= <-]. split; [lia|eauto].
    + intros H. destruct (IH j H). split; [lia|done].
  - intros H. destruct (IH j H). split; [lia|done].
Qed.

Lemma last_match_None w uid l : ∀ i,
  Facade.last_match w uid i l = None →
  ∀ j a, (j < i)%nat → l !! j = Some a → Facade.uniqueId_of w a ≠ uid.
Proof.
  induction i as [|i IH]; cbn [Facade.last_match]; [intros; lia|].
  destruct (l !! i) as [a|] eqn:Hl.
  - destruct (decide _) as [Hd|Hd]; [done|].
    intros H j b Hj Hb. destruct (decide (j = i)) as [->|Hne].
    + congruence.
    + apply (IH H j b); [lia|done].
  - intros H j b Hj Hb. destruct (decide (j = i)) as [->|Hne]; [congruence|].
    apply (IH H j b); [lia|done].
Qed.

(** What [removePlayer] leaves of the registry. *)
Lemma removePlayer_ok w a x :
  apis w !! a = Some x →
  ∃ l' t, Facade.removePlayer a w = Done tt (w_trace (trace w ++ t) (w_instances l' w))
    ∧ ((l' = instances w ∧ t = []
        ∧ ∀ b, b ∈ instances w → Facade.uniqueId_of w b ≠ Some (uniqueId x))
       ∨ ∃ i b, instances w !! i = Some b
                ∧ Facade.uniqueId_of w b = Some (uniqueId x)
                ∧ l' = delete i (instances w) ∧ t = [Unregistered b]).
Proof.
  intros Hx. unfold Facade.removePlayer.
  rewrite bind_eq, (the_api_ok _ _ _ Hx). cbv beta iota.
  rewrite bind_eq. cbn [gets]. cbv beta iota.
  destruct (Facade.last_match w (Some (uniqueId x)) (length (instances w)) (instances w))
    as [i|] eqn:Hm.
  - destruct (last_match_Some _ _ _ _ _ Hm) as (Hi & b & Hb & Hu).
    exists (delete i (instances w)), [Unregistered b]. split.
    + rewrite Hb. reflexivity.
    + right. eauto 10.
  - exists (instances w), []. split.
    + cbn [mret M_ret]. rewrite app_nil_r. by destruct w.
    + left. repeat split. intros b Hb.
      apply list_elem_of_lookup in Hb as [j Hj].
      eapply last_match_None; [done| |done]. by eapply lookup_lt_Some.
Qed.

Lemma keeps_sound_refl w : keeps_sound w w.
Proof. by intros ?. Qed.

Lemma keeps_sound_trans w1 w2 w3 :
  keeps_sound w1 w2 → keeps_sound w2 w3 → keeps_sound w1 w3.
Proof. unfold keeps_sound. auto. Qed.

Lemma keeps_sound_cosmetic {A} (m : M A) : respects cosmetic m → respects keeps_sound m.
Proof. intros H w Hs. eapply sound_cosmetic; [done|apply H]. Qed.

Lemma sound_registry_shrinks w l t i :
  sound w → l = delete i (instances w) →
  sound (w_trace t (w_instances l w)).
Proof.
  intros (Hi & (Hn & Hr & Hu) & Hw) ->.
  assert (∀ b, b ∈ delete i (instances w) → b ∈ instances w) as Hsub.
  { intros b Hb. by eapply list_elem_of_delete_inv. }
  split; [done|]. split; [split; [|split]|]; world_simpl.
  - eapply sublist_NoDup; [done|apply sublist_delete].
  - intros b Hb. apply Hr, Hsub, Hb.
  - intros b b' y y' Hb Hb'. apply Hu; auto.
  - done.
Qed.

Lemma keeps_sound_removePlayer a : respects keeps_sound (Facade.removePlayer a).
Proof.
  intros w Hs. destruct (apis w !! a) as [x|] eqn:Hx.
  - destruct (removePlayer_ok w a x Hx) as (l' & t & -> & [(-> & -> & _)|(i & b & _ & _ & -> & ->)]).
    + cbn [state_of]. rewrite app_nil_r. by destruct w.
    + cbn [state_of]. by eapply sound_registry_shrinks.
  - unfold Facade.removePlayer. rewrite bind_eq. unfold the_api. by rewrite Hx.
Qed.

Lemma keeps_sound_update_controller c f : respects keeps_sound (update_controller c f).
Proof.
  intros w Hs. destruct (controllers w !! c) as [k|] eqn:Hk.
  2:{ unfold update_controller. rewrite bind_eq. unfold the_controller. by rewrite Hk. }
  rewrite (update_controller_ok _ _ _ _ Hk). cbn [state_of].
  destruct Hs as (Hi & Hr & Hw). split; [done|]. split; [done|].
  intros a x Hx. world_simpl. destruct (Hw a x Hx) as [k' Hk'].
  rewrite lookup_insert. case_decide; subst; eauto.
Qed.

Lemma keeps_sound_resetPlayer a c :
  respects keeps_sound (Facade.resetPlayer playerDestroy a c).
Proof.
  unfold Facade.resetPlayer, Facade.controller_off, Facade.controller_playerDestroy.
  apply (respects_bind _ keeps_sound_trans);
    [apply keeps_sound_cosmetic, cosmetic_off|intros _].
  apply (respects_bind _ keeps_sound_trans).
  { apply (respects_bind _ keeps_sound_trans);
      [apply keeps_sound_update_controller|intros _].
    apply keeps_sound_cosmetic, cosmetic_record. }
  intros _. destruct playerDestroy; [|apply (respects_ret _ keeps_sound_refl)].
  apply (respects_bind _ keeps_sound_trans);
    [apply keeps_sound_update_controller|intros _].
  apply keeps_sound_cosmetic, cosmetic_record.
Qed.

Lemma sound_remove w a :
  sound w → sound (state_of (Facade.remove playerDestroy a w)).
Proof.
  revert w. change (respects keeps_sound (Facade.remove playerDestroy a)).
  unfold Facade.remove.
  apply (respects_bind _ keeps_sound_trans); [apply keeps_sound_removePlayer|intros _].
  apply (respects_bind _ keeps_sound_trans);
    [apply keeps_sound_cosmetic, cosmetic_trigger|intros _].
  apply (respects_bind _ keeps_sound_trans);
    [apply (respects_the_api _ keeps_sound_refl)|intros x].
  apply (respects_bind _ keeps_sound_trans); [apply keeps_sound_resetPlayer|intros _].
  apply (respects_ret _ keeps_sound_refl).
Qed.

Lemma selectPlayer_resolve q w :
  Registry.selectPlayer events strict q w
  = match resolve q w with
    | (Some p, _) => Done (Registry.Player p) w
    | (None, Some e) =>
        (api ← Facade.newApi events e;
         api ← Registry._addPlayer strict api;
         mret (Registry.Player api)) w
    | (None, None) => Done Registry.PluginsOnly w
    end.
Proof.
  unfold Registry.selectPlayer, resolve. rewrite bind_eq.
  destruct (Registry.falsy q) eqn:Hf.
  { rewrite bind_eq. cbn [gets]. cbv beta iota. cbn [mret M_ret].
    by destruct (instances w !! 0%nat). }
  destruct q; try done.
  - rewrite bind_eq. cbn [gets]. cbv beta iota. cbn [mret M_ret]. cbv beta iota.
    by destruct (Registry.index_of_num n ≫= _).
  - unfold Registry._playerById. rewrite !bind_eq. cbn [gets]. cbv beta iota.
    cbn [mret M_ret]. cbv beta iota.
    destruct (find _ (instances w)) as [p|]; [done|].
    unfold Registry.getElementById. rewrite !bind_eq. cbn [gets]. cbv beta iota.
    cbn [mret M_ret]. cbv beta iota.
    by destruct (find _ (document w)).
  - unfold Registry._playerById. rewrite !bind_eq. cbn [gets]. cbv beta iota.
    cbn [mret M_ret]. cbv beta iota.
    by destruct (find _ (instances w)).
Qed.

Lemma find_id_None w s :
  List.find (fun a => bool_decide (Registry.id_of w a = Some s)) (instances w) = None →
  ∀ a x, a ∈ instances w → apis w !! a = Some x → id x ≠ s.
Proof.
  intros Hf a x Ha Hx Hs. subst s. apply list_elem_of_In in Ha.
  pose proof (find_none _ _ Hf a Ha) as Hb. cbn in Hb.
  apply bool_decide_eq_false in Hb. apply Hb. unfold Registry.id_of. by rewrite Hx.
Qed.

Lemma resolve_create q w e :
  resolve q w = (None, Some e) →
  ∀ a x, a ∈ instances w → apis w !! a = Some x → id x ≠ el_id e.
Proof.
  unfold resolve. destruct (Registry.falsy q); [done|].
  destruct q; try done.
  - destruct (find _ (instances w)) eqn:Hf; [done|]. intros [= Hd].
    apply find_some in Hd as [_ He]. apply String.eqb_eq in He. rewrite He.
    by apply find_id_None.
  - destruct (find _ (instances w)) eqn:Hf; [done|]. intros [= <-].
    by apply find_id_None.
Qed.

Lemma addPlayer_ok w api :
  Registry._addPlayer strict api w
  = if strict then Raised TypeError (w_uniqueIndex (S (_uniqueIndex w)) w)
    else Done api
           (w_trace (trace w ++ [Registered api])
              (w_instances (instances w ++ [api])
                 (w_uniqueIndex (S (_uniqueIndex w)) w))).
Proof. unfold Registry._addPlayer. by destruct strict. Qed.

Lemma sound_created w e :
  sound w →
  (∀ a x, a ∈ instances w → apis w !! a = Some x → id x ≠ el_id e) →
  sound (state_of ((api ← Facade.newApi events e;
                    api ← Registry._addPlayer strict api;
                    mret (Registry.Player api)) w)).
Proof.
  intros Hs Hid.
  assert (evolves w (state_of ((api ← Facade.newApi events e;
                    api ← Registry._addPlayer strict api;
                    mret (Registry.Player api)) w))) as He.
  { apply (respects_bind _ evolves_trans); [apply evolves_newApi|intros api].
    unfold Registry._addPlayer. evolve. }
  revert He. rewrite bind_eq, newApi_ok. cbv beta iota.
  rewrite bind_eq, addPlayer_ok. world_simpl.
  set (self := fresh (dom (apis w))). set (c := fresh (dom (controllers w))).
  destruct Hs as (Hi & (Hn & Hr & Hu) & Hw).
  assert (self ∉ instances w) as Hfresh.
  { intros Hin. destruct (Hr _ Hin) as [x Hx]. unfold self in Hx.
    by rewrite fresh_api in Hx. }
  assert (∀ a y z, <[self := z]> (apis w) !! a = Some y → a ≠ self →
            apis w !! a = Some y) as Hold.
  { intros a y z Hy Hne. by rewrite lookup_insert_ne in Hy. }
  assert (∀ a y, <[self := MkApi (instancesCreated w) (el_id e) e
                      {["init" := clock w]} [] c None]> (apis w) !! a = Some y →
            is_Some (<[c := MkController e (bridge_listeners events self) false None]>
                       (controllers w) !! _controller y)) as Hwire.
  { intros a y Hy. destruct (decide (self = a)) as [<-|Hne].
    - rewrite lookup_insert_eq in Hy. injection Hy as <-. cbn.
      by rewrite lookup_insert_eq.
    - rewrite lookup_insert_ne in Hy by done. destruct (Hw a y Hy) as [k Hk].
      rewrite lookup_insert. case_decide; eauto. }
  destruct strict; cbv beta iota; cbn [mret M_ret state_of]; intros He.
  - split; [by eapply ids_sound_evolves|]. split; [split; [|split]|].
    + done.
    + intros a Ha. world_simpl. rewrite lookup_insert. case_decide; [done|by apply Hr].
    + intros a b x y Ha Hb Hx Hy. world_simpl.
      apply Hold in Hx; [|intros ->; done]. apply Hold in Hy; [|intros ->; done].
      by apply Hu.
    + intros a y Hy. world_simpl. by eapply Hwire.
  - split; [by eapply ids_sound_evolves|]. split; [split; [|split]|].
    + world_simpl. apply NoDup_app. split; [done|]. split; [|apply NoDup_singleton].
      intros a Ha ->%list_elem_of_singleton. done.
    + intros a Ha. world_simpl. rewrite lookup_insert. case_decide; [done|].
      apply elem_of_app in Ha as [Ha|Ha%list_elem_of_singleton]; [by apply Hr|done].
    + intros a b x y Ha Hb Hx Hy Hxy. world_simpl.
      destruct (decide (a = self)) as [->|Hna]; destruct (decide (b = self)) as [->|Hnb];
        [done| | |].
      * rewrite lookup_insert_eq in Hx. injection Hx as <-. cbn in Hxy.
        apply Hold in Hy; [|done].
        apply elem_of_app in Hb as [Hb|Hb%list_elem_of_singleton]; [|done].
        exfalso. by apply (Hid b y).
      * rewrite lookup_insert_eq in Hy. injection Hy as <-. cbn in Hxy.
        apply Hold in Hx; [|done].
        apply elem_of_app in Ha as [Ha|Ha%list_elem_of_singleton]; [|done].
        exfalso. by apply (Hid a x).
      * apply Hold in Hx; [|done]. apply Hold in Hy; [|done].
        apply elem_of_app in Ha as [Ha|Ha%list_elem_of_singleton]; [|done].
        apply elem_of_app in Hb as [Hb|Hb%list_elem_of_singleton]; [|done].
        by apply (Hu a b x y).
    + intros a y Hy. world_simpl. by eapply Hwire.
Qed.

Lemma sound_selectPlayer w q :
  sound w → sound (state_of (Registry.selectPlayer events strict q w)).
Proof.
  intros Hs. rewrite selectPlayer_resolve.
  destruct (resolve q w) as [[p|] [e|]] eqn:Hr; try done.
  apply sound_created; [done|]. by eapply resolve_create.
Qed.

Lemma sound_step o w :
  sound w → sound (Run.step events playerDestroy strict o w).
Proof.
  intros Hs. destruct o; cbn [Run.step];
    first [ by apply sound_selectPlayer | by apply sound_setup | by apply sound_remove
          | eapply sound_cosmetic; [done|];
            first [ apply cosmetic_on | apply cosmetic_once | apply cosmetic_off
                  | apply cosmetic_trigger | apply cosmetic_addPlugin
                  | apply cosmetic_emit | apply cosmetic_wait ] ].
Qed.

Lemma sound_initial doc dbg : sound (initial doc dbg).
Proof.
  unfold initial.
  split; [split|split; [split; [|split]|]]; world_simpl.
  - intros a x H. by rewrite lookup_empty in H.
  - intros a b x y H. by rewrite lookup_empty in H.
  - apply NoDup_nil_2.
  - intros a H. by apply elem_of_nil in H.
  - intros a b x y H. by apply elem_of_nil in H.
  - intros a x H. world_simpl. by rewrite lookup_empty in H.
Qed.

Lemma sound_run ops : ∀ w,
  sound w → sound (Run.run events playerDestroy strict ops w).
Proof.
  induction ops as [|o ops IH]; intros w Hs; cbn [Run.run fold_left]; [done|].
  apply IH. by apply sound_step.
Qed.

End Sound.

Section Bridge.
Variable events : string → string.
Variable playerDestroy : bool.
Variable strict : bool.



Lemma addPlugin_resize_throws w self x n p h :
  apis w !! self = Some x → resize p = Some h →
  Facade.addPlugin self n p w
  = Raised TypeError
      (w_trace (trace w ++ [Attached (OnApi self) "ready"])
         (w_apis (<[self := MkApi (uniqueId x) (id x) (api_element x) (_qoe x)
                              (_events x ++ [Events.Listener "ready" (addToPlayer p) false])
                              (_controller x)
                              (Some (<[n := p]> (default ∅ (plugins x))))]> (apis w))
            w)).
Proof.
  intros Hx Hr. unfold Facade.addPlugin.
  rewrite bind_eq. erewrite update_api_ok by done. cbv beta iota.
  rewrite bind_eq. erewrite on_ok by (world_simpl; apply lookup_insert_eq).
  cbv beta iota. rewrite Hr.
  cbn [JS.member lift mret M_ret JS.get_prop]. rewrite bind_eq. cbv beta iota.
  cbn. rewrite insert_insert_eq. reflexivity.
Qed.

Lemma addPlugin_plain w self x n p :
  apis w !! self = Some x → resize p = None →
  Facade.addPlugin self n p w
  = Done tt
      (w_trace (trace w ++ [Attached (OnApi self) "ready"])
         (w_apis (<[self := MkApi (uniqueId x) (id x) (api_element x) (_qoe x)
                              (_events x ++ [Events.Listener "ready" (addToPlayer p) false])
                              (_controller x)
                              (Some (<[n := p]> (default ∅ (plugins x))))]> (apis w))
            w)).
Proof.
  intros Hx Hr. unfold Facade.addPlugin.
  rewrite bind_eq. erewrite update_api_ok by done. cbv beta iota.
  rewrite bind_eq. erewrite on_ok by (world_simpl; apply lookup_insert_eq).
  cbv beta iota. rewrite Hr. cbn [mret M_ret]. world_simpl.
  cbn. rewrite insert_insert_eq. reflexivity.
Qed.




End Bridge.


Section Remove.
Variable playerDestroy : bool.

Lemma call_ok w self x n args l :
  apis w !! self = Some x →
  let w' := w_trace (trace w ++ [Delivered self (fn (Events.l_callback l)) n args])
              (w_apis (<[self := with_events
                           (if Events.l_once l
                            then Events.unbind callback_eqb l (_events x)
                            else _events x) x]> (apis w)) w) in
  Facade.call self n args l w
  = if throws (Events.l_callback l) then Raised ListenerError w' else Done tt w'.
Proof.
  intros Hx w'. unfold Facade.call. rewrite bind_eq.
  destruct (Events.l_once l) eqn:Ho.
  - erewrite update_api_ok by done. cbv beta iota. rewrite bind_eq.
    unfold record, modify. cbv beta iota. world_simpl.
    by destruct (throws _).
  - cbn [mret M_ret]. cbv beta iota. rewrite bind_eq.
    unfold record, modify. cbv beta iota. world_simpl.
    unfold w'. rewrite with_events_same, insert_id by done.
    destruct (throws _); cbn [throw mret M_ret]; by destruct w.
Qed.

Lemma deliver_quiet self n args (dbg : bool) : ∀ ls w x,
  apis w !! self = Some x →
  negb dbg || forallb (fun l => negb (throws (Events.l_callback l))) ls = true →
  ∃ evs,
    foreach ls (fun l => if dbg then Facade.call self n args l
                         else swallow (Facade.call self n args l)) w
    = Done tt
        (w_trace (trace w ++ map (fun l => Delivered self (fn (Events.l_callback l)) n args) ls)
           (w_apis (<[self := with_events evs x]> (apis w)) w)).
Proof.
  induction ls as [|l ls IH]; intros w x Hx Hq.
  - exists (_events x). cbn [foreach map mret M_ret].
    rewrite app_nil_r, with_events_same, insert_id by done. by destruct w.
  - cbn [foreach]. rewrite bind_eq.
    assert ((if dbg then Facade.call self n args l
             else swallow (Facade.call self n args l)) w
            = Done tt (w_trace (trace w ++ [Delivered self (fn (Events.l_callback l)) n args])
                (w_apis (<[self := with_events
                           (if Events.l_once l
                            then Events.unbind callback_eqb l (_events x)
                            else _events x) x]> (apis w)) w))) as ->.
    { destruct dbg.
      - rewrite (call_ok _ _ _ _ _ _ Hx). cbn in Hq.
        apply andb_true_iff in Hq as [Hq _]. apply negb_true_iff in Hq. by rewrite Hq.
      - unfold swallow. rewrite (call_ok _ _ _ _ _ _ Hx). by destruct (throws _). }
    cbv beta iota.
    set (x1 := with_events (if Events.l_once l
                            then Events.unbind callback_eqb l (_events x)
                            else _events x) x).
    destruct (IH (w_trace (trace w ++ [Delivered self (fn (Events.l_callback l)) n args])
                    (w_apis (<[self := x1]> (apis w)) w)) x1) as [evs ->].
    { world_simpl. apply lookup_insert_eq. }
    { destruct dbg; [|done]. cbn in Hq |- *. by apply andb_true_iff in Hq as [_ Hq]. }
    exists evs. subst x1. world_simpl. cbn [map with_events uniqueId id api_element _qoe
                                   _controller plugins].
    rewrite insert_insert_eq, <- app_assoc. reflexivity.
Qed.

Lemma trigger_quiet w self x n :
  apis w !! self = Some x → quiet w n x = true →
  ∃ evs, Facade.trigger self n VUndef w
         = Done self (w_trace (trace w ++ notified self n x)
                        (w_apis (<[self := with_events evs x]> (apis w)) w)).
Proof.
  intros Hx Hq. unfold Facade.trigger. cbn [JS.isObject].
  rewrite bind_eq. cbn [gets]. cbv beta iota. rewrite bind_eq.
  unfold Facade.Events_trigger, Facade.Events_triggerSafe, quiet in *.
  destruct (debug w) eqn:Hd.
  - destruct (deliver_quiet self n (<["type" := VStr n]> ∅) true
                (Events.reached n (_events x)) w x Hx Hq) as [evs He].
    exists evs. rewrite bind_eq, (the_api_ok _ _ _ Hx). cbv beta iota in He |- *.
    match goal with |- match ?t with _ => _ end = _ => change t with
      (foreach (Events.reached n (_events x))
         (fun l => Facade.call self n (<["type" := VStr n]> ∅) l) w) end.
    rewrite He. reflexivity.
  - destruct (deliver_quiet self n (<["type" := VStr n]> ∅) false
                (Events.reached n (_events x)) w x Hx Hq) as [evs He].
    exists evs. rewrite bind_eq, (the_api_ok _ _ _ Hx). cbv beta iota in He |- *.
    rewrite He. reflexivity.
Qed.

Lemma NoDup_delete_lookup (l : list nat) : ∀ i a,
  NoDup l → l !! i = Some a → a ∉ delete i l.
Proof.
  induction l as [|b l IH]; intros i a Hn Hl; [done|].
  apply NoDup_cons in Hn as [Hb Hn]. destruct i as [|i]; cbn in *.
  - by injection Hl as ->.
  - apply not_elem_of_cons. split; [|by apply IH].
    intros ->. apply Hb. by eapply list_elem_of_lookup_2.
Qed.

Lemma remove_ok w self x oc :
  sound w → wired w self x oc → quiet w "remove" x = true →
  ∃ l' t,
    Facade.remove playerDestroy self w
    = Done self
        (w_trace (trace w ++ t ++ notified self "remove" x
                    ++ teardown_actions playerDestroy self (_controller x))
           (w_controllers (<[_controller x := torn_down playerDestroy oc]> (controllers w))
              (w_apis (<[self := with_events [] x]> (apis w))
                 (w_instances l' w))))
    ∧ self ∉ l'
    ∧ (∀ b, b ≠ self → b ∈ l' ↔ b ∈ instances w)
    ∧ t = (if bool_decide (self ∈ instances w) then [Unregistered self] else [])
    ∧ (self ∉ instances w → l' = instances w).
Proof.
  intros (Hi & (Hn & Hr & Hu) & Hw) [Hx Hc] Hq.
  destruct (removePlayer_ok w self x Hx) as (l' & t & E1 & Hcase).
  assert (∀ b, b ∈ instances w → Facade.uniqueId_of w b = Some (uniqueId x) → b = self)
    as Honly.
  { intros b Hb Hub. destruct (Hr b Hb) as [y Hy]. unfold Facade.uniqueId_of in Hub.
    rewrite Hy in Hub. injection Hub as Hub. destruct Hi as [_ Hinj].
    by apply (Hinj b self y x). }
  exists l', t. split.
  - unfold Facade.remove. rewrite bind_eq, E1. cbv beta iota.
    edestruct (trigger_quiet (w_trace (trace w ++ t) (w_instances l' w)) self x "remove")
      as [evs E2]; [exact Hx|exact Hq|].
    rewrite bind_eq, E2. cbv beta iota.
    rewrite bind_eq. erewrite the_api_ok by (world_simpl; apply lookup_insert_eq).
    cbv beta iota. cbn [_controller with_events]. rewrite bind_eq.
    erewrite resetPlayer_ok;
      [|world_simpl; apply lookup_insert_eq|world_simpl; exact Hc].
    cbv beta iota. cbn [mret M_ret]. world_simpl. cbn [with_events uniqueId id
      api_element _qoe _controller plugins].
    rewrite insert_insert_eq, <- !app_assoc. reflexivity.
  - destruct Hcase as [(-> & -> & Hnone)|(i & b & Hib & Hub & -> & ->)].
    + assert (self ∉ instances w) as Hnot.
      { intros Hin. apply (Hnone self Hin). unfold Facade.uniqueId_of. by rewrite Hx. }
      split; [done|]. split; [done|]. split; [|done].
      by rewrite bool_decide_eq_false_2.
    + assert (b = self) as ->.
      { apply Honly; [by eapply list_elem_of_lookup_2|done]. }
      assert (self ∈ instances w) as Hin by (by eapply list_elem_of_lookup_2).
      split; [by apply NoDup_delete_lookup|]. split; [|split].
      * intros b Hb. split; [apply list_elem_of_delete_inv|].
        intros Hbin. apply list_elem_of_lookup in Hbin as [j Hj].
        assert (j ≠ i) as Hji by (intros ->; congruence).
        apply list_elem_of_lookup.
        destruct (decide (j < i)%nat).
        -- exists j. by rewrite list_lookup_delete_lt.
        -- exists (pred j). rewrite list_lookup_delete_ge by lia.
           replace (S (pred j)) with j by lia. done.
      * by rewrite bool_decide_eq_true_2.
      * done.
Qed.


Lemma remove_twice w self x :
  sound w → apis w !! self = Some x → quiet w "remove" x = true →
  ∃ w1 w2,
    Facade.remove playerDestroy self w = Done self w1
    ∧ self ∉ instances w1
    ∧ (∀ b, b ≠ self → b ∈ instances w1 ↔ b ∈ instances w)
    ∧ trace w1
      = (trace w
           ++ (if bool_decide (self ∈ instances w) then [Unregistered self] else [])
           ++ notified self "remove" x
           ++ teardown_actions playerDestroy self (_controller x))%list
    ∧ Facade.remove playerDestroy self w1 = Done self w2
    ∧ instances w2 = instances w1
    ∧ trace w2
      = (trace w1 ++ teardown_actions playerDestroy self (_controller x))%list.
Proof.
  intros Hs Hx Hq.
  destruct (proj2 (proj2 Hs) self x Hx) as [oc Hc].
  destruct (remove_ok w self x oc Hs (conj Hx Hc) Hq)
    as (l1 & t1 & E1 & N1 & B1 & -> & _).
  pose proof (sound_remove playerDestroy w self Hs) as Hs1.
  rewrite E1 in Hs1. cbn [state_of] in Hs1.
  match type of E1 with _ = Done _ ?s => set (w1 := s) in * end.
  assert (apis w1 !! self = Some (with_events [] x)) as Hx1.
  { unfold w1. world_simpl. apply lookup_insert_eq. }
  assert (controllers w1 !! _controller x = Some (torn_down playerDestroy oc)) as Hc1.
  { unfold w1. world_simpl. apply lookup_insert_eq. }
  assert (quiet w1 "remove" (with_events [] x) = true) as Hq1.
  { unfold quiet. cbn. apply orb_true_r. }
  destruct (remove_ok w1 self (with_events [] x) (torn_down playerDestroy oc) Hs1
              (conj Hx1 Hc1) Hq1) as (l2 & t2 & E2 & _ & _ & -> & I2).
  assert (instances w1 = l1) as Hi1 by reflexivity.
  rewrite Hi1 in I2. specialize (I2 N1). subst l2.
  exists w1. eexists. split; [exact E1|]. split; [by rewrite Hi1|].
  split; [by rewrite Hi1|]. split; [reflexivity|].
  split; [exact E2|]. split; [reflexivity|].
  cbn [trace w_trace]. rewrite Hi1, bool_decide_eq_false_2 by done.
  reflexivity.
Qed.

End Remove.

(** ** Main results *)

(** *** The configuration normalizer *)

(** C2, as stated, fails: a playlist supplied as an empty list is truthy, so
    neither branch of the playlist resolution applies and the result keeps
    the empty list. *)
Lemma C2_supplied_empty_playlist_stays_empty :
  ∃ cfg,
    Example.createConfig VUndef (Example.obj [("playlist", VArr [])]) None = Ok cfg
    ∧ JS.get cfg "playlist" = VArr []
    ∧ ¬ nonempty_list (JS.get cfg "playlist").
Proof.
  apply outcome_Ok. vm_compute. split; [reflexivity|]. intros [].
Qed.

(** C2, amended.  For every options mapping, [createConfig] returns a
    configuration whenever the merged configuration conforms to the option
    schema, and in every configuration it returns the playlist is: the
    one-item list made of the allow-listed top-level fields when the merged
    playlist is missing or falsy; the nested list when the playlist is a
    feed object carrying one; and otherwise the playlist as supplied. *)
Theorem C2_playlist_resolution
    (serialize : value → value) (exists_ : value → bool)
    (scriptPath loadFrom protocol : string) (window_jwplayer options : value)
    (storage : option value) :
  let m := Config.mergeConfig serialize window_jwplayer options
             (Config.persisted_of storage) in
  (conforms m = true →
   ∃ cfg,
     Config.createConfig serialize exists_ scriptPath loadFrom protocol
       window_jwplayer options storage = Ok cfg)
  ∧ ∀ cfg,
      Config.createConfig serialize exists_ scriptPath loadFrom protocol
        window_jwplayer options storage = Ok cfg →
      JS.get cfg "playlist" = resolved_playlist m.
Proof.
  intros m. split.
  - apply createConfig_returns.
  - intros cfg E. by destruct (createConfig_result _ _ _ _ _ _ _ _ cfg E) as (_ & P & _).
Qed.

(** The empty options object yields a playlist of exactly one item. *)
Lemma C2_playlist_resolution_witness :
  conforms (Config.mergeConfig Example.serialize VUndef (VObj ∅) VUndef) = true
  ∧ ∃ cfg,
      Example.createConfig VUndef (VObj ∅) None = Ok cfg
      ∧ JS.get cfg "playlist" = VArr [VObj ∅].
Proof.
  split; [vm_compute; reflexivity|].
  destruct (C2_playlist_resolution Example.serialize Example.exists_
              Example.scriptPath Example.loadFrom Example.protocol
              VUndef (VObj ∅) None) as [R P].
  destruct R as [cfg E]; [vm_compute; reflexivity|].
  exists cfg. split; [exact E|]. rewrite (P cfg E). vm_compute; reflexivity.
Defined.

(** C3.  The code keeps a ratio whose components are not numbers: for
    [{width: "50%", aspectratio: "a:b"}] both [parseFloat] results are [NaN],
    neither [w <= 0] nor [h <= 0] holds, and the result is the string
    ["NaN%"], which stays in the configuration. *)
Theorem C3_nan_ratio_is_kept :
  Config._evaluateAspectRatio Example.exists_ (VStr "a:b") (VStr "50%")
  = Ok (VStr "NaN%")
  ∧ ∃ cfg,
      Example.createConfig VUndef
        (Example.obj [("width", VStr "50%"); ("aspectratio", VStr "a:b")]) None
      = Ok cfg
      ∧ cfg !! "aspectratio" = Some (VStr "NaN%").
Proof.
  split; [vm_compute; reflexivity|].
  apply outcome_Ok. vm_compute. reflexivity.
Qed.

(** What C3 says of well-formed input holds: ["16:9"] at a percentage width
    gives ["56.25%"], and at a width in pixels the field is dropped. *)
Lemma aspectratio_examples :
  (∃ cfg, Example.createConfig VUndef
            (Example.obj [("width", VStr "50%"); ("aspectratio", VStr "16:9")]) None
          = Ok cfg
          ∧ cfg !! "aspectratio" = Some (VStr "56.25%"))
  ∧ (∃ cfg, Example.createConfig VUndef
              (Example.obj [("width", VStr "400px"); ("aspectratio", VStr "16:9")]) None
            = Ok cfg
            ∧ cfg !! "aspectratio" = None).
Proof.
  split; apply outcome_Ok; vm_compute; reflexivity.
Qed.

(** C4, as stated, fails: with every rate out of range the feature is
    disabled, and the result does have a [playbackRates] field, set to
    [false]. *)
Lemma C4_disabled_rates_field_is_present :
  ∃ cfg,
    Example.createConfig VUndef
      (Example.obj [("playbackRateControls",
                     VArr [JS.num_lit "0.1"; JS.num_lit "10"])]) None
    = Ok cfg
    ∧ cfg !! "playbackRateControls" = Some (VBool false)
    ∧ cfg !! "playbackRates" = Some (VBool false)
    ∧ cfg !! "playbackRates" ≠ None.
Proof. apply outcome_Ok. vm_compute. repeat split; done. Qed.

(** C4, amended.  For every options mapping, [createConfig] returns a
    configuration whenever the merged configuration conforms to the option
    schema, and in every configuration it returns [playbackRateControls] is
    [resolved_controls] of the merged value (the fixed list for [true], the
    entries in range for a list or [false] when none is, [false] for any
    other truthy value, the value itself when falsy), and [playbackRates]
    is always present: the resolved list when the feature is enabled, else
    the caller's own truthy [playbackRates] or [false]. *)
Theorem C4_playback_rates_resolution
    (serialize : value → value) (exists_ : value → bool)
    (scriptPath loadFrom protocol : string) (window_jwplayer options : value)
    (storage : option value) :
  let m := Config.mergeConfig serialize window_jwplayer options
             (Config.persisted_of storage) in
  (conforms m = true →
   ∃ cfg,
     Config.createConfig serialize exists_ scriptPath loadFrom protocol
       window_jwplayer options storage = Ok cfg)
  ∧ ∀ cfg,
      Config.createConfig serialize exists_ scriptPath loadFrom protocol
        window_jwplayer options storage = Ok cfg →
      JS.get cfg "playbackRateControls"
      = resolved_controls (JS.get m "playbackRateControls")
      ∧ cfg !! "playbackRates"
        = Some (resolved_rates (JS.get m "playbackRateControls")
                               (JS.get m "playbackRates")).
Proof.
  intros m. split.
  - apply createConfig_returns.
  - intros cfg E.
    by destruct (createConfig_result _ _ _ _ _ _ _ _ cfg E) as (_ & _ & C & R).
Qed.

(** Out-of-range entries are dropped and the list is mirrored. *)
Lemma C4_playback_rates_resolution_witness :
  let options :=
    Example.obj [("playbackRateControls",
                  VArr [JS.num_lit "0.1"; JS.num_lit "1"; JS.num_lit "10";
                        JS.num_lit "2"])] in
  conforms (Config.mergeConfig Example.serialize VUndef options VUndef) = true
  ∧ ∃ cfg,
      Example.createConfig VUndef options None = Ok cfg
      ∧ JS.get cfg "playbackRateControls" = VArr [JS.num_lit "1"; JS.num_lit "2"]
      ∧ cfg !! "playbackRates" = Some (VArr [JS.num_lit "1"; JS.num_lit "2"]).
Proof.
  intros options. split; [vm_compute; reflexivity|].
  destruct (C4_playback_rates_resolution Example.serialize Example.exists_
              Example.scriptPath Example.loadFrom Example.protocol
              VUndef options None) as [Ret Res].
  destruct Ret as [cfg E]; [vm_compute; reflexivity|].
  destruct (Res cfg E) as [C R].
  exists cfg. split; [exact E|]. split.
  - rewrite C. vm_compute; reflexivity.
  - rewrite R. vm_compute; reflexivity.
Defined.

(** The cases of the resolution, spelled out. *)
Lemma resolved_controls_cases :
  resolved_controls (VBool true) = VArr Config.defaultRates
  ∧ (∀ l, resolved_controls (VArr l)
          = match List.filter Config.validRatesFilter l with
            | [] => VBool false
            | kept => VArr kept
            end)
  ∧ (∀ s, s ≠ "" → resolved_controls (VStr s) = VBool false)
  ∧ (∀ o, resolved_controls (VObj o) = VBool false)
  ∧ (∀ v, JS.truthy v = false → resolved_controls v = v).
Proof.
  repeat split; try done.
  - intros s Hs. unfold resolved_controls. cbn.
    apply String.eqb_neq in Hs. by rewrite Hs.
  - intros v Hv. unfold resolved_controls. by rewrite Hv.
Qed.

(** C5, as stated, fails: a translation the explicit options omit does not
    fall back to the process-wide defaults but to the built-in string,
    because the explicit [localization] replaces the one of the process-wide
    defaults as a whole before the built-in strings are merged in. *)
Lemma C5_localization_skips_process_defaults :
  ∃ cfg,
    Example.createConfig
      (Example.obj
         [("defaults",
           Example.obj [("localization", Example.obj [("play", VStr "Jouer")])])])
      (Example.obj [("localization", Example.obj [("pause", VStr "Pausa")])])
      None
    = Ok cfg
    ∧ JS.get_prop (JS.get cfg "localization") "pause" = VStr "Pausa"
    ∧ JS.get_prop (JS.get cfg "localization") "play" = VStr "Play"
    ∧ JS.get_prop (JS.get cfg "localization") "play" ≠ VStr "Jouer".
Proof. apply outcome_Ok. vm_compute. repeat split; done. Qed.

(** C5, amended.  For every options mapping, [createConfig] returns a
    configuration whenever the merged configuration conforms to the option
    schema, and in every configuration it returns every key that no later
    step derives takes the deserialized value of the highest layer that has
    it: explicit options, else persisted values, else process-wide defaults,
    else the built-in default; the derived fields are computed from the
    configuration merged in this way.  The [localization] of the result is a
    two-layer merge: the entries of the one [localization] that wins that
    shallow merge, over the built-in strings. *)
Theorem C5_merge_precedence
    (serialize : value → value) (exists_ : value → bool)
    (scriptPath loadFrom protocol : string) (window_jwplayer options : value)
    (storage : option value) :
  let persisted := Config.persisted_of storage in
  let defaults := JS.get_prop (JS.or_else window_jwplayer (VObj ∅)) "defaults" in
  let supplied k :=
    serialize <$> or_opt (layer options !! k)
                    (or_opt (layer persisted !! k) (layer defaults !! k)) in
  let winning := layer (default VUndef (supplied "localization")) in
  let merged k :=
    if bool_decide (k = "localization")
    then Some (VObj (winning ∪ Config.Defaults_localization))
    else or_opt (supplied k) (Config.Defaults !! k) in
  let m := Config.mergeConfig serialize window_jwplayer options persisted in
  (conforms m = true →
   ∃ cfg,
     Config.createConfig serialize exists_ scriptPath loadFrom protocol
       window_jwplayer options storage = Ok cfg)
  ∧ (∀ cfg,
       Config.createConfig serialize exists_ scriptPath loadFrom protocol
         window_jwplayer options storage = Ok cfg →
       ∀ k, k ∉ derived_keys → cfg !! k = merged k)
  ∧ (∀ k, m !! k = merged k)
  ∧ ∀ s, (winning ∪ Config.Defaults_localization) !! s
         = or_opt (winning !! s) (Config.Defaults_localization !! s).
Proof.
  intros persisted defaults supplied winning merged m.
  assert (∀ k, m !! k = merged k) as Hmerged.
  { intros k. unfold m. rewrite mergeConfig_lookup. unfold merged, winning, JS.get.
    by rewrite !allOptions_lookup. }
  split; [|split; [|split]].
  - apply createConfig_returns.
  - intros cfg E k Hk. rewrite <- Hmerged.
    destruct (createConfig_result _ _ _ _ _ _ _ _ cfg E) as (T & _). by apply T.
  - exact Hmerged.
  - intros s. apply lookup_union_or.
Qed.

(** Four layers at work: the volume is the persisted one, over the
    process-wide one; muting comes from the process-wide defaults, the
    stretching from the call, the controls from the built-in defaults; and
    in the string table the translation of the call stands next to the
    built-in string the call left out. *)
Lemma C5_merge_precedence_witness :
  let window_jwplayer :=
    Example.obj
      [("defaults",
        Example.obj [("localization", Example.obj [("play", VStr "Jouer")]);
                     ("volume", JS.num_lit "50"); ("mute", VBool true)])] in
  let options :=
    Example.obj [("localization", Example.obj [("pause", VStr "Pausa")]);
                 ("stretching", VStr "fill")] in
  let storage := Some (Example.obj [("volume", JS.num_lit "70")]) in
  conforms (Config.mergeConfig Example.serialize window_jwplayer options
              (Config.persisted_of storage)) = true
  ∧ ∃ cfg,
      Example.createConfig window_jwplayer options storage = Ok cfg
      ∧ cfg !! "volume" = Some (JS.num_lit "70")
      ∧ cfg !! "mute" = Some (VBool true)
      ∧ cfg !! "stretching" = Some (VStr "fill")
      ∧ cfg !! "controls" = Some (VBool true)
      ∧ JS.get_prop (JS.get cfg "localization") "pause" = VStr "Pausa"
      ∧ JS.get_prop (JS.get cfg "localization") "play" = VStr "Play".
Proof.
  assert (∀ k, k ∈ ["volume"; "mute"; "stretching"; "controls"; "localization"]
               → k ∉ derived_keys) as D.
  { intros k Hk. unfold derived_keys, keys_front, keys_rates, keys_tail.
    cbn [app]. cases_in Hk; not_in_list. }
  intros window_jwplayer options storage.
  assert (conforms (Config.mergeConfig Example.serialize window_jwplayer options
                      (Config.persisted_of storage)) = true) as Hm
    by (vm_compute; reflexivity).
  split; [exact Hm|].
  destruct (C5_merge_precedence Example.serialize Example.exists_
              Example.scriptPath Example.loadFrom Example.protocol
              window_jwplayer options storage) as (Ret & K & M & _).
  destruct (Ret Hm) as [cfg E].
  assert (∀ k, k ∉ derived_keys
               → cfg !! k = Config.mergeConfig Example.serialize window_jwplayer
                              options (Config.persisted_of storage) !! k) as F.
  { intros k Hk. by rewrite (K cfg E k Hk), M. }
  assert (∀ k, k ∉ derived_keys
               → JS.get cfg k = JS.get (Config.mergeConfig Example.serialize
                                          window_jwplayer options
                                          (Config.persisted_of storage)) k) as G.
  { intros k Hk. unfold JS.get. f_equal. by apply F. }
  exists cfg. split; [exact E|].
  repeat split.
  - eapply eq_trans; [apply F, D; in_list|vm_compute; reflexivity].
  - eapply eq_trans; [apply F, D; in_list|vm_compute; reflexivity].
  - eapply eq_trans; [apply F, D; in_list|vm_compute; reflexivity].
  - eapply eq_trans; [apply F, D; in_list|vm_compute; reflexivity].
  - eapply eq_trans; [apply (f_equal (λ v, JS.get_prop v "pause")), G, D; in_list|].
    vm_compute; reflexivity.
  - eapply eq_trans; [apply (f_equal (λ v, JS.get_prop v "play")), G, D; in_list|].
    vm_compute; reflexivity.
Defined.

(** *** The facade *)

Local Open Scope nat_scope.






(** C7, as stated, fails: with the debug flag set, a listener of the remove
    notification that throws makes [remove] throw after the unregistration;
    the teardown is not reached, the listener stays bound, and a second
    [remove] throws again. *)
Lemma C7_remove_propagates_listener_fault :
  ∃ w1 w2 x1,
    Facade.remove true 0 Scenario.debugging = Raised ListenerError w1
    ∧ instances w1 = []
    ∧ apis w1 !! 0%nat = Some x1
    ∧ _events x1 = [Events.Listener "remove" Scenario.faulty_fn false]
    ∧ DetachedAll (OnApi 0) ∉ trace w1
    ∧ Facade.remove true 0 w1 = Raised ListenerError w2.
Proof.
  eexists _, _, _. split; [vm_compute; reflexivity|]. split; [reflexivity|].
  split; [vm_compute; reflexivity|]. split; [reflexivity|].
  split; [|vm_compute; reflexivity].
  cbn [trace]. rewrite !not_elem_of_cons. repeat split; try discriminate.
  apply not_elem_of_nil.
Qed.

(** C7, amended.  In every state the program can reach, for every facade,
    if no exception leaves the remove notification (the debug flag is off,
    or no listener reached throws), then [remove] returns, having, in this
    order, taken the facade out of the registry, called the listeners of
    the notification that were bound at that moment, and torn down facade
    and engine; the registry then no longer has the facade and has kept all
    the others; and a second [remove] returns too, leaves the registry as
    it is, calls no listener, and only repeats the teardown. *)
Theorem C7_remove_twice
    (events : string → string) (playerDestroy strict : bool)
    (doc : list element) (dbg : bool) (ops : list Run.op)
    (self : nat) (x : Api) :
  let w := Run.run events playerDestroy strict ops (initial doc dbg) in
  apis w !! self = Some x →
  quiet w "remove" x = true →
  ∃ w1 w2,
    Facade.remove playerDestroy self w = Done self w1
    ∧ self ∉ instances w1
    ∧ (∀ b, b ≠ self → b ∈ instances w1 ↔ b ∈ instances w)
    ∧ trace w1
      = (trace w
           ++ (if bool_decide (self ∈ instances w) then [Unregistered self] else [])
           ++ notified self "remove" x
           ++ teardown_actions playerDestroy self (_controller x))%list
    ∧ Facade.remove playerDestroy self w1 = Done self w2
    ∧ instances w2 = instances w1
    ∧ trace w2
      = (trace w1 ++ teardown_actions playerDestroy self (_controller x))%list.
Proof.
  intros w Hx Hq.
  assert (sound w) as Hs by apply sound_run, sound_initial.
  apply (remove_twice playerDestroy w self x Hs Hx Hq).
Qed.

Lemma C7_remove_twice_witness :
  let ops := [Run.Select (Registry.QElement Scenario.video);
              Run.On 0 "remove" Scenario.listener_fn] in
  let w := Run.run Scenario.events true false ops (initial Scenario.page false) in
  let x := with_events [Events.Listener "remove" Scenario.listener_fn false]
             Scenario.live_api in
  apis w !! 0%nat = Some x
  ∧ quiet w "remove" x = true
  ∧ ∃ w1 w2,
      Facade.remove true 0 w = Done 0%nat w1
      ∧ instances w = [0%nat] ∧ instances w1 = []
      ∧ Facade.remove true 0 w1 = Done 0%nat w2
      ∧ instances w2 = [].
Proof.
  intros ops w x.
  assert (apis w !! 0%nat = Some x) as Hx by (vm_compute; reflexivity).
  assert (quiet w "remove" x = true) as Hq by (vm_compute; reflexivity).
  split; [exact Hx|]. split; [exact Hq|].
  destruct (C7_remove_twice Scenario.events true false Scenario.page false ops 0 x Hx Hq)
    as (w1 & w2 & E1 & N1 & _ & _ & E2 & I2 & _).
  assert (instances w1 = []) as I1.
  { fold w in E1. vm_compute in E1. injection E1 as <-. reflexivity. }
  exists w1, w2. split; [exact E1|]. split; [vm_compute; reflexivity|].
  split; [exact I1|]. split; [exact E2|]. by rewrite I2.
Defined.

(** C10.  When the plugin exposes [resize], [addPlugin] throws: the
    argument of [this.on] is written ['resize'. pluginInstance.resizeHandler],
    which reads [resizeHandler] of the undefined property [pluginInstance]
    of a string.  By then the plugin is recorded and [addToPlayer] is
    subscribed to the ready event; nothing is subscribed to the resize
    event. *)
Theorem C10_addPlugin_with_resize_throws
    (w : world) (self : nat) (x : Api) (n : string) (p : pluginInstance)
    (h : callback) :
  apis w !! self = Some x →
  resize p = Some h →
  ∃ w' x',
    Facade.addPlugin self n p w = Raised TypeError w'
    ∧ apis w' !! self = Some x'
    ∧ plugins x' = Some (<[n := p]> (default ∅ (plugins x)))
    ∧ _events x' = (_events x ++ [Events.Listener "ready" (addToPlayer p) false])%list
    ∧ trace w' = (trace w ++ [Attached (OnApi self) "ready"])%list.
Proof.
  intros Hx Hr. eexists _, _.
  split; [exact (addPlugin_resize_throws w self x n p h Hx Hr)|].
  world_simpl. split; [apply lookup_insert_eq|]. repeat split.
Qed.

Lemma C10_addPlugin_with_resize_throws_witness :
  apis Scenario.live !! 0%nat = Some Scenario.live_api
  ∧ resize Scenario.resizing_plugin = Some (Callback 2 false)
  ∧ ∃ w' x',
      Facade.addPlugin 0 "sharing" Scenario.resizing_plugin Scenario.live
      = Raised TypeError w'
      ∧ apis w' !! 0%nat = Some x'
      ∧ _events x' = [Events.Listener "ready" (Callback 1 false) false].
Proof.
  assert (apis Scenario.live !! 0%nat = Some Scenario.live_api) as Hx
    by (vm_compute; reflexivity).
  split; [exact Hx|]. split; [reflexivity|].
  destruct (C10_addPlugin_with_resize_throws Scenario.live 0 Scenario.live_api
              "sharing" Scenario.resizing_plugin (Callback 2 false) Hx eq_refl)
    as (w' & x' & E & A & _ & B & _).
  exists w', x'. split; [exact E|]. split; [exact A|]. exact B.
Defined.

(** *** The registry *)






(** ** Further results *)

Import ConfigShape EmissionSpec RegistrySteps.

(** *** The configuration normalizer, field by field *)

Local Open Scope Z_scope.

(** ** Strings *)

Lemma str_length_app (s t : string) :
  String.length (s ++ t) = (String.length s + String.length t)%nat.
Proof. induction s as [|c s IH]; simpl; [done|by rewrite IH]. Qed.

Lemma substring_whole (s : string) : String.substring 0 (String.length s) s = s.
Proof. induction s as [|c s IH]; simpl; [done|by rewrite IH]. Qed.

Lemma substring_prefix (s t : string) :
  String.substring 0 (String.length s) (s ++ t) = s.
Proof. induction s as [|c s IH]; simpl; [by destruct t|by rewrite IH]. Qed.

Lemma substring_suffix (s t : string) n :
  String.substring (String.length s) n (s ++ t) = String.substring 0 n t.
Proof. induction s as [|c s IH]; simpl; [done|exact IH]. Qed.

Lemma from_app (s t : string) : Str.from (String.length s) (s ++ t) = t.
Proof.
  unfold Str.from. rewrite str_length_app, substring_suffix.
  replace (String.length s + String.length t - String.length s)%nat
    with (String.length t) by lia.
  apply substring_whole.
Qed.

Lemma upto_app (s t : string) : Str.upto (String.length s) (s ++ t) = s.
Proof. apply substring_prefix. Qed.

Lemma endsWith_app (s t : string) : Str.endsWith (s ++ t) t = true.
Proof.
  unfold Str.endsWith. rewrite str_length_app.
  replace (String.length s + String.length t - String.length t)%nat
    with (String.length s) by lia.
  rewrite from_app, String.eqb_refl, andb_true_r. apply Nat.leb_le. lia.
Qed.

Lemma endsWith_last2 (s : string) :
  Str.endsWith s "px" = String.eqb (Config.last2 s) "px".
Proof.
  unfold Str.endsWith, Config.last2.
  destruct s as [|c [|d r]]; [done| |done].
  cbn. by destruct (Ascii.eqb c "p").
Qed.

Lemma forceTrailingSlash_ends (s : string) :
  Str.endsWith (Str.forceTrailingSlash s) "/" = true.
Proof.
  unfold Str.forceTrailingSlash. destruct (Str.endsWith s "/") eqn:E; [done|].
  apply endsWith_app.
Qed.

Lemma forceTrailingSlash_idem (s : string) :
  Str.forceTrailingSlash (Str.forceTrailingSlash s) = Str.forceTrailingSlash s.
Proof.
  unfold Str.forceTrailingSlash at 1. by rewrite forceTrailingSlash_ends.
Qed.

(** [_normalizeSize] takes one [px] off the end of a string and hands every
    other string, number, boolean or list on as it is; on [undefined] and
    [null] it throws. *)
Theorem normalizeSize_strips_px :
  (∀ s, Config._normalizeSize (VStr (s ++ "px")) = Ok (VStr s))
  ∧ (∀ s, Str.endsWith s "px" = false → Config._normalizeSize (VStr s) = Ok (VStr s))
  ∧ (∀ v, JS.isNumber v || JS.isBoolean v || JS.isArray v = true →
          Config._normalizeSize v = Ok v)
  ∧ Config._normalizeSize VUndef = Throw TypeError
  ∧ Config._normalizeSize VNull = Throw TypeError.
Proof.
  split; [|split; [|split; [|done]]].
  - intros s. cbn. unfold Config.last2, Config.drop_last2.
    rewrite str_length_app. cbn [String.length].
    replace (String.length s + 2 - 2)%nat with (String.length s) by lia.
    by rewrite from_app, upto_app.
  - intros s H. cbn. rewrite endsWith_last2 in H. by rewrite H.
  - by intros [].
Qed.

Section ConfigResult.
Variable serialize : value -> value.
Variable exists_ : value -> bool.
Variable scriptPath loadFrom protocol : string.
Variable window_jwplayer : value.

Lemma resolveSkin_touches_skin c : touches skin_keys (Config.resolveSkin c) c.
Proof.
  unfold Config.resolveSkin, skin_keys.
  destruct (JS.isObject (JS.get c "skin")).
  - match goal with |- context [match ?x with _ => _ end] => destruct x end; try touch.
    match goal with |- context [if ?x then _ else _] => destruct x end; touch.
  - match goal with |- context [match ?x with _ => _ end] => destruct x end; try touch.
    match goal with |- context [if ?x then _ else _] => destruct x end; touch.
Qed.

Lemma resolveBase_inv c c1 :
  Config.resolveBase scriptPath loadFrom c = Ok c1 →
  ∃ s, chosen_base scriptPath loadFrom c = VStr s
       ∧ c1 !! "base" = Some (VStr (Str.forceTrailingSlash s))
       ∧ touches ["base"] c1 c.
Proof.
  unfold Config.resolveBase, chosen_base. intros H.
  apply obind_Ok in H as (b & Hb & H). injection H as <-.
  destruct (JS.strict_eq (JS.get c "base") (VStr ".")) eqn:E.
  - rewrite get_insert_eq in Hb.
    destruct (JS.or_else (VStr scriptPath) (VStr loadFrom)) eqn:Ho; try discriminate.
    injection Hb as <-. exists s. split; [done|]. split; [apply lookup_insert_eq|touch].
  - destruct (JS.or_else (JS.get c "base") (VStr loadFrom)) eqn:Ho; try discriminate.
    injection Hb as <-. exists s. split; [done|]. split; [apply lookup_insert_eq|touch].
Qed.

Lemma resolveSize_inv c c2 :
  Config.resolveSize c = Ok c2 →
  ∃ w h, Config._normalizeSize (JS.get c "width") = Ok w
         ∧ Config._normalizeSize (JS.get c "height") = Ok h
         ∧ c2 = <["height" := h]> (<["width" := w]> c).
Proof.
  unfold Config.resolveSize. intros H.
  apply obind_Ok in H as (w & Hw & H). apply obind_Ok in H as (h & Hh & H).
  injection H as <-. rewrite get_insert_ne in Hh by done. eauto.
Qed.

Lemma resolveFlash_inv c c3 :
  Config.resolveFlash scriptPath protocol c = Ok c3 →
  let path := JS.or_else (VStr scriptPath) (JS.get c "base") in
  ∃ p l, flash_url protocol (JS.get c "flashplayer") path "jwplayer.flash.swf" = Ok p
         ∧ flash_url protocol (JS.get c "flashloader") path "jwplayer.loader.swf" = Ok l
         ∧ c3 !! "flashplayer" = Some p ∧ c3 !! "flashloader" = Some l
         ∧ touches ["flashplayer"; "flashloader"] c3 c.
Proof.
  intros H. cbv zeta. unfold Config.resolveFlash in H. unfold flash_url.
  set (path := JS.or_else (VStr scriptPath) (JS.get c "base")) in *.
  apply obind_Ok in H as (p & Hp & H). apply obind_Ok in H as (l & Hl & H).
  rewrite get_insert_ne in Hl by done. rewrite Hp, Hl. cbn [obind].
  destruct (String.eqb protocol "http:").
  - apply obind_Ok in H as (p' & Hp' & H). apply obind_Ok in H as (l' & Hl' & H).
    injection H as <-.
    rewrite get_insert_ne, get_insert_eq in Hp' by done.
    rewrite get_insert_ne, get_insert_eq in Hl' by done.
    exists p', l'. split; [done|]. split; [done|].
    split; [by rewrite lookup_insert_ne, lookup_insert_eq|].
    split; [apply lookup_insert_eq|touch].
  - injection H as <-. exists p, l. split; [done|]. split; [done|].
    split; [by rewrite lookup_insert_ne, lookup_insert_eq|].
    split; [apply lookup_insert_eq|touch].
Qed.

(** What the first steps leave in the derived fields. *)
Lemma front_inv c c4 :
  front exists_ scriptPath loadFrom protocol c = Ok c4 →
  ∃ s w h p l ar,
    chosen_base scriptPath loadFrom c = VStr s
    ∧ Config._normalizeSize (JS.get c "width") = Ok w
    ∧ Config._normalizeSize (JS.get c "height") = Ok h
    ∧ flash_url protocol (JS.get c "flashplayer")
        (JS.or_else (VStr scriptPath) (VStr (Str.forceTrailingSlash s)))
        "jwplayer.flash.swf" = Ok p
    ∧ flash_url protocol (JS.get c "flashloader")
        (JS.or_else (VStr scriptPath) (VStr (Str.forceTrailingSlash s)))
        "jwplayer.loader.swf" = Ok l
    ∧ Config._evaluateAspectRatio exists_ (JS.get c "aspectratio") w = Ok ar
    ∧ c4 !! "base" = Some (VStr (Str.forceTrailingSlash s))
    ∧ c4 !! "width" = Some w ∧ c4 !! "height" = Some h
    ∧ c4 !! "flashplayer" = Some p ∧ c4 !! "flashloader" = Some l
    ∧ c4 !! "aspectratio" = Some ar
    ∧ touches skin_keys c4
        (<["aspectratio" := ar]> (<["flashloader" := l]> (<["flashplayer" := p]>
           (<["height" := h]> (<["width" := w]>
              (<["base" := VStr (Str.forceTrailingSlash s)]> c)))))).
Proof.
  unfold front. intros H.
  apply obind_Ok in H as (c1 & H1 & H).
  apply obind_Ok in H as (c2 & H2 & H).
  apply obind_Ok in H as (c3 & H3 & H).
  apply obind_Ok in H as (c4' & H4 & H). injection H as <-.
  apply resolveBase_inv in H1 as (s & Hs & B1 & T1).
  apply resolveSize_inv in H2 as (w & h & Hw & Hh & ->).
  apply resolveFlash_inv in H3 as (p & l & Hp & Hl & P3 & L3 & T3).
  unfold Config.resolveAspect in H4. apply obind_Ok in H4 as (ar & Har & H4).
  injection H4 as <-.
  assert (JS.get c1 "width" = JS.get c "width") as Ew
    by (apply (touches_get ["base"]); [done|not_in_list]).
  assert (JS.get c1 "height" = JS.get c "height") as Eh
    by (apply (touches_get ["base"]); [done|not_in_list]).
  rewrite Ew in Hw. rewrite Eh in Hh.
  rewrite !get_insert_ne in Hp, Hl by done.
  assert (∀ k, k ≠ "base" → JS.get c1 k = JS.get c k) as E1.
  { intros k Hk. apply (touches_get ["base"]); [done|not_in_list]. }
  rewrite (E1 "flashplayer") in Hp by done. rewrite (E1 "flashloader") in Hl by done.
  unfold JS.get at 2 in Hp. unfold JS.get at 2 in Hl. rewrite B1 in Hp, Hl.
  cbn [default] in Hp, Hl.
  assert (JS.get c3 "width" = w) as E3w.
  { unfold JS.get. rewrite T3 by not_in_list.
    by rewrite lookup_insert_ne, lookup_insert_eq. }
  assert (JS.get c3 "aspectratio" = JS.get c "aspectratio") as E3a.
  { unfold JS.get. rewrite T3 by not_in_list.
    rewrite !lookup_insert_ne by done. by rewrite T1 by not_in_list. }
  rewrite E3w, E3a in Har.
  exists s, w, h, p, l, ar. repeat (split; [done|]).
  assert (∀ k, k ∉ skin_keys →
            Config.resolveSkin (<["aspectratio" := ar]> c3) !! k
            = <["aspectratio" := ar]> c3 !! k) as TS.
  { intros k Hk. by apply resolveSkin_touches_skin. }
  assert (∀ k v, k ∉ skin_keys → <["aspectratio" := ar]> c3 !! k = Some v →
            Config.resolveSkin (<["aspectratio" := ar]> c3) !! k = Some v) as TS'.
  { intros k v Hk Hv. by rewrite TS. }
  split; [apply TS'; [unfold skin_keys; not_in_list|]|].
  { rewrite lookup_insert_ne by done. rewrite T3 by not_in_list.
    by rewrite !lookup_insert_ne by done. }
  split; [apply TS'; [unfold skin_keys; not_in_list|]|].
  { rewrite lookup_insert_ne by done. rewrite T3 by not_in_list.
    by rewrite lookup_insert_ne, lookup_insert_eq. }
  split; [apply TS'; [unfold skin_keys; not_in_list|]|].
  { rewrite lookup_insert_ne by done. rewrite T3 by not_in_list.
    by rewrite lookup_insert_eq. }
  split; [apply TS'; [unfold skin_keys; not_in_list|]|].
  { by rewrite lookup_insert_ne. }
  split; [apply TS'; [unfold skin_keys; not_in_list|]|].
  { by rewrite lookup_insert_ne. }
  split; [apply TS'; [unfold skin_keys; not_in_list|]|].
  { by rewrite lookup_insert_eq. }
  intros k Hk. rewrite TS by done.
  destruct (decide (k = "aspectratio")) as [->|Ha]; [by rewrite !lookup_insert_eq|].
  rewrite !(lookup_insert_ne _ "aspectratio") by done.
  destruct (decide (k = "flashloader")) as [->|Hl']; [by rewrite lookup_insert_eq|].
  rewrite (lookup_insert_ne _ "flashloader") by done.
  destruct (decide (k = "flashplayer")) as [->|Hp']; [by rewrite lookup_insert_eq|].
  rewrite (lookup_insert_ne _ "flashplayer") by done.
  rewrite T3 by not_in_list.
  destruct (decide (k = "height")) as [->|Hh']; [by rewrite !lookup_insert_eq|].
  rewrite !(lookup_insert_ne _ "height") by done.
  destruct (decide (k = "width")) as [->|Hw']; [by rewrite !lookup_insert_eq|].
  rewrite !(lookup_insert_ne _ "width") by done.
  destruct (decide (k = "base")) as [->|Hb']; [by rewrite lookup_insert_eq|].
  rewrite lookup_insert_ne by done. apply T1. not_in_list.
Qed.

End ConfigResult.

Lemma of_to_list (s : string) : Str.of_list (Str.to_list s) = s.
Proof. induction s as [|c s IH]; simpl; [done|by rewrite IH]. Qed.

Lemma of_list_app (l1 l2 : list ascii) :
  Str.of_list (l1 ++ l2) = Str.of_list l1 ++ Str.of_list l2.
Proof. induction l1 as [|c l IH]; simpl; [done|by rewrite IH]. Qed.

Lemma is_percentage_ends (a : string) :
  Config.is_percentage a = true → Str.endsWith a "%" = true.
Proof.
  unfold Config.is_percentage. destruct (rev (Str.to_list a)) as [|c body] eqn:E; [done|].
  intros H.
  assert (c = "%"%char) as ->.
  { destruct c as [[] [] [] [] [] [] [] []]; try discriminate H; reflexivity. }
  apply (f_equal (@rev ascii)) in E. rewrite rev_involutive in E. simpl in E.
  apply (f_equal Str.of_list) in E. rewrite of_to_list, of_list_app in E.
  rewrite E. apply endsWith_app.
Qed.

Section AspectShape.
Variable exists_ : value -> bool.

(** The ratio evaluated is [0] or a string that ends in a percent sign. *)
Lemma evaluateAspectRatio_shape ar width r :
  Config._evaluateAspectRatio exists_ ar width = Ok r →
  r = JS.num_lit "0" ∨ ∃ s, r = VStr s ∧ Str.endsWith s "%" = true.
Proof.
  unfold Config._evaluateAspectRatio. intros H.
  apply obind_Ok in H as (ws & _ & H).
  destruct (Str.indexOf ws "%" =? -1); [left; congruence|].
  destruct ar; try (left; congruence).
  destruct (negb (exists_ (VStr s))); [left; congruence|].
  destruct (Config.is_percentage s) eqn:P.
  { right. injection H as <-. eauto using is_percentage_ends. }
  destruct (Str.indexOf s ":" =? -1); [left; congruence|].
  destruct (_ || _); [left; congruence|].
  unfold JS.str_plus in H. apply obind_Ok in H as (t & _ & H). injection H as <-.
  right. eexists. split; [done|]. apply endsWith_app.
Qed.

Lemma evaluateAspectRatio_fixed ar width ws r :
  Config._evaluateAspectRatio exists_ ar width = Ok r →
  JS.toString_method width = Ok ws → Str.indexOf ws "%" = -1 →
  r = JS.num_lit "0".
Proof.
  unfold Config._evaluateAspectRatio. intros H Hs Hi. rewrite Hs in H.
  cbn [obind] in H. rewrite Hi in H. cbn in H. congruence.
Qed.

End AspectShape.

Lemma endsWith_truthy s sfx :
  Str.endsWith s sfx = true → sfx ≠ "" → JS.truthy (VStr s) = true.
Proof.
  intros H Hn. destruct s; [|done]. exfalso. apply Hn.
  unfold Str.endsWith in H. apply andb_true_iff in H as [H _].
  apply Nat.leb_le in H. simpl in H. destruct sfx; [done|simpl in H; lia].
Qed.

Lemma tail_aspectratio c :
  tail c !! "aspectratio"
  = if JS.truthy (JS.get c "aspectratio") then c !! "aspectratio" else None.
Proof.
  unfold tail, Config.resolveQualityLabels. rewrite lookup_insert_ne by done.
  assert (∀ d : gmap string value,
            Config.resolvePlaylist d !! "aspectratio" = d !! "aspectratio") as Hp.
  { intros d. unfold Config.resolvePlaylist.
    destruct (negb _); [by rewrite lookup_insert_ne|].
    destruct (JS.isArray _); [by rewrite !lookup_insert_ne|done]. }
  rewrite Hp. unfold Config.dropUnsetAspect.
  destruct (JS.truthy (JS.get c "aspectratio")); cbn [negb]; [done|].
  apply lookup_delete_eq.
Qed.

Section Whole.
Variable serialize : value -> value.
Variable exists_ : value -> bool.
Variable scriptPath loadFrom protocol : string.
Variable window_jwplayer : value.

Lemma createConfig_inv options storage cfg :
  Config.createConfig serialize exists_ scriptPath loadFrom protocol
    window_jwplayer options storage = Ok cfg →
  ∃ c4 c7,
    front exists_ scriptPath loadFrom protocol
      (Config.mergeConfig serialize window_jwplayer options
         (Config.persisted_of storage)) = Ok c4
    ∧ rates c4 = Ok c7 ∧ cfg = tail c7
    ∧ touches keys_rates c7 c4 ∧ touches keys_tail cfg c7.
Proof.
  intros H. rewrite createConfig_steps in H.
  apply obind_Ok in H as (c4 & E4 & H).
  apply obind_Ok in H as (c7 & E7 & H). injection H as <-.
  exists c4, c7. repeat (split; [done|]).
  destruct (rates_total c4) as (c7' & E7' & T7 & _).
  rewrite E7 in E7'. injection E7' as <-.
  split; [done|apply tail_touches].
Qed.

(** A field that neither the rate steps nor the last steps assign is, in the
    result, as the first steps left it. *)
Lemma createConfig_front_field (cfg c4 c7 : gmap string value) k :
  cfg = tail c7 → touches keys_rates c7 c4 → touches keys_tail cfg c7 →
  k ∉ keys_rates → k ∉ keys_tail → cfg !! k = c4 !! k.
Proof. intros -> T7 T H1 H2. rewrite T by done. by apply T7. Qed.

End Whole.

Lemma app_nonempty (s t : string) : t ≠ "" → s ++ t ≠ "".
Proof. destruct s; [done|discriminate]. Qed.

Lemma replaceFirst_nonempty (s pat by_ : string) :
  s ≠ "" → by_ ≠ "" → Str.replaceFirst s pat by_ ≠ "".
Proof.
  intros Hs Hb. unfold Str.replaceFirst. destruct (String.index 0 pat s); [|done].
  apply app_nonempty. intros E. destruct by_; [done|discriminate].
Qed.

Lemma truthy_str s : JS.truthy (VStr s) = true ↔ s ≠ "".
Proof.
  cbn. rewrite negb_true_iff. split.
  - intros H ->. done.
  - intros H. by apply String.eqb_neq.
Qed.

Lemma zero_falsy : JS.truthy (JS.num_lit "0") = false.
Proof. vm_compute. reflexivity. Qed.

Section Flash.
Variable protocol : string.

Lemma flash_url_truthy supplied path file u :
  flash_url protocol supplied path file = Ok u → file ≠ "" → JS.truthy u = true.
Proof.
  unfold flash_url. intros H Hf. apply obind_Ok in H as (v & Hv & H).
  assert (JS.truthy v = true) as Tv.
  { unfold JS.or_else_lazy in Hv. destruct (JS.truthy supplied) eqn:T.
    - by injection Hv as <-.
    - unfold JS.str_plus in Hv. apply obind_Ok in Hv as (t & _ & Hv).
      injection Hv as <-. apply truthy_str. by apply app_nonempty. }
  destruct (String.eqb protocol "http:"); [|by injection H as <-].
  destruct v; try discriminate. injection H as <-.
  apply truthy_str, replaceFirst_nonempty; [by apply truthy_str|done].
Qed.

Lemma flash_url_supplied supplied path file u :
  flash_url protocol supplied path file = Ok u →
  String.eqb protocol "http:" = false → JS.truthy supplied = true → u = supplied.
Proof.
  unfold flash_url, JS.or_else_lazy. intros H Hp Ht. rewrite Ht, Hp in H.
  cbn in H. congruence.
Qed.

Lemma flash_url_default supplied p file u :
  flash_url protocol supplied (VStr p) file = Ok u →
  String.eqb protocol "http:" = false → JS.truthy supplied = false →
  u = VStr (p ++ file).
Proof.
  unfold flash_url, JS.or_else_lazy. intros H Hp Ht. rewrite Ht, Hp in H.
  cbn in H. congruence.
Qed.

End Flash.

(** The worked examples take the configuration from the fact that
    [createConfig] returns under the schema. *)
Ltac returned options cfg E :=
  destruct (createConfig_returns Example.serialize Example.exists_
              Example.scriptPath Example.loadFrom Example.protocol VUndef
              options None) as [cfg E]; [vm_compute; reflexivity|].

(** The base of a returned configuration is a string that ends in a slash:
    the base chosen, with a slash added unless it ends in one. *)
Theorem createConfig_base_ends_in_slash
    (serialize : value → value) (exists_ : value → bool)
    (scriptPath loadFrom protocol : string) (window_jwplayer options : value)
    (storage : option value) (cfg : gmap string value) :
  let m := Config.mergeConfig serialize window_jwplayer options
             (Config.persisted_of storage) in
  Config.createConfig serialize exists_ scriptPath loadFrom protocol
    window_jwplayer options storage = Ok cfg →
  ∃ s, chosen_base scriptPath loadFrom m = VStr s
       ∧ cfg !! "base" = Some (VStr (Str.forceTrailingSlash s))
       ∧ Str.endsWith (Str.forceTrailingSlash s) "/" = true
       ∧ (Str.endsWith s "/" = true → Str.forceTrailingSlash s = s).
Proof.
  intros m H.
  apply createConfig_inv in H as (c4 & c7 & E4 & _ & Hc & T7 & T).
  apply front_inv in E4 as (s & w & h & p & l & ar & Hs & _ & _ & _ & _ & _ & B & _).
  exists s. split; [done|]. split; [|split].
  - rewrite <- B. eapply createConfig_front_field; eauto;
      [unfold keys_rates|unfold keys_tail]; not_in_list.
  - apply forceTrailingSlash_ends.
  - intros E. unfold Str.forceTrailingSlash. by rewrite E.
Qed.

Lemma createConfig_base_ends_in_slash_witness :
  ∃ cfg,
    Example.createConfig VUndef (Example.obj [("base", VStr ".")]) None = Ok cfg
    ∧ cfg !! "base" = Some (VStr "https://ssl.p.jwpcdn.com/player/v/7.10.0/").
Proof.
  returned (Example.obj [("base", VStr ".")]) cfg E.
  exists cfg. split; [exact E|].
  destruct (createConfig_base_ends_in_slash _ _ _ _ _ _ _ _ cfg E) as (s & Hs & B & _).
  vm_compute in Hs. injection Hs as <-. rewrite B. vm_compute. reflexivity.
Defined.

(** The two flash URLs of a returned configuration are never missing: what
    was supplied is kept (on a page served over ssl), and what was not is the
    file next to the base. *)
Theorem createConfig_flash_urls
    (serialize : value → value) (exists_ : value → bool)
    (scriptPath loadFrom protocol : string) (window_jwplayer options : value)
    (storage : option value) (cfg : gmap string value) :
  let m := Config.mergeConfig serialize window_jwplayer options
             (Config.persisted_of storage) in
  Config.createConfig serialize exists_ scriptPath loadFrom protocol
    window_jwplayer options storage = Ok cfg →
  ∃ s p l,
    chosen_base scriptPath loadFrom m = VStr s
    ∧ cfg !! "base" = Some (VStr (Str.forceTrailingSlash s))
    ∧ cfg !! "flashplayer" = Some p ∧ cfg !! "flashloader" = Some l
    ∧ JS.truthy p = true ∧ JS.truthy l = true
    ∧ (String.eqb protocol "http:" = false →
       (JS.truthy (JS.get m "flashplayer") = true → p = JS.get m "flashplayer")
       ∧ (JS.truthy (JS.get m "flashloader") = true → l = JS.get m "flashloader")
       ∧ (scriptPath = "" →
          (JS.truthy (JS.get m "flashplayer") = false
           → p = VStr (Str.forceTrailingSlash s ++ "jwplayer.flash.swf"))
          ∧ (JS.truthy (JS.get m "flashloader") = false
             → l = VStr (Str.forceTrailingSlash s ++ "jwplayer.loader.swf")))).
Proof.
  intros m H.
  apply createConfig_inv in H as (c4 & c7 & E4 & _ & Hc & T7 & T).
  apply front_inv in E4
    as (s & w & h & p & l & ar & Hs & _ & _ & Hp & Hl & _ & B & _ & _ & P & L & _).
  assert (∀ k, k ∉ keys_rates → k ∉ keys_tail → cfg !! k = c4 !! k) as F.
  { intros k H1 H2. eapply createConfig_front_field; eauto. }
  exists s, p, l. split; [done|].
  split; [rewrite <- B; apply F; [unfold keys_rates|unfold keys_tail]; not_in_list|].
  split; [rewrite <- P; apply F; [unfold keys_rates|unfold keys_tail]; not_in_list|].
  split; [rewrite <- L; apply F; [unfold keys_rates|unfold keys_tail]; not_in_list|].
  split; [by eapply flash_url_truthy|]. split; [by eapply flash_url_truthy|].
  intros Hh. split; [|split].
  - intros Ht. by eapply flash_url_supplied.
  - intros Ht. by eapply flash_url_supplied.
  - intros ->. cbn in Hp, Hl. split; intros Ht; by eapply flash_url_default.
Qed.

Lemma createConfig_flash_urls_witness :
  ∃ cfg,
    Example.createConfig VUndef (Example.obj [("flashplayer", VStr "//cdn/p.swf")]) None
    = Ok cfg
    ∧ cfg !! "flashplayer" = Some (VStr "//cdn/p.swf")
    ∧ cfg !! "flashloader"
      = Some (VStr "https://ssl.p.jwpcdn.com/player/v/7.10.0/jwplayer.loader.swf").
Proof.
  returned (Example.obj [("flashplayer", VStr "//cdn/p.swf")]) cfg E.
  exists cfg. split; [exact E|].
  destruct (createConfig_flash_urls _ _ _ _ _ _ _ _ cfg E)
    as (s & p & l & Hs & _ & P & L & _ & _ & F).
  vm_compute in Hs. injection Hs as <-.
  destruct (F eq_refl) as (Fp & _ & Fd). destruct (Fd eq_refl) as (_ & Fl).
  rewrite P, L, Fp, Fl by (vm_compute; reflexivity).
  split; vm_compute; reflexivity.
Defined.

(** The ratio of a returned configuration is absent or a string that ends in
    a percent sign; it is absent whenever the width, with its [px] taken
    off, has no percent sign. *)
Theorem createConfig_aspectratio_shape
    (serialize : value → value) (exists_ : value → bool)
    (scriptPath loadFrom protocol : string) (window_jwplayer options : value)
    (storage : option value) (cfg : gmap string value) :
  let m := Config.mergeConfig serialize window_jwplayer options
             (Config.persisted_of storage) in
  Config.createConfig serialize exists_ scriptPath loadFrom protocol
    window_jwplayer options storage = Ok cfg →
  (cfg !! "aspectratio" = None
   ∨ ∃ s, cfg !! "aspectratio" = Some (VStr s) ∧ Str.endsWith s "%" = true)
  ∧ ∃ w, Config._normalizeSize (JS.get m "width") = Ok w
         ∧ cfg !! "width" = Some w
         ∧ ∀ ws, JS.toString_method w = Ok ws → Str.indexOf ws "%" = -1 →
                 cfg !! "aspectratio" = None.
Proof.
  intros m H.
  apply createConfig_inv in H as (c4 & c7 & E4 & _ & Hc & T7 & T).
  apply front_inv in E4
    as (s & w & h & p & l & ar & _ & Hw & _ & _ & _ & Har & _ & W & _ & _ & _ & A & _).
  assert (c7 !! "aspectratio" = Some ar) as A7.
  { rewrite <- A. apply T7. unfold keys_rates. not_in_list. }
  assert (cfg !! "aspectratio" = if JS.truthy ar then Some ar else None) as Ac.
  { subst cfg. rewrite tail_aspectratio. unfold JS.get. rewrite A7.
    change (default VUndef (Some ar)) with ar. by destruct (JS.truthy ar). }
  split.
  - destruct (evaluateAspectRatio_shape _ _ _ _ Har) as [->|(r & -> & Hr)].
    + left. by rewrite Ac, zero_falsy.
    + right. exists r. split; [|done]. rewrite Ac.
      by rewrite (endsWith_truthy r "%").
  - exists w. split; [done|]. split.
    + rewrite <- W. eapply createConfig_front_field; eauto;
        [unfold keys_rates|unfold keys_tail]; not_in_list.
    + intros ws Hs Hi. rewrite Ac.
      by rewrite (evaluateAspectRatio_fixed _ _ _ _ _ Har Hs Hi), zero_falsy.
Qed.

Lemma createConfig_aspectratio_shape_witness :
  ∃ cfg,
    Example.createConfig VUndef
      (Example.obj [("width", VStr "640px"); ("aspectratio", VStr "16:9")]) None
    = Ok cfg
    ∧ cfg !! "width" = Some (VStr "640")
    ∧ cfg !! "aspectratio" = None.
Proof.
  returned (Example.obj [("width", VStr "640px"); ("aspectratio", VStr "16:9")]) cfg E.
  exists cfg. split; [exact E|].
  destruct (createConfig_aspectratio_shape _ _ _ _ _ _ _ _ cfg E)
    as (_ & w & Hw & W & A).
  vm_compute in Hw. injection Hw as <-.
  split; [exact W|]. apply (A "640"); reflexivity.
Defined.

Lemma grows_refl c : grows c c.
Proof. by intros k _ H. Qed.

Lemma grows_trans c1 c2 c3 : grows c1 c2 → grows c2 c3 → grows c1 c3.
Proof. intros H1 H2 k Hk H. apply H1, H2; done. Qed.

Lemma grows_insert k v c' c : grows c' c → grows (<[k := v]> c') c.
Proof.
  intros H k' Hk Hs. rewrite lookup_insert_is_Some.
  destruct (decide (k = k')); [by left|right; split; [done|by apply H]].
Qed.

Lemma grows_delete c' c : grows c' c → grows (delete "aspectratio" c') c.
Proof. intros H k Hk Hs. rewrite lookup_delete_ne by done. by apply H. Qed.

Ltac grow :=
  repeat first
    [ apply grows_refl
    | apply grows_insert
    | apply grows_delete ].

Lemma resolveSkin_grows c : grows (Config.resolveSkin c) c.
Proof.
  unfold Config.resolveSkin.
  destruct (JS.isObject (JS.get c "skin")).
  - match goal with |- context [match ?x with _ => _ end] => destruct x end; try grow.
    match goal with |- context [if ?x then _ else _] => destruct x end; grow.
  - match goal with |- context [match ?x with _ => _ end] => destruct x end; try grow.
    match goal with |- context [if ?x then _ else _] => destruct x end; grow.
Qed.

Lemma rates_grows c c' : rates c = Ok c' → grows c' c.
Proof.
  unfold rates, Config.resolveDefaultRate. intros H.
  apply obind_Ok in H as (reset & _ & H). injection H as <-.
  assert (grows (Config.resolveRates c) c) as G.
  { unfold Config.resolveRates.
    destruct (JS.truthy (JS.get c "playbackRateControls")); [|grow].
    match goal with |- context [if ?x then _ else _] => destruct x end; grow. }
  destruct reset; grow; exact G.
Qed.

Lemma tail_grows c : grows (tail c) c.
Proof.
  unfold tail, Config.resolveQualityLabels, Config.resolvePlaylist,
    Config.dropUnsetAspect.
  repeat match goal with |- context [if ?x then _ else _] => destruct x end; grow.
Qed.

Section Grows.
Variable exists_ : value -> bool.
Variable scriptPath loadFrom protocol : string.

Lemma front_grows c c' :
  front exists_ scriptPath loadFrom protocol c = Ok c' → grows c' c.
Proof.
  unfold front. intros H.
  apply obind_Ok in H as (c1 & H1 & H).
  apply obind_Ok in H as (c2 & H2 & H).
  apply obind_Ok in H as (c3 & H3 & H).
  apply obind_Ok in H as (c4 & H4 & H).
  injection H as <-.
  eapply grows_trans; [apply resolveSkin_grows|].
  assert (grows c1 c) as T1.
  { unfold Config.resolveBase in H1. apply obind_Ok in H1 as (b & _ & H1).
    injection H1 as <-. destruct (JS.strict_eq _ _); grow. }
  assert (grows c2 c1) as T2.
  { unfold Config.resolveSize in H2. apply obind_Ok in H2 as (w & _ & H2).
    apply obind_Ok in H2 as (h & _ & H2). injection H2 as <-. grow. }
  assert (grows c3 c2) as T3.
  { unfold Config.resolveFlash in H3. apply obind_Ok in H3 as (p & _ & H3).
    apply obind_Ok in H3 as (l & _ & H3).
    destruct (String.eqb protocol "http:").
    - apply obind_Ok in H3 as (p' & _ & H3). apply obind_Ok in H3 as (l' & _ & H3).
      injection H3 as <-. grow.
    - injection H3 as <-. grow. }
  assert (grows c4 c3) as T4.
  { unfold Config.resolveAspect in H4. apply obind_Ok in H4 as (a & _ & H4).
    injection H4 as <-. grow. }
  eauto using grows_trans.
Qed.

(** The first steps end with the skin; before it the skin fields are as
    merged. *)
Lemma front_skin c c4 :
  front exists_ scriptPath loadFrom protocol c = Ok c4 →
  ∃ c3, c4 = Config.resolveSkin c3
        ∧ ∀ k, k ∈ skin_keys → c3 !! k = c !! k.
Proof.
  unfold front. intros H.
  apply obind_Ok in H as (c1 & H1 & H).
  apply obind_Ok in H as (c2 & H2 & H).
  apply obind_Ok in H as (c3 & H3 & H).
  apply obind_Ok in H as (c4' & H4 & H). injection H as <-.
  apply resolveBase_inv in H1 as (s & _ & _ & T1).
  apply resolveSize_inv in H2 as (w & h & _ & _ & ->).
  apply resolveFlash_inv in H3 as (p & l & _ & _ & _ & _ & T3).
  unfold Config.resolveAspect in H4. apply obind_Ok in H4 as (ar & _ & H4).
  injection H4 as <-.
  eexists. split; [reflexivity|]. intros k Hk. unfold skin_keys in Hk.
  assert (k ≠ "aspectratio" ∧ k ∉ ["flashplayer"; "flashloader"]
          ∧ k ≠ "height" ∧ k ≠ "width" ∧ k ∉ ["base"]) as (K1 & K2 & K3 & K4 & K5).
  { cases_in Hk; repeat split; try done; not_in_list. }
  rewrite lookup_insert_ne by done. rewrite T3 by done.
  rewrite !lookup_insert_ne by done. by apply T1.
Qed.

End Grows.

Lemma strip_xml_isObject v : JS.isObject (strip_xml v) = JS.isObject v.
Proof. destruct v; try done. cbn. by destruct (0 <? Str.indexOf s ".xml"). Qed.

Lemma strip_step (d : gmap string value) :
  let r := match JS.get d "skin" with
           | VStr s => if 0 <? Str.indexOf s ".xml"
                       then <["skin" := VStr (Str.replaceFirst s ".xml" "")]> d
                       else d
           | _ => d
           end in
  JS.get r "skin" = strip_xml (JS.get d "skin") ∧ ∀ k, k ≠ "skin" → r !! k = d !! k.
Proof.
  cbv zeta. destruct (JS.get d "skin") as [| |b|n|s|l|o] eqn:E; cbn [strip_xml];
    rewrite ?E; try done.
  destruct (0 <? Str.indexOf s ".xml"); [|by rewrite E].
  split; [apply get_insert_eq|]. intros k Hk. by rewrite lookup_insert_ne.
Qed.

(** What the skin step makes of the skin fields. *)
Lemma resolveSkin_result c :
  let sk := JS.get c "skin" in
  let r := Config.resolveSkin c in
  JS.isObject (JS.get r "skin") = false
  ∧ (JS.isObject sk = true →
     JS.get r "skin" = strip_xml (if JS.isString (JS.get_prop sk "name")
                                  then JS.get_prop sk "name" else VStr "seven")
     ∧ r !! "skinUrl" = Some (JS.get_prop sk "url")
     ∧ r !! "skinColorInactive" = Some (JS.get_prop sk "inactive")
     ∧ r !! "skinColorActive" = Some (JS.get_prop sk "active")
     ∧ r !! "skinColorBackground" = Some (JS.get_prop sk "background"))
  ∧ (JS.isObject sk = false →
     JS.get r "skin" = strip_xml sk
     ∧ ∀ k, k ≠ "skin" → r !! k = c !! k).
Proof.
  intros sk r. subst r. unfold Config.resolveSkin. fold sk.
  change (JS.get Config.Defaults "skin") with (VStr "seven").
  destruct (JS.isObject sk) eqn:O.
  - set (name := if JS.isString (JS.get_prop sk "name")
                 then JS.get_prop sk "name" else VStr "seven").
    assert (JS.isObject name = false) as On.
    { unfold name. by destruct (JS.get_prop sk "name"). }
    match goal with |- context [match JS.get ?d "skin" with _ => _ end] =>
      destruct (strip_step d) as [S1 S2] end.
    rewrite get_insert_eq in S1, S2. rewrite get_insert_eq.
    split; [by rewrite S1, strip_xml_isObject|]. split; [|done].
    intros _. split; [exact S1|].
    rewrite !S2 by done.
    repeat split; rewrite ?lookup_insert_ne by done; apply lookup_insert_eq.
  - destruct (strip_step c) as [S1 S2]. fold sk in S1, S2. cbv beta iota zeta. fold sk.
    split; [by rewrite S1, strip_xml_isObject|]. split; [done|]. done.
Qed.

Lemma resolveRates_default c :
  Config.resolveRates c !! "defaultPlaybackRate" = c !! "defaultPlaybackRate".
Proof.
  unfold Config.resolveRates.
  destruct (JS.truthy (JS.get c "playbackRateControls")); [|done].
  match goal with |- context [if ?x then _ else _] => destruct x end;
    by rewrite !lookup_insert_ne.
Qed.

(** The default rate after the rate steps: the one merged when it is among
    the enabled rates, else 1; and the rate to start with is that one. *)
Lemma rates_default c c' :
  rates c = Ok c' →
  let rc := resolved_controls (JS.get c "playbackRateControls") in
  let d := JS.get c "defaultPlaybackRate" in
  JS.get c' "playbackRate" = JS.get c' "defaultPlaybackRate"
  ∧ is_Some (c' !! "playbackRate")
  ∧ ((JS.get c' "defaultPlaybackRate" = JS.num_lit "1"
      ∧ c' !! "defaultPlaybackRate" = Some (JS.num_lit "1"))
     ∨ (JS.get c' "defaultPlaybackRate" = d
        ∧ ∃ l, rc = VArr l ∧ JS.not_in_array l d = false)).
Proof.
  intros H. cbv zeta.
  set (rc := resolved_controls (JS.get c "playbackRateControls")).
  set (d := JS.get c "defaultPlaybackRate").
  unfold rates, Config.resolveDefaultRate in H.
  rewrite resolveRates_controls in H. fold rc in H.
  apply obind_Ok in H as (reset & Hr & H). injection H as <-.
  assert (JS.get (Config.resolveRates c) "defaultPlaybackRate" = d) as Ed.
  { unfold JS.get. by rewrite resolveRates_default. }
  split; [|split].
  - rewrite get_insert_ne, get_insert_eq by done.
    by rewrite !get_insert_ne by done.
  - rewrite lookup_insert_ne, lookup_insert_eq by done. eauto.
  - rewrite !(get_insert_ne _ "playbackRates"), !(get_insert_ne _ "playbackRate") by done.
    rewrite !(lookup_insert_ne _ "playbackRates"), !(lookup_insert_ne _ "playbackRate")
      by done.
    destruct reset.
    + left. by rewrite get_insert_eq, lookup_insert_eq.
    + right. split; [done|].
      destruct (negb (JS.truthy rc)); [discriminate|].
      destruct rc; try discriminate. injection Hr as Hr. rewrite Ed in Hr. eauto.
Qed.




Lemma truthy_is_Some (c : gmap string value) k :
  JS.truthy (JS.get c k) = true → is_Some (c !! k).
Proof. unfold JS.get. destruct (c !! k); [eauto|discriminate]. Qed.

Lemma resolved_playlist_truthy m : JS.truthy (resolved_playlist m) = true.
Proof.
  unfold resolved_playlist. destruct (negb _) eqn:N; [done|].
  destruct (JS.isArray _) eqn:A.
  - by destruct (JS.get_prop _ _).
  - by apply negb_false_iff in N.
Qed.

Section Results.
Variable serialize : value -> value.
Variable exists_ : value -> bool.
Variable scriptPath loadFrom protocol : string.
Variable window_jwplayer : value.

(** The result against the merged configuration, step by step. *)
Lemma createConfig_chain options storage cfg :
  let m := Config.mergeConfig serialize window_jwplayer options
             (Config.persisted_of storage) in
  Config.createConfig serialize exists_ scriptPath loadFrom protocol
    window_jwplayer options storage = Ok cfg →
  ∃ c4 c7,
    front exists_ scriptPath loadFrom protocol m = Ok c4
    ∧ rates c4 = Ok c7 ∧ cfg = tail c7
    ∧ (∀ k, k ∉ keys_front → c4 !! k = m !! k)
    ∧ (∀ k, k ∉ keys_rates → c7 !! k = c4 !! k)
    ∧ (∀ k, k ∉ keys_tail → cfg !! k = c7 !! k).
Proof.
  intros m H.
  apply createConfig_inv in H as (c4 & c7 & E4 & E7 & Hc & T7 & T).
  exists c4, c7. repeat (split; [done|]).
  split; [apply (front_touches _ _ _ _ _ _ E4)|]. split; [exact T7|exact T].
Qed.

End Results.





(** The skin of the result is never an object: a skin object is taken apart
    into its name (or the built-in skin) and its colours and URL. *)
Theorem createConfig_skin
    (serialize : value → value) (exists_ : value → bool)
    (scriptPath loadFrom protocol : string) (window_jwplayer options : value)
    (storage : option value) (cfg : gmap string value) :
  let m := Config.mergeConfig serialize window_jwplayer options
             (Config.persisted_of storage) in
  let sk := JS.get m "skin" in
  Config.createConfig serialize exists_ scriptPath loadFrom protocol
    window_jwplayer options storage = Ok cfg →
  JS.isObject (JS.get cfg "skin") = false
  ∧ (JS.isObject sk = true →
     JS.get cfg "skin" = strip_xml (if JS.isString (JS.get_prop sk "name")
                                    then JS.get_prop sk "name" else VStr "seven")
     ∧ cfg !! "skinUrl" = Some (JS.get_prop sk "url")
     ∧ cfg !! "skinColorInactive" = Some (JS.get_prop sk "inactive")
     ∧ cfg !! "skinColorActive" = Some (JS.get_prop sk "active")
     ∧ cfg !! "skinColorBackground" = Some (JS.get_prop sk "background"))
  ∧ (JS.isObject sk = false →
     JS.get cfg "skin" = strip_xml sk
     ∧ ∀ k, k ∈ ["skinUrl"; "skinColorInactive"; "skinColorActive";
                 "skinColorBackground"] → cfg !! k = m !! k).
Proof.
  intros m sk H.
  apply createConfig_chain in H as (c4 & c7 & E4 & E7 & Hc & F4 & F7 & F).
  fold m in E4, F4.
  apply front_skin in E4 as (c3 & -> & K3).
  assert (∀ k, k ∈ skin_keys → cfg !! k = Config.resolveSkin c3 !! k) as G.
  { intros k Hk. unfold skin_keys in Hk.
    rewrite F, F7; [done| |]; [unfold keys_rates|unfold keys_tail];
      cases_in Hk; not_in_list. }
  assert (JS.get c3 "skin" = sk) as Esk.
  { unfold JS.get. rewrite K3; [done|]. unfold skin_keys. in_list. }
  destruct (resolveSkin_result c3) as (R1 & R2 & R3). rewrite Esk in R2, R3.
  assert (JS.get cfg "skin" = JS.get (Config.resolveSkin c3) "skin") as Gs.
  { unfold JS.get. rewrite G; [done|]. unfold skin_keys. in_list. }
  split; [by rewrite Gs|]. split.
  - intros O. destruct (R2 O) as (S & U & I & A & B).
    rewrite Gs, !G by (unfold skin_keys; in_list). done.
  - intros O. destruct (R3 O) as (S & U). split; [by rewrite Gs|].
    intros k Hk. rewrite G by (unfold skin_keys; cases_in Hk; in_list).
    rewrite U by (cases_in Hk; done).
    rewrite K3 by (unfold skin_keys; cases_in Hk; in_list). done.
Qed.

Lemma createConfig_skin_witness :
  ∃ cfg,
    Example.createConfig VUndef
      (Example.obj [("skin", Example.obj [("name", VStr "glow.xml");
                                          ("active", VStr "#fff")])]) None
    = Ok cfg
    ∧ JS.get cfg "skin" = VStr "glow"
    ∧ cfg !! "skinColorActive" = Some (VStr "#fff")
    ∧ cfg !! "skinUrl" = Some VUndef.
Proof.
  returned (Example.obj [("skin", Example.obj [("name", VStr "glow.xml");
                                               ("active", VStr "#fff")])]) cfg E.
  exists cfg. split; [exact E|].
  destruct (createConfig_skin _ _ _ _ _ _ _ _ cfg E) as (_ & O & _).
  destruct O as (S & U & _ & A & _); [vm_compute; reflexivity|].
  rewrite S, U, A. repeat split; vm_compute; reflexivity.
Defined.

(** No option is lost on the way, the ratio apart; the built-in options and
    the derived fields are always there. *)
Theorem createConfig_keeps_options
    (serialize : value → value) (exists_ : value → bool)
    (scriptPath loadFrom protocol : string) (window_jwplayer options : value)
    (storage : option value) (cfg : gmap string value) :
  let m := Config.mergeConfig serialize window_jwplayer options
             (Config.persisted_of storage) in
  Config.createConfig serialize exists_ scriptPath loadFrom protocol
    window_jwplayer options storage = Ok cfg →
  (∀ k, k ≠ "aspectratio" → is_Some (m !! k) → is_Some (cfg !! k))
  ∧ (∀ k, is_Some (Config.Defaults !! k) → is_Some (cfg !! k))
  ∧ Forall (fun k => is_Some (cfg !! k))
      ["base"; "width"; "height"; "flashplayer"; "flashloader"; "playbackRate";
       "playbackRates"; "playlist"; "qualityLabels"].
Proof.
  intros m H. pose proof H as H'.
  apply createConfig_chain in H as (c4 & c7 & E4 & E7 & Hc & F4 & F7 & F).
  fold m in E4, F4.
  assert (grows cfg m) as G.
  { subst cfg. eapply grows_trans; [apply tail_grows|].
    eapply grows_trans; [by apply rates_grows|]. by eapply front_grows. }
  assert (grows cfg c4) as G4.
  { subst cfg. eapply grows_trans; [apply tail_grows|]. by apply rates_grows. }
  assert (grows cfg c7) as G7 by (subst cfg; apply tail_grows).
  split; [exact G|]. split.
  - intros k Hk. apply G.
    + intros ->. by destruct Hk.
    + unfold m. rewrite mergeConfig_lookup. case_bool_decide; [eauto|].
      destruct Hk as [v Hv]. rewrite Hv.
      destruct (Config.allOptions _ _ _ _ !! k); cbn; eauto.
  - destruct (createConfig_result _ _ _ _ _ _ _ _ _ H') as (_ & P & _ & R).
    apply front_inv in E4
      as (s & w & h & p & l & ar & _ & _ & _ & _ & _ & _ & B & W & Hh & Pp & L & _).
    destruct (rates_default _ _ E7) as (_ & PR & _).
    repeat constructor.
    + apply G4; [done|eauto].
    + apply G4; [done|eauto].
    + apply G4; [done|eauto].
    + apply G4; [done|eauto].
    + apply G4; [done|eauto].
    + apply G7; [done|eauto].
    + rewrite R. eauto.
    + apply truthy_is_Some. rewrite P. apply resolved_playlist_truthy.
    + subst cfg. unfold tail, Config.resolveQualityLabels.
      rewrite lookup_insert_eq. eauto.
Qed.

Lemma createConfig_keeps_options_witness :
  ∃ cfg,
    Example.createConfig VUndef (Example.obj [("title", VStr "Trailer")]) None
    = Ok cfg
    ∧ is_Some (cfg !! "title") ∧ is_Some (cfg !! "autostart")
    ∧ is_Some (cfg !! "playlist").
Proof.
  returned (Example.obj [("title", VStr "Trailer")]) cfg E.
  exists cfg. split; [exact E|].
  destruct (createConfig_keeps_options _ _ _ _ _ _ _ _ cfg E) as (K & D & F).
  split; [|split].
  - apply K; [discriminate|]. vm_compute. eexists. reflexivity.
  - apply D. vm_compute. eexists. reflexivity.
  - rewrite Forall_forall in F. apply F. in_list.
Defined.

(** The legacy fallbacks: the quality labels fall back to [hlslabels], and a
    playlist given as a feed is kept under [feedData]. *)
Theorem createConfig_labels_and_feed
    (serialize : value → value) (exists_ : value → bool)
    (scriptPath loadFrom protocol : string) (window_jwplayer options : value)
    (storage : option value) (cfg : gmap string value) :
  let m := Config.mergeConfig serialize window_jwplayer options
             (Config.persisted_of storage) in
  let p := JS.get m "playlist" in
  Config.createConfig serialize exists_ scriptPath loadFrom protocol
    window_jwplayer options storage = Ok cfg →
  cfg !! "qualityLabels"
  = Some (JS.or_else (JS.get m "qualityLabels") (JS.get m "hlslabels"))
  ∧ cfg !! "feedData"
    = (if JS.truthy p && JS.isArray (JS.get_prop p "playlist")
       then Some p else m !! "feedData").
Proof.
  intros m p H.
  apply createConfig_chain in H as (c4 & c7 & E4 & E7 & Hc & F4 & F7 & F).
  fold m in E4, F4.
  assert (∀ k, k ∉ keys_front → k ∉ keys_rates → c7 !! k = m !! k) as K.
  { intros k H1 H2. rewrite F7 by done. by apply F4. }
  assert (∀ k, k ∉ keys_front → k ∉ keys_rates → JS.get c7 k = JS.get m k) as KG.
  { intros k H1 H2. unfold JS.get. by rewrite K. }
  assert (∀ k, k ∉ ["aspectratio"; "playlist"; "feedData"] →
            Config.resolvePlaylist (Config.dropUnsetAspect c7) !! k = c7 !! k) as T.
  { intros k Hk. unfold Config.resolvePlaylist, Config.dropUnsetAspect.
    apply not_elem_of_cons in Hk as [H1 Hk]. apply not_elem_of_cons in Hk as [H2 Hk].
    apply not_elem_of_cons in Hk as [H3 _].
    repeat match goal with |- context [if ?x then _ else _] => destruct x end;
      rewrite ?lookup_insert_ne by done; rewrite ?lookup_delete_ne by done; done. }
  assert (JS.get (Config.dropUnsetAspect c7) "playlist" = p) as Ep.
  { unfold Config.dropUnsetAspect, JS.get.
    destruct (negb _); rewrite ?lookup_delete_ne by done;
      rewrite K by (unfold keys_front, keys_rates; not_in_list); done. }
  subst cfg. unfold tail, Config.resolveQualityLabels. split.
  - rewrite lookup_insert_eq.
    assert (∀ k, k ∉ ["aspectratio"; "playlist"; "feedData"] →
              k ∉ keys_front → k ∉ keys_rates →
              JS.get (Config.resolvePlaylist (Config.dropUnsetAspect c7)) k
              = JS.get m k) as TG.
    { intros k H1 H2 H3. unfold JS.get. by rewrite T, K. }
    rewrite !TG by (unfold keys_front, keys_rates; not_in_list). done.
  - rewrite lookup_insert_ne by done. unfold Config.resolvePlaylist. rewrite Ep.
    assert (Config.dropUnsetAspect c7 !! "feedData" = m !! "feedData") as Ef.
    { unfold Config.dropUnsetAspect.
      destruct (negb _); rewrite ?lookup_delete_ne by done;
        rewrite K by (unfold keys_front, keys_rates; not_in_list); done. }
    destruct (JS.truthy p); cbn [negb andb].
    + destruct (JS.isArray (JS.get_prop p "playlist")).
      * by rewrite lookup_insert_ne, lookup_insert_eq.
      * done.
    + by rewrite lookup_insert_ne.
Qed.

Lemma createConfig_labels_and_feed_witness :
  ∃ cfg,
    Example.createConfig VUndef
      (Example.obj [("hlslabels", Example.obj [("2500", VStr "High")]);
                    ("playlist", Example.obj [("playlist", VArr [])])]) None
    = Ok cfg
    ∧ cfg !! "qualityLabels" = Some (Example.obj [("2500", VStr "High")])
    ∧ cfg !! "feedData" = Some (Example.obj [("playlist", VArr [])]).
Proof.
  returned (Example.obj [("hlslabels", Example.obj [("2500", VStr "High")]);
                         ("playlist", Example.obj [("playlist", VArr [])])]) cfg E.
  exists cfg. split; [exact E|].
  destruct (createConfig_labels_and_feed _ _ _ _ _ _ _ _ cfg E) as (Q & F).
  rewrite Q, F. split; vm_compute; reflexivity.
Defined.

Section Faults.
Variable exists_ : value → bool.
Variables scriptPath loadFrom protocol : string.

Lemma resolveBase_fault (c : gmap string value) :
  JS.truthy (JS.get c "base") = true → JS.isString (JS.get c "base") = false →
  Config.resolveBase scriptPath loadFrom c = Throw TypeError.
Proof.
  intros T S. unfold Config.resolveBase.
  destruct (JS.strict_eq (JS.get c "base") (VStr ".")) eqn:E.
  { destruct (JS.get c "base"); discriminate. }
  unfold JS.or_else. rewrite T.
  destruct (JS.get c "base"); try discriminate; reflexivity.
Qed.

Lemma resolveSize_fault (c : gmap string value) :
  no_size (JS.get c "width") = true
  ∨ (number_or_string (JS.get c "width") = true
     ∧ no_size (JS.get c "height") = true) →
  Config.resolveSize c = Throw TypeError.
Proof.
  unfold Config.resolveSize. intros [W|[W H]].
  - destruct (JS.get c "width"); try discriminate; reflexivity.
  - destruct (JS.get c "width"); try discriminate; cbn;
      rewrite get_insert_ne by done;
      destruct (JS.get c "height"); try discriminate; reflexivity.
Qed.

End Faults.

(** [createConfig] does not guard its options: a base that is truthy and not
    a string, and a width or a height set to [null] or [undefined], make it
    throw a [TypeError]. *)
Theorem createConfig_type_errors
    (serialize : value → value) (exists_ : value → bool)
    (scriptPath loadFrom protocol : string) (window_jwplayer options : value)
    (storage : option value) :
  let m := Config.mergeConfig serialize window_jwplayer options
             (Config.persisted_of storage) in
  (JS.truthy (JS.get m "base") = true ∧ JS.isString (JS.get m "base") = false)
  ∨ (string_or_falsy (JS.get m "base") = true
     ∧ (no_size (JS.get m "width") = true
        ∨ (number_or_string (JS.get m "width") = true
           ∧ no_size (JS.get m "height") = true))) →
  Config.createConfig serialize exists_ scriptPath loadFrom protocol
    window_jwplayer options storage = Throw TypeError.
Proof.
  intros m H. rewrite createConfig_steps. fold m. unfold front.
  destruct H as [[T S]|[B H]].
  - by rewrite resolveBase_fault.
  - destruct (resolveBase_total scriptPath loadFrom m B) as [b ->]. cbn [obind].
    rewrite resolveSize_fault; [done|].
    by rewrite !get_insert_ne by done.
Qed.

Lemma createConfig_type_errors_witness :
  Example.createConfig VUndef (Example.obj [("width", VNull)]) None
  = Throw TypeError.
Proof.
  apply createConfig_type_errors. right. split; [|left]; vm_compute; reflexivity.
Defined.


(** *** Emission on the facade *)

Local Open Scope nat_scope.

Local Open Scope nat_scope.

Lemma trigger_unfold w self x n args :
  apis w !! self = Some x →
  Facade.trigger self n args w
  = match foreach (Events.reached n (_events x))
            (fun l => if debug w then Facade.call self n (payload n args) l
                      else swallow (Facade.call self n (payload n args) l)) w with
    | Done _ w' => Done self w'
    | Raised e w' => Raised e w'
    end.
Proof.
  intros Hx. unfold Facade.trigger. fold (payload n args).
  rewrite bind_eq. cbn [gets]. cbv beta iota. rewrite bind_eq.
  unfold Facade.Events_trigger, Facade.Events_triggerSafe.
  destruct (debug w); rewrite bind_eq, (the_api_ok _ _ _ Hx); reflexivity.
Qed.

(** In debug mode the emission ends at the first listener that throws. *)
Lemma deliver_debug self n args : ∀ pre w x l post,
  apis w !! self = Some x →
  forallb harmless pre = true → throws (Events.l_callback l) = true →
  ∃ evs,
    foreach (pre ++ l :: post) (Facade.call self n args) w
    = Raised ListenerError
        (w_trace (trace w ++ deliveries self n args (pre ++ [l]))
           (w_apis (<[self := with_events evs x]> (apis w)) w)).
Proof.
  induction pre as [|p pre IH]; intros w x l post Hx Hp Hl.
  - cbn [app foreach]. rewrite bind_eq, (call_ok _ _ _ _ _ _ Hx), Hl.
    eexists. reflexivity.
  - cbn [app foreach]. cbn in Hp. apply andb_true_iff in Hp as [Hh Hp].
    unfold harmless in Hh. apply negb_true_iff in Hh.
    rewrite bind_eq, (call_ok _ _ _ _ _ _ Hx), Hh.
    set (x1 := with_events (if Events.l_once p
                            then Events.unbind callback_eqb p (_events x)
                            else _events x) x).
    destruct (IH (w_trace (trace w ++ [Delivered self (fn (Events.l_callback p)) n args])
                    (w_apis (<[self := x1]> (apis w)) w)) x1 l post) as [evs ->];
      [world_simpl; apply lookup_insert_eq|done|done|].
    exists evs. subst x1. world_simpl. unfold deliveries.
    cbn [map app with_events uniqueId id api_element _qoe _controller plugins].
    rewrite insert_insert_eq, <- app_assoc. reflexivity.
Qed.

Lemma deliver_all self n args (dbg : bool) : ∀ ls w x,
  apis w !! self = Some x →
  negb dbg || forallb harmless ls = true →
  foreach ls (fun l => if dbg then Facade.call self n args l
                       else swallow (Facade.call self n args l)) w
  = Done tt
      (w_trace (trace w ++ deliveries self n args ls)
         (w_apis (<[self := with_events (remaining ls (_events x)) x]> (apis w)) w)).
Proof.
  induction ls as [|l ls IH]; intros w x Hx Hq.
  - cbn [foreach deliveries map remaining fold_left mret M_ret].
    rewrite app_nil_r, with_events_same, insert_id by done. by destruct w.
  - cbn [foreach]. rewrite bind_eq.
    set (x1 := with_events (if Events.l_once l
                            then Events.unbind callback_eqb l (_events x)
                            else _events x) x).
    assert ((if dbg then Facade.call self n args l
             else swallow (Facade.call self n args l)) w
            = Done tt (w_trace (trace w ++ [Delivered self (fn (Events.l_callback l)) n args])
                (w_apis (<[self := x1]> (apis w)) w))) as ->.
    { destruct dbg.
      - rewrite (call_ok _ _ _ _ _ _ Hx). cbn in Hq.
        apply andb_true_iff in Hq as [Hq _]. unfold harmless in Hq.
        apply negb_true_iff in Hq. by rewrite Hq.
      - unfold swallow. rewrite (call_ok _ _ _ _ _ _ Hx). by destruct (throws _). }
    cbv beta iota.
    rewrite (IH _ x1); [|world_simpl; apply lookup_insert_eq|].
    2:{ destruct dbg; [|done]. cbn in Hq |- *. by apply andb_true_iff in Hq as [_ Hq]. }
    subst x1. world_simpl. unfold deliveries.
    cbn [map remaining fold_left with_events uniqueId id api_element _qoe _events
           _controller plugins].
    rewrite insert_insert_eq, <- app_assoc. reflexivity.
Qed.

(** In production mode [trigger] does not throw: every listener reached is
    called, in order, with a copy of the arguments stamped with the event
    name, whether or not some of them throw. *)
Theorem trigger_production_reaches_all
    (w : world) (self : nat) (x : Api) (n : string) (args : value) :
  apis w !! self = Some x →
  debug w = false →
  Facade.trigger self n args w
  = Done self
      (w_trace (trace w ++ deliveries self n (payload n args)
                             (Events.reached n (_events x)))
         (w_apis (<[self := with_events
                              (remaining (Events.reached n (_events x)) (_events x)) x]>
                    (apis w)) w))
  ∧ payload n args !! "type" = Some (VStr n)
  ∧ ∀ o k, args = VObj o → k ≠ "type" → payload n args !! k = o !! k.
Proof.
  intros Hx Hd. split; [|split].
  - rewrite (trigger_unfold _ _ _ _ _ Hx), Hd.
    by rewrite (deliver_all self n (payload n args) false _ w x Hx).
  - apply lookup_insert_eq.
  - intros o k -> Hk. unfold payload. rewrite lookup_insert_ne by done.
    cbn [JS.isObject Underscore.extend fold_left JS.truthy JS.props_of].
    by rewrite (right_id_L ∅ (∪)).
Qed.

Lemma trigger_production_reaches_all_witness :
  let w := Scenario.run [Run.On 0 "play" Scenario.faulty_fn;
                         Run.Once 0 "play" Scenario.listener_fn;
                         Run.On 0 "all" Scenario.listener_fn] Scenario.live in
  ∃ x w',
    apis w !! 0 = Some x ∧ debug w = false
    ∧ Facade.trigger 0 "play" (VObj {["position" := JS.num_lit "5"]}) w = Done 0 w'
    ∧ trace w'
      = (trace w
         ++ [Delivered 0 8 "play" {["type" := VStr "play"; "position" := JS.num_lit "5"]};
             Delivered 0 7 "play" {["type" := VStr "play"; "position" := JS.num_lit "5"]};
             Delivered 0 7 "play" {["type" := VStr "play"; "position" := JS.num_lit "5"]}])%list
    ∧ (_events <$> apis w' !! 0)
      = Some [Events.Listener "play" Scenario.faulty_fn false;
              Events.Listener "all" Scenario.listener_fn false].
Proof.
  intros w.
  assert (∃ x, apis w !! 0 = Some x) as [x Hx] by (vm_compute; eauto).
  assert (debug w = false) as Hd by (vm_compute; reflexivity).
  destruct (trigger_production_reaches_all w 0 x "play"
              (VObj {["position" := JS.num_lit "5"]}) Hx Hd) as (E & _).
  eexists x, _. split; [exact Hx|]. split; [exact Hd|]. split; [exact E|].
  vm_compute in Hx. injection Hx as <-.
  split; vm_compute; reflexivity.
Defined.

(** In debug mode the emission ends at the first listener that throws: it
    and the listeners before it have been called, the others have not, and
    the exception leaves [trigger]. *)
Theorem trigger_debug_stops_at_fault
    (w : world) (self : nat) (x : Api) (n : string) (args : value)
    (pre post : list (Events.listener callback)) (l : Events.listener callback) :
  apis w !! self = Some x →
  debug w = true →
  Events.reached n (_events x) = (pre ++ l :: post)%list →
  forallb harmless pre = true →
  throws (Events.l_callback l) = true →
  ∃ w',
    Facade.trigger self n args w = Raised ListenerError w'
    ∧ trace w' = (trace w ++ deliveries self n (payload n args) (pre ++ [l]))%list
    ∧ instances w' = instances w ∧ controllers w' = controllers w.
Proof.
  intros Hx Hd Hr Hp Hl.
  destruct (deliver_debug self n (payload n args) pre w x l post Hx Hp Hl) as [evs E].
  rewrite (trigger_unfold _ _ _ _ _ Hx), Hd, Hr.
  match goal with |- context [foreach ?ls ?f w] =>
    change (foreach ls f w)
      with (foreach (pre ++ l :: post) (Facade.call self n (payload n args)) w) end.
  rewrite E. eexists. split; [reflexivity|]. by world_simpl.
Qed.

Lemma trigger_debug_stops_at_fault_witness :
  let w := Run.run Scenario.events true false
             [Run.Select (Registry.QElement Scenario.video);
              Run.On 0 "play" Scenario.listener_fn;
              Run.On 0 "play" Scenario.faulty_fn;
              Run.On 0 "play" (Callback 9 false)]
             (initial Scenario.page true) in
  ∃ x w',
    apis w !! 0 = Some x ∧ debug w = true
    ∧ Facade.trigger 0 "play" VUndef w = Raised ListenerError w'
    ∧ trace w' = (trace w ++ [Delivered 0 7 "play" {["type" := VStr "play"]};
                              Delivered 0 8 "play" {["type" := VStr "play"]}])%list.
Proof.
  intros w.
  assert (∃ x, apis w !! 0 = Some x) as [x Hx] by (vm_compute; eauto).
  assert (debug w = true) as Hd by (vm_compute; reflexivity).
  pose proof Hx as Hx'. vm_compute in Hx'. injection Hx' as Ex.
  destruct (trigger_debug_stops_at_fault w 0 x "play" VUndef
              [Events.Listener "play" Scenario.listener_fn false]
              [Events.Listener "play" (Callback 9 false) false]
              (Events.Listener "play" Scenario.faulty_fn false) Hx Hd)
    as (w' & E & T & _).
  - rewrite <- Ex. vm_compute. reflexivity.
  - reflexivity.
  - reflexivity.
  - exists x, w'. split; [exact Hx|]. split; [exact Hd|]. split; [exact E|].
    rewrite T. vm_compute. reflexivity.
Defined.



(** *** The registry, call by call *)

Lemma same_registry_refl w : same_registry w w.
Proof. reflexivity. Qed.

Lemma same_registry_trans w1 w2 w3 :
  same_registry w1 w2 → same_registry w2 w3 → same_registry w1 w3.
Proof. unfold same_registry. congruence. Qed.

Lemma steady_modify f :
  (∀ w, instances (f w) = instances w) → respects same_registry (modify f).
Proof. intros H w. apply H. Qed.

Lemma steady_cosmetic {A} (m : M A) : respects cosmetic m → respects same_registry m.
Proof. intros H w. by destruct (H w) as (I & _). Qed.

Ltac steady :=
  repeat first
    [ apply (respects_ret _ same_registry_refl)
    | apply (respects_gets _ same_registry_refl)
    | apply (respects_throw _ same_registry_refl)
    | apply (respects_lift _ same_registry_refl)
    | apply (respects_the_api _ same_registry_refl)
    | apply (respects_the_controller _ same_registry_refl)
    | apply steady_modify; intros ?; reflexivity
    | apply respects_swallow
    | apply (respects_foreach _ same_registry_refl same_registry_trans); intros ?
    | apply (respects_bind _ same_registry_trans); [|intros ?]
    | match goal with
      | |- respects _ (match ?x with _ => _ end) => destruct x
      | |- respects _ (let '(_, _) := ?x in _) => destruct x
      end
    | assumption ].

Section Steady.
Variable events : string → string.
Variable playerDestroy : bool.
Variable strict : bool.

Lemma steady_update_api a f : respects same_registry (update_api a f).
Proof. unfold update_api, set_apis. steady. Qed.

Lemma steady_update_controller c f : respects same_registry (update_controller c f).
Proof. unfold update_controller, set_controllers. steady. Qed.

Lemma steady_record a : respects same_registry (record a).
Proof. unfold record. steady. Qed.

Lemma steady_resetPlayer a c :
  respects same_registry (Facade.resetPlayer playerDestroy a c).
Proof.
  unfold Facade.resetPlayer, Facade.controller_off, Facade.controller_playerDestroy.
  apply (respects_bind _ same_registry_trans);
    [apply steady_cosmetic, cosmetic_off|intros _].
  apply (respects_bind _ same_registry_trans).
  { apply (respects_bind _ same_registry_trans);
      [apply steady_update_controller|intros _; apply steady_record]. }
  intros _. destruct playerDestroy; [|steady].
  apply (respects_bind _ same_registry_trans);
    [apply steady_update_controller|intros _; apply steady_record].
Qed.

Lemma steady_setupController api el :
  respects same_registry (Facade.setupController events api el).
Proof. intros w. by rewrite setupController_ok. Qed.

Lemma steady_setup a o : respects same_registry (Facade.setup events playerDestroy a o).
Proof.
  unfold Facade.setup, Facade.controller_setup.
  apply (respects_bind _ same_registry_trans);
    [apply steady_cosmetic, cosmetic_tick|intros _].
  apply (respects_bind _ same_registry_trans);
    [apply (respects_the_api _ same_registry_refl)|intros x].
  apply (respects_bind _ same_registry_trans); [apply steady_resetPlayer|intros _].
  apply (respects_bind _ same_registry_trans); [apply steady_setupController|intros c].
  apply (respects_bind _ same_registry_trans); [apply steady_update_api|intros _].
  apply (respects_bind _ same_registry_trans).
  { apply (respects_foreach _ same_registry_refl same_registry_trans). intros [evt val].
    apply (respects_bind _ same_registry_trans);
      [apply steady_cosmetic, cosmetic_on|intros _]. steady. }
  intros _.
  apply (respects_bind _ same_registry_trans); [|intros _; steady].
  apply (respects_bind _ same_registry_trans);
    [apply steady_update_controller|intros _; apply steady_record].
Qed.

(** After [removePlayer], the rest of [remove] leaves the registry alone,
    also when the notification throws. *)
Lemma steady_remove_rest a :
  respects same_registry
    (Facade.trigger a "remove" VUndef ;;
     x ← the_api a; Facade.resetPlayer playerDestroy a (_controller x) ;; mret a).
Proof.
  apply (respects_bind _ same_registry_trans);
    [apply steady_cosmetic, cosmetic_trigger|intros _].
  apply (respects_bind _ same_registry_trans);
    [apply (respects_the_api _ same_registry_refl)|intros x].
  apply (respects_bind _ same_registry_trans); [apply steady_resetPlayer|intros _].
  steady.
Qed.

Lemma remove_registry w a :
  instances (state_of (Facade.remove playerDestroy a w))
  = instances (state_of (Facade.removePlayer a w)).
Proof.
  unfold Facade.remove. rewrite bind_eq.
  destruct (Facade.removePlayer a w) as [[] w1|e w1]; [|done].
  cbn [state_of]. apply steady_remove_rest.
Qed.

Lemma removePlayer_registry w a :
  instances (state_of (Facade.removePlayer a w)) = instances w
  ∨ ∃ i, instances (state_of (Facade.removePlayer a w)) = delete i (instances w).
Proof.
  destruct (apis w !! a) as [x|] eqn:Hx.
  - destruct (removePlayer_ok w a x Hx)
      as (l' & t & -> & [(-> & _)|(i & b & _ & _ & -> & _)]); world_simpl; eauto.
  - left. unfold Facade.removePlayer. rewrite bind_eq. unfold the_api. by rewrite Hx.
Qed.

Lemma selectPlayer_registry q w :
  registry_step strict w (state_of (Registry.selectPlayer events strict q w)).
Proof.
  rewrite selectPlayer_resolve.
  destruct (resolve q w) as [[p|] [e|]]; try (by left).
  rewrite bind_eq, newApi_ok. cbv beta iota. rewrite bind_eq, addPlayer_ok.
  destruct strict; cbv beta iota; cbn [mret M_ret]; world_simpl; [by left|].
  right. right. split; [done|]. eexists. split; [apply fresh_api|done].
Qed.

Lemma step_registry o w :
  registry_step strict w (Run.step events playerDestroy strict o w).
Proof.
  destruct o; cbn [Run.step].
  - apply selectPlayer_registry.
  - left. apply steady_setup.
  - unfold registry_step. rewrite remove_registry.
    destruct (removePlayer_registry w a) as [E|[i E]]; [by left|right; left; eauto].
  - left. apply steady_cosmetic, cosmetic_on.
  - left. apply steady_cosmetic, cosmetic_once.
  - left. apply steady_cosmetic, cosmetic_off.
  - left. apply steady_cosmetic, cosmetic_trigger.
  - left. apply steady_cosmetic, cosmetic_addPlugin.
  - left. apply steady_cosmetic, cosmetic_emit.
  - left. apply steady_cosmetic, cosmetic_wait.
Qed.

End Steady.

Lemma delete_nil {A} i : delete i ([] : list A) = [].
Proof. by destruct i. Qed.

Lemma strict_run_empty events playerDestroy ops : ∀ w,
  instances w = [] → instances (Run.run events playerDestroy true ops w) = [].
Proof.
  induction ops as [|o ops IH]; intros w Hw; cbn [Run.run fold_left]; [done|].
  apply IH.
  destruct (step_registry events playerDestroy true o w) as [E|[[i E]|[E _]]];
    [congruence| |done].
  rewrite E, Hw. apply delete_nil.
Qed.

(** Where assigning to the read-only [uniqueId] throws, no player is ever
    registered: every attempt to create one throws, after the facade has
    been constructed. *)
Theorem strict_registry_stays_empty
    (events : string → string) (playerDestroy : bool)
    (doc : list element) (dbg : bool) (ops : list Run.op) :
  let w := Run.run events playerDestroy true ops (initial doc dbg) in
  instances w = []
  ∧ ∀ e, ∃ w',
      Registry.selectPlayer events true (Registry.QElement e) w = Raised TypeError w'
      ∧ instances w' = []
      ∧ instancesCreated w' = S (instancesCreated w)
      ∧ _uniqueIndex w' = S (_uniqueIndex w)
      ∧ is_Some (apis w' !! fresh (dom (apis w))).
Proof.
  intros w.
  assert (instances w = []) as Hw by (by apply strict_run_empty).
  split; [done|]. intros e. rewrite selectPlayer_resolve. unfold resolve.
  cbn [Registry.falsy]. rewrite Hw. cbn [find].
  rewrite bind_eq, newApi_ok. cbv beta iota. rewrite bind_eq, addPlayer_ok.
  cbv beta iota. eexists. split; [reflexivity|]. world_simpl.
  repeat split; [done|]. rewrite lookup_insert_eq. eauto.
Qed.











Section Retired.
Variable events : string → string.
Variable playerDestroy : bool.
Variable strict : bool.




End Retired.





(** The [id], the [uniqueId] and the element of a facade never change. *)
Theorem facade_identity_is_stable
    (events : string → string) (playerDestroy strict : bool)
    (ops : list Run.op) (w : world) (a : nat) (x : Api) :
  apis w !! a = Some x →
  ∃ x', apis (Run.run events playerDestroy strict ops w) !! a = Some x'
        ∧ id x' = id x ∧ uniqueId x' = uniqueId x
        ∧ api_element x' = api_element x.
Proof.
  intros Hx. destruct (evolves_run events playerDestroy strict ops w) as (A & _).
  destruct (A a x Hx) as (x' & Hx' & U & I & E). eauto.
Qed.

Lemma facade_identity_is_stable_witness :
  ∃ x', apis (Run.run Scenario.events true false
                [Run.Setup 0 (Options {["id" := VStr "other"]} []);
                 Run.Remove 0;
                 Run.Select (Registry.QElement Scenario.video)]
                Scenario.live) !! 0 = Some x'
        ∧ id x' = "video" ∧ uniqueId x' = 0.
Proof.
  destruct (facade_identity_is_stable Scenario.events true false
              [Run.Setup 0 (Options {["id" := VStr "other"]} []);
               Run.Remove 0;
               Run.Select (Registry.QElement Scenario.video)]
              Scenario.live 0 Scenario.live_api)
    as (x' & Hx' & I & U & _); [vm_compute; reflexivity|].
  exists x'. split; [exact Hx'|]. split; [exact I|exact U].
Defined.


(** *** The bridge between engine and facade *)

Section Bridged.
Variable events : string → string.
Variable playerDestroy : bool.
Variable strict : bool.










End Bridged.


Lemma payload_object n (ev : gmap string value) :
  payload n (VObj ev) = <["type" := VStr n]> ev.
Proof.
  unfold payload. cbn [JS.isObject Underscore.extend fold_left JS.truthy JS.props_of].
  by rewrite (right_id_L ∅ (∪)).
Qed.

Section Forwarding.
Variable events : string → string.

Lemma reached_bridge_plain a n :
  events "JWPLAYER_READY" ≠ "all" → n ≠ events "JWPLAYER_READY" → n ≠ "all" →
  Events.reached n (bridge_listeners events a)
  = [Events.Listener "all" (Forward a) false].
Proof.
  intros H1 H2 H3. unfold Events.reached, bridge_listeners.
  cbn [List.filter Events.l_name].
  assert (String.eqb (events "JWPLAYER_READY") n = false) as ->
    by (apply String.eqb_neq; congruence).
  assert (String.eqb "all" n = false) as -> by (apply String.eqb_neq; congruence).
  assert (String.eqb (events "JWPLAYER_READY") "all" = false) as ->
    by (by apply String.eqb_neq).
  reflexivity.
Qed.

Lemma reached_bridge_ready a :
  events "JWPLAYER_READY" ≠ "all" →
  Events.reached (events "JWPLAYER_READY") (bridge_listeners events a)
  = [Events.Listener (events "JWPLAYER_READY") (ReadyTick a) false;
     Events.Listener "all" (Forward a) false].
Proof.
  intros H1. unfold Events.reached, bridge_listeners.
  cbn [List.filter Events.l_name]. rewrite String.eqb_refl.
  assert (String.eqb "all" (events "JWPLAYER_READY") = false) as ->
    by (apply String.eqb_neq; congruence).
  assert (String.eqb (events "JWPLAYER_READY") "all" = false) as ->
    by (by apply String.eqb_neq).
  reflexivity.
Qed.

End Forwarding.

(** An event of the current engine, other than the ready event, reaches the
    listeners of the facade: in production mode each listener of the event
    and each listener of all events is called once, with a copy of the event
    object stamped with the name. *)
Theorem engine_event_reaches_listeners
    (events : string → string) (w : world) (self : nat) (x : Api)
    (oc : Controller) (n : string) (ev : gmap string value) :
  wired w self x oc →
  c_events oc = bridge_listeners events self →
  debug w = false →
  events "JWPLAYER_READY" ≠ "all" → n ≠ events "JWPLAYER_READY" → n ≠ "all" →
  Facade.emit (_controller x) n ev w
  = Done tt
      (w_trace (trace w ++ deliveries self n (<["type" := VStr n]> ev)
                             (Events.reached n (_events x)))
         (w_apis (<[self := with_events
                              (remaining (Events.reached n (_events x)) (_events x)) x]>
                    (apis w)) w)).
Proof.
  intros [Hx Hc] Hb Hd H1 H2 H3. unfold Facade.emit.
  rewrite bind_eq, (the_controller_ok _ _ _ Hc). cbv beta iota.
  rewrite Hb, reached_bridge_plain by done.
  cbn [Facade.run_bridges Events.l_callback]. rewrite bind_eq.
  rewrite (trigger_unfold _ _ _ _ _ Hx), Hd.
  rewrite (deliver_all self n (payload n (VObj ev)) false _ w x Hx) by done.
  by rewrite payload_object.
Qed.

Lemma engine_event_reaches_listeners_witness :
  ∃ x oc w',
    wired Scenario.subscribed 0 x oc
    ∧ Facade.emit 0 "play" {["position" := JS.num_lit "3"]} Scenario.subscribed
      = Done tt w'
    ∧ trace w'
      = (trace Scenario.subscribed
         ++ [Delivered 0 7 "play"
               {["type" := VStr "play"; "position" := JS.num_lit "3"]}])%list.
Proof.
  assert (wired Scenario.subscribed 0
            (with_events [Events.Listener "play" Scenario.listener_fn false]
               Scenario.live_api) Scenario.live_controller) as Hw.
  { split; vm_compute; reflexivity. }
  eexists _, _, _. split; [exact Hw|].
  split.
  - apply (engine_event_reaches_listeners Scenario.events Scenario.subscribed 0 _ _
             "play" {["position" := JS.num_lit "3"]} Hw);
      [reflexivity|reflexivity|discriminate|discriminate|discriminate].
  - vm_compute. reflexivity.
Defined.

(** The ready event of the current engine reaches the listeners of the facade
    with the time between [setup] and now as its [setupTime], and the facade
    notes the time of the event. *)
Theorem ready_event_carries_setup_time
    (events : string → string) (w : world) (self : nat) (x : Api)
    (oc : Controller) (ev : gmap string value) :
  let ready := events "JWPLAYER_READY" in
  let setupTime := match _qoe x !! "setup" with
                   | Some t => VNum (Num.of_Z (clock w - t))
                   | None => VNull
                   end in
  let x1 := with_qoe (<["ready" := clock w]> (_qoe x)) x in
  wired w self x oc →
  c_events oc = bridge_listeners events self →
  debug w = false →
  ready ≠ "all" →
  Facade.emit (_controller x) ready ev w
  = Done tt
      (w_trace (trace w
                ++ deliveries self ready
                     (<["type" := VStr ready]> (<["setupTime" := setupTime]> ev))
                     (Events.reached ready (_events x)))
         (w_apis (<[self := with_events
                              (remaining (Events.reached ready (_events x)) (_events x))
                              x1]>
                    (apis w)) w)).
Proof.
  intros ready setupTime x1 [Hx Hc] Hb Hd H1. unfold Facade.emit.
  rewrite bind_eq, (the_controller_ok _ _ _ Hc). cbv beta iota.
  rewrite Hb. fold ready. unfold ready at 1 2. rewrite reached_bridge_ready by done.
  fold ready. cbn [Facade.run_bridges Events.l_callback].
  rewrite bind_eq. unfold Facade.tick. rewrite bind_eq. cbn [gets]. cbv beta iota.
  rewrite (update_api_ok _ _ _ _ Hx). cbv beta iota. fold x1.
  rewrite bind_eq. unfold Facade.between. rewrite bind_eq.
  erewrite the_api_ok by (world_simpl; apply lookup_insert_eq).
  cbv beta iota. cbn [mret M_ret]. cbv beta iota.
  assert (_qoe x1 !! "setup" = _qoe x !! "setup") as ->
    by (unfold x1; cbn; by rewrite lookup_insert_ne).
  assert (_qoe x1 !! "ready" = Some (clock w)) as ->
    by (unfold x1; cbn; apply lookup_insert_eq).
  rewrite bind_eq.
  erewrite trigger_unfold by (world_simpl; apply lookup_insert_eq).
  world_simpl. rewrite Hd.
  erewrite (deliver_all self ready _ false) by (world_simpl; try apply lookup_insert_eq; done).
  world_simpl. rewrite payload_object, insert_insert_eq.
  unfold x1, setupTime. reflexivity.
Qed.

Lemma ready_event_carries_setup_time_witness :
  let w := Scenario.run [Run.Wait 2;
                         Run.Setup 0 (Options ∅ [(onReady, Scenario.listener_fn)]);
                         Run.Wait 5] Scenario.live in
  ∃ x oc w',
    wired w 0 x oc
    ∧ Facade.emit 1 "ready" ∅ w = Done tt w'
    ∧ trace w'
      = (trace w
         ++ [Delivered 0 7 "ready"
               {["type" := VStr "ready"; "setupTime" := JS.num_lit "5"]}])%list.
Proof.
  intros w.
  assert (∃ x oc, wired w 0 x oc ∧ c_events oc = bridge_listeners Scenario.events 0
                  ∧ _controller x = 1) as (x & oc & Hw & Hb & Hc).
  { eexists _, _. split; [split; vm_compute; reflexivity|]. split; reflexivity. }
  pose proof (ready_event_carries_setup_time Scenario.events w 0 x oc ∅ Hw Hb) as E.
  cbv zeta in E. rewrite Hc in E.
  eexists x, oc, _. split; [exact Hw|]. split.
  - apply E; [reflexivity|discriminate].
  - world_simpl. destruct Hw as [Hx _]. vm_compute in Hx. injection Hx as <-.
    vm_compute. reflexivity.
Defined.


(** *** The methods that call the engine *)

(** While the engine exposes none of the methods asked for, the accessors
    and commands of the facade return their neutral values and leave the
    engine alone. *)
Theorem absent_engine_methods_are_neutral
    (E : Type) (member_of : E → string → Commands.member)
    (invoke : string → list value → E → outcome value * E)
    (exists_ : value → bool) (states : string → value) (e : E) :
  (∀ name, member_of e name = Commands.Missing) →
  (∀ name args, Commands.callInternal E member_of invoke name args e = (Ok VNull, e))
  ∧ (∀ state meta, Commands.play E member_of invoke states state meta e = (Ok tt, e))
  ∧ (∀ state meta, Commands.pause E member_of invoke states state meta e = (Ok tt, e))
  ∧ Commands.getItemMeta E member_of invoke e = (Ok (VObj ∅), e)
  ∧ ∀ index, Commands.getPlaylistItem E member_of invoke exists_ index e
             = (Ok VNull, e).
Proof.
  intros H.
  assert (∀ name args,
            Commands.callInternal E member_of invoke name args e = (Ok VNull, e)) as Hc.
  { intros name args. unfold Commands.callInternal. by rewrite H. }
  assert (∀ state meta,
            Commands.play E member_of invoke states state meta e = (Ok tt, e)) as Hp.
  { intros state meta. unfold Commands.play, Commands.getState, Commands.andThen.
    destruct (JS.strict_eq state (VBool true)); [by rewrite Hc|].
    destruct (JS.strict_eq state (VBool false)); [by rewrite Hc|].
    rewrite Hc. destruct (_ || _); by rewrite Hc. }
  split; [exact Hc|]. split; [exact Hp|]. split; [|split].
  - intros state meta. unfold Commands.pause. destruct state; apply Hp.
  - unfold Commands.getItemMeta, Commands.andThen. by rewrite Hc.
  - intros index. unfold Commands.getPlaylistItem, Commands.getPlaylist,
      Commands.andThen.
    destruct (negb (exists_ index)); by rewrite Hc.
Qed.

Lemma absent_engine_methods_are_neutral_witness :
  let member_of := fun (_ : unit) (_ : string) => Commands.Missing in
  let invoke := fun (_ : string) (_ : list value) (e : unit) => (Ok VUndef, e) in
  Commands.play unit member_of invoke (fun s => VStr s) VUndef VUndef tt = (Ok tt, tt)
  ∧ Commands.getPlaylistItem unit member_of invoke Example.exists_ (JS.num_lit "0") tt
    = (Ok VNull, tt).
Proof.
  intros member_of invoke.
  destruct (absent_engine_methods_are_neutral unit member_of invoke Example.exists_
              (fun s => VStr s) tt) as (_ & P & _ & _ & G); [reflexivity|].
  split; [apply P|apply G].
Defined.

(** [qoe] throws while the engine does not expose [getItemQoe]. *)
Theorem qoe_throws_without_item_qoe
    (E : Type) (member_of : E → string → Commands.member)
    (invoke : string → list value → E → outcome value * E)
    (method_result : value → string → outcome value)
    (timer_between : string → string → value) (timer_dump : value) (e : E) :
  member_of e "getItemQoe" = Commands.Missing →
  Commands.qoe E member_of invoke method_result timer_between timer_dump e
  = (Throw TypeError, e).
Proof.
  intros H. unfold Commands.qoe, Commands.andThen, Commands.callInternal.
  by rewrite H.
Qed.

Lemma qoe_throws_without_item_qoe_witness :
  Commands.qoe unit (fun _ _ => Commands.Missing) (fun _ _ e => (Ok VUndef, e))
    (fun _ _ => Ok VUndef) (fun _ _ => VNull) (VObj ∅) tt
  = (Throw TypeError, tt).
Proof. by apply qoe_throws_without_item_qoe. Defined.

